(** * Doginals tooling: builder, broadcaster, decoder and bulk controller

  A shallow embedding of the inscription builder and broadcaster
  (the [doginals] command-line script), of the chain decoder with its
  content store, type sniffer and progress tracker (the [decode]
  script), and of the main loop of the streaming bulk-mint route of
  the server, followed by the properties established about them.

  Conventions.
  - A [Buffer] is a [list byte].
  - A JavaScript string is a [string]; a non-ASCII string stands for
    its UTF-8 encoding.  Everything the modelled code inspects in a
    string is ASCII (digits, hex digits, punctuation), or is a test for
    emptiness.
  - A JavaScript number that the code only uses as a non-negative
    integer is an [N]; where a sign or [NaN] can occur it is an
    [option Z], [None] standing for [NaN]; the number of mints a
    request asks for, which need not be whole, is a [Q].
  - Calls into libraries (bitcore, the node's JSON-RPC) are modelled
    next to the code that uses them and documented there. *)

From Stdlib Require Import ZArith NArith QArith Qminmax Lia Lqa List Bool Ascii String.
From Stdlib.Strings Require Import Byte.
From Stdlib Require Import DecimalString DecimalN.
From stdpp Require Import gmap strings list.
Import ListNotations.

(* ===================================================================== *)
(** ** JavaScript strings *)
(* ===================================================================== *)

Module JS.

(** [s.startsWith(p)] *)
Fixpoint startsWith (p s : string) : bool :=
  match p, s with
  | EmptyString, _ => true
  | String a p', String b s' => if Ascii.eqb a b then startsWith p' s' else false
  | String _ _, EmptyString => false
  end.

(** [s.includes(sub)] *)
Fixpoint includes (s sub : string) : bool :=
  if startsWith sub s then true
  else match s with
       | EmptyString => false
       | String _ s' => includes s' sub
       end.

(** [\d] *)
Definition isDigit (c : ascii) : bool :=
  let n := N_of_ascii c in ((48 <=? n) && (n <=? 57))%N.

Definition digitVal (c : ascii) : Z := (Z.of_N (N_of_ascii c) - 48)%Z.

Fixpoint allDigits (s : string) : bool :=
  match s with
  | EmptyString => true
  | String c s' => isDigit c && allDigits s'
  end.

(** [/^\d+$/.test(s)] *)
Definition isDigits (s : string) : bool :=
  match s with
  | EmptyString => false
  | String _ _ => allDigits s
  end.

(** [s.replace(/^-/, "")] *)
Definition stripMinus (s : string) : string :=
  match s with
  | String "-" s' => s'
  | _ => s
  end.

(** ASCII members of the class [\s]. *)
Definition isAsciiSpace (c : ascii) : bool :=
  let n := N_of_ascii c in
  ((n =? 32) || ((9 <=? n) && (n <=? 13)))%N.

Fixpoint skipAsciiSpace (s : string) : string :=
  match s with
  | String c s' => if isAsciiSpace c then skipAsciiSpace s' else s
  | EmptyString => s
  end.

(** The digits read by [parseInt]: the longest run of decimal digits
    at the front of [s], accumulated from the left. *)
Fixpoint readDigits (acc : Z) (s : string) : Z :=
  match s with
  | String c s' => if isDigit c then readDigits (10 * acc + digitVal c)%Z s' else acc
  | EmptyString => acc
  end.

Definition startsWithDigit (s : string) : bool :=
  match s with
  | String c _ => isDigit c
  | EmptyString => false
  end.

(** [parseInt(s, 10)]: leading white space, an optional sign, then the
    longest run of digits; [NaN] ([None]) when there is no digit.  The
    value is exact here; a double rounds it beyond 2^53, which keeps it
    different from zero. *)
Definition parseInt (s : string) : option Z :=
  let t := skipAsciiSpace s in
  let '(neg, u) :=
    match t with
    | String "-" u => (true, u)
    | String "+" u => (false, u)
    | _ => (false, t)
    end in
  if startsWithDigit u
  then Some (if neg then (- readDigits 0 u)%Z else readDigits 0 u)
  else None.

(** The members of [\s] beyond ASCII, in their UTF-8 form: U+00A0;
    U+1680, U+2000 to U+200A, U+2028, U+2029, U+202F, U+205F, U+3000
    and U+FEFF. *)
Definition isSpace2 (a b : ascii) : bool :=
  ((N_of_ascii a =? 194) && (N_of_ascii b =? 160))%N.

Definition isSpace3 (a b c : ascii) : bool :=
  let x := N_of_ascii a in
  let y := N_of_ascii b in
  let z := N_of_ascii c in
  (((x =? 225) && (y =? 154) && (z =? 128))
   || ((x =? 226) && (y =? 128)
       && (((128 <=? z) && (z <=? 138)) || (z =? 168) || (z =? 169) || (z =? 175)))
   || ((x =? 226) && (y =? 129) && (z =? 159))
   || ((x =? 227) && (y =? 128) && (z =? 128))
   || ((x =? 239) && (y =? 187) && (z =? 191)))%N.

(** [s.trimStart()], which is also what [\s*] consumes at the front of
    [s]. *)
Fixpoint trimStart (s : string) : string :=
  match s with
  | String a r =>
      if isAsciiSpace a then trimStart r
      else
        match r with
        | String b r2 =>
            if isSpace2 a b then trimStart r2
            else
              match r2 with
              | String c r3 => if isSpace3 a b c then trimStart r3 else s
              | EmptyString => s
              end
        | EmptyString => s
        end
  | EmptyString => s
  end.

(** [s.slice(n)] *)
Fixpoint dropChars (n : nat) (s : string) : string :=
  match n, s with
  | S n', String _ s' => dropChars n' s'
  | _, _ => s
  end.

(** [re.test(s)] for a pattern without anchors, given the test [f] for
    a match that starts at the front: a match may start anywhere. *)
Fixpoint matchesSomewhere (f : string -> bool) (s : string) : bool :=
  if f s then true
  else match s with
       | String _ s' => matchesSomewhere f s'
       | EmptyString => false
       end.

(** The double quote. *)
Definition dquote : ascii := ascii_of_N 34.
Definition quoted (s : string) : string := String dquote (s +:+ String dquote EmptyString).

(** A match of [lit \s* : \s* c] at the front of [s], where [lit] is a
    literal and [c] one character: the form of the two patterns of the
    sniffer, the quoted word asset, a colon and an opening brace, and
    the quoted word version, a colon and a quote, with optional white
    space around the colon. *)
Definition keyColonThen (lit : string) (c : ascii) (s : string) : bool :=
  if startsWith lit s then
    match trimStart (dropChars (String.length lit) s) with
    | String ":" r =>
        match trimStart r with
        | String d _ => Ascii.eqb d c
        | EmptyString => false
        end
    | _ => false
    end
  else false.

(** [String(n)] for a non-negative integer. *)
Definition decimal (n : N) : string := NilEmpty.string_of_uint (N.to_uint n).

(** [String(z)] for an integer. *)
Definition decimalZ (z : Z) : string :=
  match z with
  | Zneg p => String "-" (decimal (Npos p))
  | _ => decimal (Z.to_N z)
  end.

(** JavaScript truthiness of a string, and [a || b] on strings. *)
Definition truthy (s : string) : bool :=
  match s with EmptyString => false | _ => true end.

Definition orElse (a b : string) : string := if truthy a then a else b.

End JS.

(* ===================================================================== *)
(** ** Buffers and their hex form *)
(* ===================================================================== *)

Module Buf.

Definition byteN (b : byte) : N := Byte.to_N b.

(** The conversion [Buffer.from([...])] applies to each array element. *)
Definition toUint8 (n : N) : byte :=
  match Byte.of_N (n mod 256) with
  | Some b => b
  | None => x00
  end.

Definition hexDigit (n : N) : ascii :=
  match N.to_nat n with
  | 0 => "0" | 1 => "1" | 2 => "2" | 3 => "3" | 4 => "4" | 5 => "5"
  | 6 => "6" | 7 => "7" | 8 => "8" | 9 => "9" | 10 => "a" | 11 => "b"
  | 12 => "c" | 13 => "d" | 14 => "e" | _ => "f"
  end%char.

Definition hexOfByte (b : byte) (rest : string) : string :=
  String (hexDigit (byteN b / 16)) (String (hexDigit (byteN b mod 16)) rest).

(** [buf.toString("hex")] *)
Fixpoint toHex (bs : list byte) : string :=
  match bs with
  | [] => EmptyString
  | b :: r => hexOfByte b (toHex r)
  end.

Definition hexVal (c : ascii) : option N :=
  let n := N_of_ascii c in
  if ((48 <=? n) && (n <=? 57))%N then Some (n - 48)%N
  else if ((97 <=? n) && (n <=? 102))%N then Some (n - 87)%N
  else if ((65 <=? n) && (n <=? 70))%N then Some (n - 55)%N
  else None.

(** [Buffer.from(s, "hex")]: two digits per byte; decoding stops at the
    first pair that is not hex, and a single trailing character is
    dropped. *)
Fixpoint fromHex (s : string) : list byte :=
  match s with
  | String a (String b r) =>
      match hexVal a, hexVal b with
      | Some x, Some y => toUint8 (16 * x + y) :: fromHex r
      | _, _ => []
      end
  | _ => []
  end.

(** [Buffer.from(s)] (UTF-8) and [buf.toString("utf8")].  On bytes that
    are not well-formed UTF-8 JavaScript substitutes U+FFFD; the bytes
    are kept here, which changes neither emptiness nor any ASCII
    character. *)
Definition ofString (s : string) : list byte := list_byte_of_string s.
Definition toUtf8 (bs : list byte) : string := string_of_list_byte bs.

(** [buf.toString("ascii", 0, n)]: the first [n] bytes, each with its
    highest bit cleared. *)
Definition asciiChar (b : byte) : ascii := ascii_of_N (N.land (byteN b) 127).

Fixpoint asciiString (bs : list byte) : string :=
  match bs with
  | [] => EmptyString
  | b :: r => String (asciiChar b) (asciiString r)
  end.

Definition toAscii (n : nat) (bs : list byte) : string := asciiString (take n bs).

End Buf.

(* ===================================================================== *)
(** ** The builder script: script chunks *)
(* ===================================================================== *)

Module Builder.

Definition MAX_SCRIPT_ELEMENT_SIZE : nat := 520.
Definition MAX_CHUNK_LEN : nat := 240.
Definition MAX_PAYLOAD_LEN : nat := 1500.

(** A chunk of a bitcore [Script]: [{ buf, len, opcodenum }].  [buf] is
    [None] where the source leaves it [undefined]. *)
Record chunk := Chunk {
  buf : option (list byte);
  len : N;
  opcodenum : N
}.

Definition nlength {A} (l : list A) : N := N.of_nat (length l).

(** [bufferToChunk(b, type)], on the bytes [Buffer.from(b, type)]. *)
Definition bufferToChunk (b : list byte) : chunk :=
  {| buf := match b with [] => None | _ => Some b end;
     len := nlength b;
     opcodenum := if (nlength b <=? 75)%N then nlength b
                  else if (nlength b <=? 255)%N then 76%N else 77%N |}.

(** [numberToChunk(n)] *)
Definition numberToChunk (n : N) : chunk :=
  {| buf := if (n <=? 16)%N then None
            else if (n <? 128)%N then Some [Buf.toUint8 n]
            else Some [Buf.toUint8 (n mod 256); Buf.toUint8 (n / 256)];
     len := if (n <=? 16)%N then 0%N else if (n <? 128)%N then 1%N else 2%N;
     opcodenum := if (n =? 0)%N then 0%N
                  else if (n <=? 16)%N then (80 + n)%N
                  else if (n <? 128)%N then 1%N else 2%N |}.

(** [opcodeToChunk(op)]: only [opcodenum] is set. *)
Definition opcodeToChunk (op : N) : chunk :=
  {| buf := None; len := 0%N; opcodenum := op |}.

(** What [chunkToNumber] can produce: a number, [undefined] (or the
    [NaN] an [undefined] byte turns the sum into), or the [TypeError]
    of indexing an [undefined] buffer. *)
Inductive numberResult :=
| Num (n : N)
| NotANumber
| TypeError.

Definition byteAt (b : list byte) (i : nat) : option N := Buf.byteN <$> b !! i.

(** [chunkToNumber(chunk)] *)
Definition chunkToNumber (c : chunk) : numberResult :=
  if (opcodenum c =? 0)%N then Num 0
  else if (opcodenum c =? 1)%N then
    match buf c with
    | None => TypeError
    | Some b => match byteAt b 0 with Some x => Num x | None => NotANumber end
    end
  else if (opcodenum c =? 2)%N then
    match buf c with
    | None => TypeError
    | Some b =>
        match byteAt b 1, byteAt b 0 with
        | Some hi, Some lo => Num (hi * 255 + lo)
        | _, _ => NotANumber
        end
    end
  else if ((80 <? opcodenum c) && (opcodenum c <=? 96))%N then Num (opcodenum c - 80)
  else NotANumber.

(** The test of [extract]'s loop: the marker read from the next chunk
    is accepted when it equals [remaining - 1]; otherwise [extract]
    leaves the script for the next transaction. *)
Definition markerAccepted (remaining : N) (c : chunk) : bool :=
  match chunkToNumber c with
  | Num n => (Z.of_N n =? Z.of_N remaining - 1)%Z
  | _ => false
  end.

End Builder.

(* ===================================================================== *)
(** ** The decoder script: results and the envelope parser *)
(* ===================================================================== *)

(** A computation that returns or throws [new Error(msg)]. *)
Inductive result (A : Type) :=
| Ok (a : A)
| Throw (msg : string).
Arguments Ok {A} a.
Arguments Throw {A} msg.

Module Envelope.

(** [isIntegerString(s)]: [/^-?\d+$/.test(s)] *)
Definition isIntegerString (s : string) : bool :=
  match s with
  | String "-" s' => JS.isDigits s'
  | _ => JS.isDigits s
  end.

(** [hexToAscii(hexString)]; the [catch] branch is for an argument that
    is not a string, which a token never is. *)
Definition hexToAscii (hexString : string) : string :=
  Buf.toUtf8 (Buf.fromHex hexString).

(** The object returned by both parsers.  [mimeType] is absent from
    the one [processSubsequentAsm] returns.  [lastNumChunks] is [None]
    for [null] and for [NaN]. *)
Record parsed := Parsed {
  dataHex : string;
  mimeType : option string;
  endOfData : bool;
  chunksFound : Z;
  lastNumChunks : option Z
}.

(** [parseInt(token.replace(/^-/, ""), 10)] *)
Definition parseMarker (token : string) : option Z :=
  JS.parseInt (JS.stripMinus token).

Definition isZero (n : option Z) : bool :=
  match n with
  | Some 0%Z => true
  | _ => false
  end.

(** The [while (index < asmData.length)] loop shared by the two
    parsers, run on the tokens from [index] on.  [mt] is the mime type
    the result carries. *)
Fixpoint consume (mt : option string) (tokens : list string)
         (hex : string) (found : Z) (last : option Z) : parsed :=
  match tokens with
  | token :: rest =>
      if isIntegerString token then
        let numChunks := parseMarker token in
        match rest with
        | dataChunk :: rest' =>
            let hex' := (hex +:+ dataChunk)%string in
            let found' := (found + 1)%Z in
            if isZero numChunks
            then Parsed hex' mt true found' numChunks
            else consume mt rest' hex' found' numChunks
        | [] => Parsed hex mt false found last
        end
      else Parsed hex mt false found last
  | [] => Parsed hex mt false found last
  end.

Definition DEFAULT_MIME : string := "application/octet-stream".

(** [processGenesisAsm(asmData)] *)
Definition processGenesisAsm (asmData : list string) : result parsed :=
  match asmData with
  | _ :: t1 :: mimeTypeHex :: rest =>
      let numChunks := parseMarker t1 in
      let mimeType := JS.orElse (hexToAscii mimeTypeHex) DEFAULT_MIME in
      Ok (consume (Some mimeType) rest EmptyString 0%Z numChunks)
  | _ => Throw "Genesis asm too short."
  end.

(** [processSubsequentAsm(asmData)] *)
Definition processSubsequentAsm (asmData : list string) : parsed :=
  consume None asmData EmptyString 0%Z None.

End Envelope.

(* ===================================================================== *)
(** ** The decoder script: progress tracking *)
(* ===================================================================== *)

Module Progress.

(** An entry of [progressMap].  [estimatedTotal] and [depTotal] are
    [None] while they are [null]. *)
Record entry := Entry {
  txid : string;
  chunksFound : Z;
  estimatedTotal : option Z;
  active : bool;
  label : string;
  startedAt : string;
  updatedAt : string;
  depTotal : option Z;
  depDone : Z
}.

(** [baseProgressObject(key)]; [now] is [new Date().toISOString()]. *)
Definition baseProgressObject (key now : string) : entry :=
  {| txid := key; chunksFound := 0; estimatedTotal := None; active := true;
     label := "init"; startedAt := now; updatedAt := now;
     depTotal := None; depDone := 0 |}.

Definition initProgress (key now : string) (m : gmap string entry) : gmap string entry :=
  <[key := baseProgressObject key now]> m.

Definition resetProgressForId (key : string) (m : gmap string entry) : gmap string entry :=
  delete key m.

(** [!p.estimatedTotal || candidateTotal > p.estimatedTotal] *)
Definition growsTotal (old : option Z) (candidate : Z) : bool :=
  match old with
  | None => true
  | Some t => (t =? 0)%Z || (t <? candidate)%Z
  end.

(** [updateProgress(key, label, chunksFoundInStep, numChunksReported, cb)];
    [numChunksReported] is [None] when it is not a number or is [NaN].
    The callback only receives a snapshot and is left out. *)
Definition updateProgress (key lbl : string) (chunksFoundInStep : Z)
           (numChunksReported : option Z) (now : string)
           (m : gmap string entry) : gmap string entry :=
  let p := default (baseProgressObject key now) (m !! key) in
  let found := if (0 <? chunksFoundInStep)%Z
               then (chunksFound p + chunksFoundInStep)%Z else chunksFound p in
  let total :=
    match numChunksReported with
    | Some r => let candidateTotal := (found + r)%Z in
                if growsTotal (estimatedTotal p) candidateTotal
                then Some candidateTotal else estimatedTotal p
    | None => estimatedTotal p
    end in
  <[key := {| txid := txid p; chunksFound := found; estimatedTotal := total;
              active := true; label := lbl; startedAt := startedAt p;
              updatedAt := now; depTotal := depTotal p; depDone := depDone p |}]> m.

(** [setDependencyPlan(key, totalDeps, cb)] *)
Definition setDependencyPlan (key : string) (totalDeps : Z) (now : string)
           (m : gmap string entry) : gmap string entry :=
  if negb (JS.truthy key) || (totalDeps <=? 0)%Z then m
  else
    let p := default (baseProgressObject key now) (m !! key) in
    <[key := {| txid := txid p; chunksFound := chunksFound p;
                estimatedTotal := estimatedTotal p; active := active p;
                label := label p; startedAt := startedAt p; updatedAt := now;
                depTotal := Some totalDeps; depDone := 0 |}]> m.

(** [incrementDependencyDone(key, cb)] *)
Definition incrementDependencyDone (key now : string)
           (m : gmap string entry) : gmap string entry :=
  if negb (JS.truthy key) then m
  else match m !! key with
       | None => m
       | Some p =>
           <[key := {| txid := txid p; chunksFound := chunksFound p;
                       estimatedTotal := estimatedTotal p; active := active p;
                       label := label p; startedAt := startedAt p; updatedAt := now;
                       depTotal := depTotal p; depDone := (depDone p + 1)%Z |}]> m
       end.

(** [completeProgress(key, cb)] *)
Definition completeProgress (key now : string)
           (m : gmap string entry) : gmap string entry :=
  match m !! key with
  | None => m
  | Some p =>
      <[key := {| txid := txid p; chunksFound := chunksFound p;
                  estimatedTotal := estimatedTotal p; active := false;
                  label := label p; startedAt := startedAt p; updatedAt := now;
                  depTotal := depTotal p; depDone := depDone p |}]> m
  end.

(** [getProgress(key)], as far as its callers use it: the counters of
    the entry, if there is one. *)
Definition getProgress (key : string) (m : gmap string entry) : option entry :=
  m !! key.

(** The tracker calls a decode can make on its key. *)
Inductive op :=
| Update (lbl : string) (chunksFoundInStep : Z) (numChunksReported : option Z)
| SetDependencyPlan (totalDeps : Z)
| IncrementDependencyDone
| Complete.

Definition run (key now : string) (o : op) (m : gmap string entry) : gmap string entry :=
  match o with
  | Update lbl n r => updateProgress key lbl n r now m
  | SetDependencyPlan t => setDependencyPlan key t now m
  | IncrementDependencyDone => incrementDependencyDone key now m
  | Complete => completeProgress key now m
  end.

End Progress.
(* ===================================================================== *)
(** ** The decoder script: the content store and the master index *)
(* ===================================================================== *)

Module Store.

Definition CONTENT_DIR : string := "content".
Definition MASTER_DIR : string := "content/master".
Definition MASTER_PATH : string := "content/master/master.json".

(** The object passed to [upsertMasterEntry], which is also the shape of
    an entry of the index.  A field is [None] when the object does not
    have it. *)
Record meta := Meta {
  inscriptionId : option string;
  txid : option string;
  filename : option string;
  mimeType : option string;
  ext : option string;
  size : option N;
  createdAt : option string
}.

Definition emptyMeta : meta := Meta None None None None None None None.

(** What a file holds: the text [JSON.stringify(master, null, 2)] of an
    index, which [JSON.parse] reads back as that index; a text that is
    blank or that [JSON.parse] rejects, such as the beginning of a
    serialised index; or the bytes of a payload. *)
Inductive content :=
| IndexText (master : gmap string meta)
| TornText
| Payload (bytes : list byte).

Record fs := Fs {
  dirs : gset string;
  files : gmap string content
}.

(** The steps a crash can fall between.  [fs.writeFileSync(path, data)]
    opens [path] for writing, which empties it, and then writes
    [data]. *)
Inductive fsop :=
| MkDir (dir : string)
| Truncate (path : string)
| WriteAll (path : string) (data : content)
| Rename (src dst : string)
| Unlink (path : string).

Definition step (s : fs) (o : fsop) : fs :=
  match o with
  | MkDir d => Fs ({[d]} ∪ dirs s) (files s)
  | Truncate p => Fs (dirs s) (<[p := TornText]> (files s))
  | WriteAll p c => Fs (dirs s) (<[p := c]> (files s))
  | Rename a b =>
      match files s !! a with
      | Some c => Fs (dirs s) (<[b := c]> (delete a (files s)))
      | None => s
      end
  | Unlink p => Fs (dirs s) (delete p (files s))
  end.

Definition exec (s : fs) (ops : list fsop) : fs := foldl step s ops.

(** The state a run of [ops] leaves when it is interrupted after [k]
    steps. *)
Definition interrupted (k : nat) (s : fs) (ops : list fsop) : fs :=
  exec s (take k ops).

Definition mkdirIfMissing (d : string) (s : fs) : list fsop :=
  if decide (d ∈ dirs s) then [] else [MkDir d].

(** [ensureContentDir()] *)
Definition ensureContentDirOps (s : fs) : list fsop :=
  mkdirIfMissing CONTENT_DIR s ++ mkdirIfMissing MASTER_DIR s.

(** [fs.writeFileSync(path, data)] *)
Definition writeFileSyncOps (path : string) (data : content) : list fsop :=
  [Truncate path; WriteAll path data].

(** [loadMaster()]: the index read from [master.json]; empty when the
    file is missing, blank or not JSON.  (It also creates the two
    directories, which [saveMaster] does again.) *)
Definition loadMaster (s : fs) : gmap string meta :=
  match files s !! MASTER_PATH with
  | Some (IndexText master) => master
  | _ => ∅
  end.

(** [saveMaster(master)] *)
Definition saveMasterOps (s : fs) (master : gmap string meta) : list fsop :=
  ensureContentDirOps s ++ writeFileSyncOps MASTER_PATH (IndexText master).

Definition saveMaster (master : gmap string meta) (s : fs) : fs :=
  exec s (saveMasterOps s master).

(** [atomicWriteJson(filePath, dataObj)] of the server, which writes its
    run records and airdrop state. *)
Definition atomicWriteJsonOps (filePath : string) (data : content) : list fsop :=
  let tmp := (filePath +:+ ".tmp")%string in
  writeFileSyncOps tmp data ++ [Rename tmp filePath].

Definition truthyOpt (o : option string) : bool :=
  match o with
  | Some s => JS.truthy s
  | None => false
  end.

(** [a || b] on values that are strings or [undefined]. *)
Definition orOpt (a b : option string) : option string :=
  if truthyOpt a then a else b.

Definition over {A} (new old : option A) : option A :=
  match new with
  | Some _ => new
  | None => old
  end.

(** [{ ...existing, ...meta, createdAt }] *)
Definition merge (existing m : meta) (created : option string) : meta :=
  {| inscriptionId := over (inscriptionId m) (inscriptionId existing);
     txid := over (txid m) (txid existing);
     filename := over (filename m) (filename existing);
     mimeType := over (mimeType m) (mimeType existing);
     ext := over (ext m) (ext existing);
     size := over (size m) (size existing);
     createdAt := created |}.

(** The index [upsertMasterEntry] saves; [now] is
    [new Date().toISOString()]. *)
Definition upserted (m : meta) (id now : string) (master : gmap string meta)
  : gmap string meta :=
  let existing := default emptyMeta (master !! id) in
  let created := orOpt (createdAt existing) (orOpt (createdAt m) (Some now)) in
  <[id := merge existing m created]> master.

(** [upsertMasterEntry(meta)] *)
Definition upsertMasterEntry (m : meta) (now : string) (s : fs) : fs :=
  match inscriptionId m with
  | Some id =>
      if JS.truthy id then saveMaster (upserted m id now (loadMaster s)) s
      else s
  | None => s
  end.

End Store.
(* ===================================================================== *)
(** ** The decoder script: media types and the byte sniffer *)
(* ===================================================================== *)

Module Sniff.

(** The object [{ mimeType, ext }]; [None] is [null]. *)
Record sniffed := Sniffed {
  mimeType : option string;
  ext : option string
}.

Definition nothing : sniffed := Sniffed None None.
Definition found (mime e : string) : sniffed := Sniffed (Some mime) (Some e).

(** [buf[i] === v] *)
Definition byteIs (buf : list byte) (i : nat) (v : N) : bool :=
  match buf !! i with
  | Some b => (Buf.byteN b =? v)%N
  | None => false
  end.

Definition isGlb (buf : list byte) : bool :=
  String.eqb (Buf.toAscii 4 buf) "glTF".

Definition isPng (buf : list byte) : bool :=
  (8 <=? length buf) && byteIs buf 0 137 && byteIs buf 1 80 && byteIs buf 2 78
  && byteIs buf 3 71 && byteIs buf 4 13 && byteIs buf 5 10 && byteIs buf 6 26
  && byteIs buf 7 10.

Definition isJpeg (buf : list byte) : bool :=
  (3 <=? length buf) && byteIs buf 0 255 && byteIs buf 1 216 && byteIs buf 2 255.

Definition isGif (buf : list byte) : bool :=
  (6 <=? length buf)
  && (String.eqb (Buf.toAscii 6 buf) "GIF87a" || String.eqb (Buf.toAscii 6 buf) "GIF89a").

Definition isWebp (buf : list byte) : bool :=
  (12 <=? length buf)
  && String.eqb (Buf.toAscii 4 buf) "RIFF"
  && String.eqb (Buf.toAscii 4 (drop 8 buf)) "WEBP".

(** The three tests on [t], the trimmed text of the first 256 bytes. *)
Definition looksLikeGltf (t : string) : bool :=
  JS.startsWith "{" t
  && JS.matchesSomewhere (JS.keyColonThen (JS.quoted "asset") "{") t
  && JS.matchesSomewhere (JS.keyColonThen (JS.quoted "version") JS.dquote) t.

Definition isGltfJson (buf : list byte) : bool :=
  (32 <=? length buf)
  && looksLikeGltf (JS.trimStart (Buf.toUtf8 (take 256 buf))).

(** [sniffFileTypeFromBuffer(buf)], for a [Buffer]. *)
Definition sniffFileTypeFromBuffer (buf : list byte) : sniffed :=
  if length buf <? 4 then nothing
  else if isGlb buf then found "model/gltf-binary" "glb"
  else if isPng buf then found "image/png" "png"
  else if isJpeg buf then found "image/jpeg" "jpg"
  else if isGif buf then found "image/gif" "gif"
  else if isWebp buf then found "image/webp" "webp"
  else if isGltfJson buf then found "model/gltf+json" "gltf"
  else nothing.

End Sniff.

(* ===================================================================== *)
(** ** JSON texts *)
(* ===================================================================== *)

(** The specification describes the GLTF case of the sniffer by what the
  buffer is as a JSON text.  This module is that description, written
  from the specification's words and from the JSON grammar; the decoder
  has no counterpart of it in its sniffer. *)
Module Json.

#[local] Unset Elimination Schemes.
Inductive value :=
| JNull
| JBool (b : bool)
| JNumber (text : string)
| JString (s : string)
| JArray (items : list value)
| JObject (members : list (string * value)).
#[local] Set Elimination Schemes.

Definition code (c : ascii) : N := N_of_ascii c.

Fixpoint skipWs (s : string) : string :=
  match s with
  | String c r =>
      let n := code c in
      if ((n =? 32) || (n =? 9) || (n =? 10) || (n =? 13))%N then skipWs r else s
  | EmptyString => s
  end.

Definition hex4 (a b c d : ascii) : option N :=
  match Buf.hexVal a, Buf.hexVal b, Buf.hexVal c, Buf.hexVal d with
  | Some w, Some x, Some y, Some z => Some (((w * 16 + x) * 16 + y) * 16 + z)%N
  | _, _, _, _ => None
  end.

(** The UTF-8 form of a code point of the basic plane. *)
Definition utf8 (n : N) (rest : string) : string :=
  if (n <? 128)%N then String (ascii_of_N n) rest
  else if (n <? 2048)%N
       then String (ascii_of_N (192 + n / 64))
              (String (ascii_of_N (128 + n mod 64)) rest)
       else String (ascii_of_N (224 + n / 4096))
              (String (ascii_of_N (128 + (n / 64) mod 64))
                 (String (ascii_of_N (128 + n mod 64)) rest)).

(** The characters of a string after its opening quote, up to the
    closing one, with the escapes replaced. *)
Fixpoint chars (s : string) : option (string * string) :=
  match s with
  | EmptyString => None
  | String c r =>
      let n := code c in
      if (n =? 34)%N then Some (EmptyString, r)
      else if (n <? 32)%N then None
      else if (n =? 92)%N then
        match r with
        | String e r2 =>
            let k := code e in
            let simple (x : N) :=
              match chars r2 with
              | Some (t, r') => Some (String (ascii_of_N x) t, r')
              | None => None
              end in
            if (k =? 34)%N then simple 34%N
            else if (k =? 92)%N then simple 92%N
            else if (k =? 47)%N then simple 47%N
            else if (k =? 98)%N then simple 8%N
            else if (k =? 102)%N then simple 12%N
            else if (k =? 110)%N then simple 10%N
            else if (k =? 114)%N then simple 13%N
            else if (k =? 116)%N then simple 9%N
            else if (k =? 117)%N then
              match r2 with
              | String h1 (String h2 (String h3 (String h4 r6))) =>
                  match hex4 h1 h2 h3 h4, chars r6 with
                  | Some u, Some (t, r') => Some (utf8 u t, r')
                  | _, _ => None
                  end
              | _ => None
              end
            else None
        | EmptyString => None
        end
      else
        match chars r with
        | Some (t, r') => Some (String c t, r')
        | None => None
        end
  end.

Fixpoint digits (s : string) : string * string :=
  match s with
  | String c r =>
      if JS.isDigit c then let '(d, r') := digits r in (String c d, r')
      else (EmptyString, s)
  | EmptyString => (EmptyString, s)
  end.

(** A number: an optional minus sign; an integer part, a single zero or
    digits that do not begin with zero; optionally a point and digits;
    optionally an exponent, the letter e in either case, an optional
    sign, and digits. *)
Definition number (s : string) : option (string * string) :=
  let '(sign, s1) :=
    match s with
    | String "-" r => ("-", r)
    | _ => (EmptyString, s)
    end in
  let '(int, s2) := digits s1 in
  let intOk :=
    match int with
    | EmptyString => false
    | String "0" (String _ _) => false
    | _ => true
    end in
  if negb intOk then None
  else
    let fracPart :=
      match s2 with
      | String "." r =>
          let '(f, r') := digits r in
          match f with
          | EmptyString => None
          | _ => Some (String "." f, r')
          end
      | _ => Some (EmptyString, s2)
      end in
    match fracPart with
    | None => None
    | Some (frac, s3) =>
        let expPart :=
          match s3 with
          | String e r =>
              if ((code e =? 101) || (code e =? 69))%N then
                let '(sg, r1) :=
                  match r with
                  | String "+" r' => ("+", r')
                  | String "-" r' => ("-", r')
                  | _ => (EmptyString, r)
                  end in
                let '(d, r2) := digits r1 in
                match d with
                | EmptyString => None
                | _ => Some (String e (sg +:+ d), r2)
                end
              else Some (EmptyString, s3)
          | EmptyString => Some (EmptyString, s3)
          end in
        match expPart with
        | None => None
        | Some (ex, s4) => Some ((sign +:+ int +:+ frac +:+ ex)%string, s4)
        end
    end.

Definition keyword (k : string) (v : value) (s : string) : option (value * string) :=
  if JS.startsWith k s then Some (v, JS.dropChars (String.length k) s) else None.

(** A value at the front of [s], after white space; [fuel] bounds the
    number of values and members read. *)
Fixpoint parseValue (fuel : nat) (s : string) {struct fuel} : option (value * string) :=
  match fuel with
  | O => None
  | S f =>
      match skipWs s with
      | EmptyString => None
      | String c r =>
          let n := code c in
          if (n =? 123)%N then
            match skipWs r with
            | String d r' =>
                if (code d =? 125)%N then Some (JObject [], r')
                else parseMembers f (String d r') []
            | EmptyString => None
            end
          else if (n =? 91)%N then
            match skipWs r with
            | String d r' =>
                if (code d =? 93)%N then Some (JArray [], r')
                else parseItems f (String d r') []
            | EmptyString => None
            end
          else if (n =? 34)%N then
            match chars r with
            | Some (t, r') => Some (JString t, r')
            | None => None
            end
          else if (n =? 116)%N then keyword "true" (JBool true) (String c r)
          else if (n =? 102)%N then keyword "false" (JBool false) (String c r)
          else if (n =? 110)%N then keyword "null" JNull (String c r)
          else
            match number (String c r) with
            | Some (t, r') => Some (JNumber t, r')
            | None => None
            end
      end
  end
with parseMembers (fuel : nat) (s : string) (acc : list (string * value)) {struct fuel}
     : option (value * string) :=
  match fuel with
  | O => None
  | S f =>
      match skipWs s with
      | String q r =>
          if (code q =? 34)%N then
            match chars r with
            | Some (k, r1) =>
                match skipWs r1 with
                | String ":" r2 =>
                    match parseValue f r2 with
                    | Some (v, r3) =>
                        match skipWs r3 with
                        | String "," r4 => parseMembers f r4 (acc ++ [(k, v)])
                        | String "}" r4 => Some (JObject (acc ++ [(k, v)]), r4)
                        | _ => None
                        end
                    | None => None
                    end
                | _ => None
                end
            | None => None
            end
          else None
      | EmptyString => None
      end
  end
with parseItems (fuel : nat) (s : string) (acc : list value) {struct fuel}
     : option (value * string) :=
  match fuel with
  | O => None
  | S f =>
      match parseValue f s with
      | Some (v, r) =>
          match skipWs r with
          | String "," r' => parseItems f r' (acc ++ [v])
          | String "]" r' => Some (JArray (acc ++ [v]), r')
          | _ => None
          end
      | None => None
      end
  end.

(** [JSON.parse(text)]: one value, with nothing but white space after
    it. *)
Definition parse (text : string) : option value :=
  match parseValue (S (String.length text)) text with
  | Some (v, r) =>
      match skipWs r with
      | EmptyString => Some v
      | _ => None
      end
  | None => None
  end.

(** The last member named [k], as a property read after [JSON.parse]
    gives it. *)
Fixpoint member (k : string) (ms : list (string * value)) : option value :=
  match ms with
  | [] => None
  | (k', v) :: ms' =>
      match member k ms' with
      | Some v' => Some v'
      | None => if String.eqb k k' then Some v else None
      end
  end.

(** Modelled from the spec: the buffer is valid JSON whose root object
    contains a member asset that is an object with a member version. *)
Definition specGltfJson (buf : list byte) : bool :=
  match parse (Buf.toUtf8 buf) with
  | Some (JObject ms) =>
      match member "asset" ms with
      | Some (JObject asset) =>
          match member "version" asset with
          | Some _ => true
          | None => false
          end
      | _ => false
      end
  | _ => false
  end.

End Json.
(* ===================================================================== *)
(** ** The builder script: transactions and the wallet *)
(* ===================================================================== *)

Module Tx.
Import Builder.

Definition OP_PUSHDATA1 : N := 76.
Definition OP_PUSHDATA2 : N := 77.
Definition OP_PUSHDATA4 : N := 78.
Definition OP_TRUE : N := 81.
Definition OP_DROP : N := 117.
Definition OP_EQUAL : N := 135.
Definition OP_HASH160 : N := 169.
Definition OP_CHECKSIGVERIFY : N := 173.
Definition SIGHASH_ALL : N := 1.

(** [n] as [k] little-endian bytes. *)
Fixpoint littleEndian (k : nat) (n : N) : list byte :=
  match k with
  | O => []
  | S k' => Buf.toUint8 n :: littleEndian k' (n / 256)
  end.

(** The bytes bitcore's [Script.prototype.toBuffer] writes for one chunk:
    the opcode, then, for a chunk with a buffer, the length in the width
    the push opcode calls for, and the buffer. *)
Definition chunkBytes (c : chunk) : list byte :=
  Buf.toUint8 (opcodenum c) ::
  match buf c with
  | None => []
  | Some b =>
      if (opcodenum c <? OP_PUSHDATA1)%N then b
      else if (opcodenum c =? OP_PUSHDATA1)%N then littleEndian 1 (len c) ++ b
      else if (opcodenum c =? OP_PUSHDATA2)%N then littleEndian 2 (len c) ++ b
      else if (opcodenum c =? OP_PUSHDATA4)%N then littleEndian 4 (len c) ++ b
      else []
  end.

(** [script.toBuffer()] *)
Definition toBuffer (chunks : list chunk) : list byte :=
  concat (map chunkBytes chunks).

Definition address := string.

(** The script of an output: the pay-to-script-hash script the builder
    assembles around a lock hash, or the script [tx.to] and [tx.change]
    derive from an address. *)
Inductive outScript :=
| ScriptHashOut (lockhash : list byte)
| AddressOut (a : address).

Record output := Output {
  outputScript : outScript;
  satoshis : Z
}.

(** Where an input comes from: [tx.from(utxo)], which [tx.sign] signs
    and a change update unsigns; or the hand-made input on the previous
    pay-to-script-hash output, whose [getSignatures] and
    [clearSignatures] the builder replaces by functions that do
    nothing. *)
Inductive inputKind :=
| WalletInput
| ScriptInput.

Record input := Input {
  prevTxId : string;
  outputIndex : N;
  spent : output;
  kind : inputKind;
  script : list chunk
}.

(** A bitcore [Transaction]: its inputs, its outputs, the change output
    among them if there is one, and the address set by [tx.change]. *)
Record transaction := Transaction {
  inputs : list input;
  outputs : list output;
  changeIndex : option nat;
  changeScript : option address
}.

Definition newTransaction : transaction := Transaction [] [] None None.

Record utxo := Utxo {
  utxoTxid : string;
  vout : N;
  utxoScript : outScript;
  utxoSatoshis : Z
}.

Record wallet := Wallet {
  privkey : string;
  walletAddress : address;
  utxos : list utxo
}.

(** What the builder takes from bitcore and cannot be computed here. *)
Class Bitcore := {
  (** [new PrivateKey(privkey).toPublicKey().toBuffer()] *)
  publicKeyBuffer : string -> list byte;
  (** [Hash.ripemd160(Hash.sha256(b))] *)
  hash160 : list byte -> list byte;
  (** [tx.hash] *)
  txHash : transaction -> string;
  (** [tx.toString()] *)
  txToString : transaction -> string;
  (** the size-based fee [tx.getFee()] estimates once [tx._fee] is
      deleted and a change script is set *)
  estimateFee : transaction -> Z;
  (** [Transaction.sighash.sign(tx, privateKey, SIGHASH_ALL, 0,
      lock).toBuffer()], given the bytes of [lock] *)
  sighashSign : transaction -> string -> list byte -> list byte;
  (** the signature [tx.sign(privkey)] computes for input [i], with its
      hash type *)
  inputSignature : transaction -> string -> nat -> list byte
}.

Section WithBitcore.
Context `{Bitcore}.

Definition sumZ (l : list Z) : Z := foldr Z.add 0%Z l.

(** [tx.inputAmount] and [tx.outputAmount] *)
Definition inputAmount (tx : transaction) : Z :=
  sumZ (map (fun i => satoshis (spent i)) (inputs tx)).
Definition outputAmount (tx : transaction) : Z :=
  sumZ (map satoshis (outputs tx)).

(** [tx.getFee()] in [fund], where [tx._fee] has been deleted: the
    estimate when a change script is set, the unspent value otherwise. *)
Definition getFee (tx : transaction) : Z :=
  match changeScript tx with
  | Some _ => estimateFee tx
  | None => (inputAmount tx - outputAmount tx)%Z
  end.

(** [input.clearSignatures()] on every input *)
Definition clearSignatures (tx : transaction) : transaction :=
  Transaction
    (map (fun i => match kind i with
                   | WalletInput => Input (prevTxId i) (outputIndex i) (spent i) WalletInput []
                   | ScriptInput => i
                   end) (inputs tx))
    (outputs tx) (changeIndex tx) (changeScript tx).

(** bitcore's [_updateChangeOutput], run by every change of inputs or
    outputs: without a change script it does nothing; with one it clears
    the signatures, removes the change output, and appends a new one if
    something is left after the fee. *)
Definition updateChangeOutput (tx : transaction) : transaction :=
  match changeScript tx with
  | None => tx
  | Some a =>
      let tx1 := clearSignatures tx in
      let outs := match changeIndex tx1 with
                  | Some i => delete i (outputs tx1)
                  | None => outputs tx1
                  end in
      let tx2 := Transaction (inputs tx1) outs None (Some a) in
      let changeAmount := (inputAmount tx2 - outputAmount tx2 - getFee tx2)%Z in
      if (0 <? changeAmount)%Z
      then Transaction (inputs tx1) (outs ++ [Output (AddressOut a) changeAmount])
             (Some (length outs)) (Some a)
      else tx2
  end.

(** [tx.addInput(input)] *)
Definition addInput (i : input) (tx : transaction) : transaction :=
  updateChangeOutput
    (Transaction (inputs tx ++ [i]) (outputs tx) (changeIndex tx) (changeScript tx)).

(** [tx.addOutput(output)], and [tx.to(address, amount)] *)
Definition addOutput (o : output) (tx : transaction) : transaction :=
  updateChangeOutput
    (Transaction (inputs tx) (outputs tx ++ [o]) (changeIndex tx) (changeScript tx)).

Definition to (a : address) (amount : Z) (tx : transaction) : transaction :=
  addOutput (Output (AddressOut a) amount) tx.

(** [tx.change(address)] *)
Definition change (a : address) (tx : transaction) : transaction :=
  updateChangeOutput
    (Transaction (inputs tx) (outputs tx) (changeIndex tx) (Some a)).

Definition spends (u : utxo) (i : input) : bool :=
  String.eqb (prevTxId i) (utxoTxid u) && (outputIndex i =? vout u)%N.

(** [tx.from(utxo)]: an unspent output already among the inputs is not
    added again. *)
Definition from (u : utxo) (tx : transaction) : transaction :=
  if existsb (spends u) (inputs tx) then tx
  else addInput (Input (utxoTxid u) (vout u)
                   (Output (utxoScript u) (utxoSatoshis u)) WalletInput []) tx.

(** [tx.sign(privkey)]: every wallet input gets the script
    [<signature> <public key>]. *)
Definition sign (key : string) (tx : transaction) : transaction :=
  Transaction
    (imap (fun n i =>
             match kind i with
             | WalletInput =>
                 Input (prevTxId i) (outputIndex i) (spent i) WalletInput
                   [bufferToChunk (inputSignature tx key n);
                    bufferToChunk (publicKeyBuffer key)]
             | ScriptInput => i
             end) (inputs tx))
    (outputs tx) (changeIndex tx) (changeScript tx).

(** The test that ends the loop of [fund]. *)
Definition funded (tx : transaction) : bool :=
  negb (Nat.eqb (length (inputs tx)) 0) && negb (Nat.eqb (length (outputs tx)) 0)
  && (outputAmount tx + getFee tx <=? inputAmount tx)%Z.

Fixpoint fundLoop (w : wallet) (us : list utxo) (tx : transaction) : transaction :=
  match us with
  | [] => tx
  | u :: us' =>
      if funded tx then tx
      else fundLoop w us' (sign (privkey w) (change (walletAddress w) (from u tx)))
  end.

(** [fund(wallet, tx)] *)
Definition fund (w : wallet) (tx : transaction) : result transaction :=
  let tx' := fundLoop w (utxos w) (change (walletAddress w) tx) in
  if (inputAmount tx' <? outputAmount tx' + getFee tx')%Z
  then Throw "not enough funds"
  else Ok tx'.

Definition paysTo (a : address) (o : output) : bool :=
  match outputScript o with
  | AddressOut b => String.eqb a b
  | ScriptHashOut _ => false
  end.

(** [updateWallet(wallet, tx)]; the wallet file is written by the
    caller's model where it matters. *)
Definition updateWallet (w : wallet) (tx : transaction) : wallet :=
  let unspent :=
    filter (fun u => existsb (spends u) (inputs tx) = false) (utxos w) in
  let gained :=
    omap (fun '(n, o) =>
            if paysTo (walletAddress w) o
            then Some (Utxo (txHash tx) (N.of_nat n) (outputScript o) (satoshis o))
            else None)
         (imap (fun n o => (n, o)) (outputs tx)) in
  Wallet (privkey w) (walletAddress w) (unspent ++ gained).

End WithBitcore.

End Tx.
(* ===================================================================== *)
(** ** The builder script: [inscribe] *)
(* ===================================================================== *)

Module Inscribe.
Import Builder Tx.

(** The first loop of [inscribe]: parts of at most [MAX_CHUNK_LEN] bytes.
    Every round takes at least one byte, so [length data] rounds are
    enough. *)
Fixpoint splitParts (rounds : nat) (data : list byte) : list (list byte) :=
  match rounds with
  | O => []
  | S rounds' =>
      match data with
      | [] => []
      | _ :: _ =>
          let part := take (MAX_CHUNK_LEN `min` length data) data in
          part :: splitParts rounds' (drop (length part) data)
      end
  end.

Definition partsOf (data : list byte) : list (list byte) :=
  splitParts (length data) data.

(** The chunks pushed on [inscription]. *)
Definition envelope (contentType : string) (parts : list (list byte)) : list chunk :=
  [bufferToChunk (Buf.ofString "ord");
   numberToChunk (nlength parts);
   bufferToChunk (Buf.ofString contentType)]
  ++ concat (imap (fun n part =>
                     [numberToChunk (nlength parts - N.of_nat n - 1);
                      bufferToChunk part]) parts).

Definition scriptSize (chunks : list chunk) : nat := length (toBuffer chunks).

(** The inner loop: while the partial is within [MAX_PAYLOAD_LEN] and
    chunks are left, two chunks move to the partial.  A lone last chunk
    would be followed by an [undefined] one, on which [toBuffer]
    throws. *)
Fixpoint fill (partial chunks : list chunk) {struct chunks}
  : result (list chunk * list chunk) :=
  if scriptSize partial <=? MAX_PAYLOAD_LEN then
    match chunks with
    | [] => Ok (partial, [])
    | [_] => Throw "TypeError"
    | a :: b :: rest => fill (partial ++ [a; b]) rest
    end
  else Ok (partial, chunks).

(** [partial.chunks.pop()] *)
Definition pop (partial : list chunk) : option (list chunk * chunk) :=
  match reverse partial with
  | [] => None
  | c :: r => Some (reverse r, c)
  end.

(** The two [unshift(pop())] that follow when the partial has grown
    beyond [MAX_PAYLOAD_LEN]. *)
Definition revert (partial chunks : list chunk) : result (list chunk * list chunk) :=
  if MAX_PAYLOAD_LEN <? scriptSize partial then
    match pop partial with
    | Some (p1, b) =>
        match pop p1 with
        | Some (p2, a) => Ok (p2, a :: b :: chunks)
        | None => Throw "TypeError"
        end
    | None => Throw "TypeError"
    end
  else Ok (partial, chunks).

(** One partial: the first chunk when no transaction has been made yet,
    then the inner loop and its correction. *)
Definition nextPartial (first : bool) (chunks : list chunk)
  : result (list chunk * list chunk) :=
  let '(partial0, chunks0) :=
    match first, chunks with
    | true, c :: rest => ([c], rest)
    | _, _ => ([], chunks)
    end in
  match fill partial0 chunks0 with
  | Ok (partial, rest) => revert partial rest
  | Throw e => Throw e
  end.

Section WithBitcore.
Context `{Bitcore}.

(** The lock script of a partial. *)
Definition lockFor (key : string) (partial : list chunk) : list chunk :=
  [bufferToChunk (publicKeyBuffer key); opcodeToChunk OP_CHECKSIGVERIFY]
  ++ map (fun _ => opcodeToChunk OP_DROP) partial
  ++ [opcodeToChunk OP_TRUE].

Definition p2shOutputFor (lock : list chunk) : output :=
  Output (ScriptHashOut (hash160 (toBuffer lock))) 100000.

(** The unlock script: the previous partial, the signature with its hash
    type, and the previous lock. *)
Definition unlockFor (key : string) (tx : transaction)
           (lastPartial lastLock : list chunk) : list chunk :=
  let signature := sighashSign tx key (toBuffer lastLock) in
  let txsignature := signature ++ [Buf.toUint8 SIGHASH_ALL] in
  lastPartial ++ [bufferToChunk txsignature; bufferToChunk (toBuffer lastLock)].

(** [tx.inputs[0].setScript(unlock)] *)
Definition setScript0 (unlock : list chunk) (tx : transaction) : transaction :=
  Transaction
    (match inputs tx with
     | i :: is' => Input (prevTxId i) (outputIndex i) (spent i) (kind i) unlock :: is'
     | [] => []
     end)
    (outputs tx) (changeIndex tx) (changeScript tx).

(** The input on output 0 of [tx] that the next transaction spends. *)
Definition p2shInputOn (tx : transaction) : option input :=
  match outputs tx with
  | o :: _ => Some (Input (txHash tx) 0 o ScriptInput [])
  | [] => None
  end.

(** The variables of [inscribe] that live across the rounds of its second
    loop. *)
Record state := State {
  chunks : list chunk;
  txs : list transaction;
  p2shInput : option input;
  lastLock : list chunk;
  lastPartial : list chunk;
  purse : wallet
}.

(** One round of [while (inscription.chunks.length)]. *)
Definition round (st : state) : result state :=
  match nextPartial (Nat.eqb (length (txs st)) 0) (chunks st) with
  | Throw e => Throw e
  | Ok (partial, rest) =>
      let key := privkey (purse st) in
      let lock := lockFor key partial in
      let tx0 := match p2shInput st with
                 | Some i => addInput i newTransaction
                 | None => newTransaction
                 end in
      match fund (purse st) (addOutput (p2shOutputFor lock) tx0) with
      | Throw e => Throw e
      | Ok funded =>
          let tx := match p2shInput st with
                    | Some _ =>
                        setScript0 (unlockFor key funded (lastPartial st) (lastLock st)) funded
                    | None => funded
                    end in
          match p2shInputOn tx with
          | None => Throw "TypeError"
          | Some next =>
              Ok {| chunks := rest; txs := txs st ++ [tx]; p2shInput := Some next;
                    lastLock := lock; lastPartial := partial;
                    purse := updateWallet (purse st) tx |}
          end
      end
  end.

(** The second loop; [None] when [rounds] rounds have not emptied the
    chunks. *)
Fixpoint rounds (n : nat) (st : state) : option (result state) :=
  match chunks st with
  | [] => Some (Ok st)
  | _ :: _ =>
      match n with
      | O => None
      | S n' =>
          match round st with
          | Throw e => Some (Throw e)
          | Ok st' => rounds n' st'
          end
      end
  end.

(** The transaction built after the loop, which pays the inscription to
    [destination]. *)
Definition reveal (destination : address) (st : state) : result state :=
  match p2shInput st with
  | None => Throw "TypeError"
  | Some i =>
      match fund (purse st) (to destination 100000 (addInput i newTransaction)) with
      | Throw e => Throw e
      | Ok funded =>
          let key := privkey (purse st) in
          let tx := setScript0 (unlockFor key funded (lastPartial st) (lastLock st)) funded in
          Ok {| chunks := chunks st; txs := txs st ++ [tx]; p2shInput := p2shInput st;
                lastLock := lastLock st; lastPartial := lastPartial st;
                purse := updateWallet (purse st) tx |}
      end
  end.

Definition initial (w : wallet) (contentType : string) (data : list byte) : state :=
  {| chunks := envelope contentType (partsOf data); txs := []; p2shInput := None;
     lastLock := []; lastPartial := []; purse := w |}.

(** [inscribe(wallet, address, contentType, data)]: the transactions, and
    the wallet as the call leaves it.  A round moves at least one chunk
    whenever it can fit a pair, so as many rounds as there are chunks are
    allowed for. *)
Definition inscribe (w : wallet) (destination : address) (contentType : string)
           (data : list byte) : option (result (list transaction * wallet)) :=
  let st0 := initial w contentType data in
  match rounds (length (chunks st0)) st0 with
  | None => None
  | Some (Throw e) => Some (Throw e)
  | Some (Ok st) =>
      match reveal destination st with
      | Throw e => Some (Throw e)
      | Ok st' => Some (Ok (txs st', purse st'))
      end
  end.

End WithBitcore.

End Inscribe.
(* ===================================================================== *)
(** ** The builder script: broadcasting and the pending journal *)
(* ===================================================================== *)

Module Broadcast.
Import Tx.

(** The error a failed [axios.post] throws, as far as it is read:
    [e.response.data.error.message] and [e.message]. *)
Record rpcError := RpcError {
  responseMessage : option string;
  message : option string
}.

(** [e?.response?.data?.error?.message || e?.message || ''] *)
Definition errorMessage (e : rpcError) : string :=
  match Store.orOpt (responseMessage e) (Store.orOpt (message e) (Some EmptyString)) with
  | Some s => s
  | None => EmptyString
  end.

(** The node's answer to one [sendrawtransaction]. *)
Inductive reply :=
| Accepted
| Rejected (e : rpcError).

(** What the broadcaster works on: the answers the node is going to
    give, in order; the pending journal [pending-txs.json], if the file
    exists, as the list of serialised transactions it holds; and the
    wallet file. *)
Record world := World {
  replies : list reply;
  pending : option (list string);
  walletFile : option wallet
}.

(** The loop of [broadcast]: one request per round; with [retry], a
    chain-limit rejection is followed by another request.  [None] when
    the answers run out before the loop ends. *)
Fixpoint send (retry : bool) (rs : list reply) : option (option rpcError * list reply) :=
  match rs with
  | [] => None
  | Accepted :: rs' => Some (None, rs')
  | Rejected e :: rs' =>
      if retry && JS.includes (errorMessage e) "too-long-mempool-chain"
      then send retry rs'
      else Some (Some e, rs')
  end.

Inductive sent :=
| Sent (w : world)
| Failed (e : rpcError) (w : world)
| Unanswered.

Section WithBitcore.
Context `{Bitcore}.

(** [broadcast(tx, retry)] *)
Definition broadcast (tx : transaction) (retry : bool) (w : world) : sent :=
  match send retry (replies w) with
  | None => Unanswered
  | Some (Some e, rs) => Failed e (World rs (pending w) (walletFile w))
  | Some (None, rs) =>
      Sent (World rs (pending w)
              (match walletFile w with
               | Some wal => Some (updateWallet wal tx)
               | None => None
               end))
  end.

(** The object [broadcastAll] returns; [inscriptionTxid] is [None] where
    it is [undefined]. *)
Record report := Report {
  txids : list string;
  inscriptionTxid : option string
}.

Inductive finished :=
| Returned (r : report) (w : world)
| Exited (code : Z) (w : world)
| Hanging.

(** The errors after which [broadcastAll] moves on. *)
Definition alreadySent (msg : string) : bool :=
  JS.includes msg "bad-txns-inputs-spent" || JS.includes msg "already in block chain".

Definition reportOf (txs : list transaction) : report :=
  {| txids := map txHash txs;
     inscriptionTxid := if 1 <? length txs then txHash <$> txs !! 1
                        else txHash <$> txs !! 0 |}.

(** The [for] loop of [broadcastAll] from index [i] on, [rest] being the
    transactions from [i], and what follows the loop. *)
Fixpoint broadcastFrom (txs : list transaction) (i : nat) (rest : list transaction)
         (retry : bool) (w : world) : finished :=
  match rest with
  | [] => Returned (reportOf txs) (World (replies w) None (walletFile w))
  | tx :: rest' =>
      match broadcast tx retry w with
      | Sent w' => broadcastFrom txs (S i) rest' retry w'
      | Failed e w' =>
          if alreadySent (errorMessage e)
          then broadcastFrom txs (S i) rest' retry w'
          else Exited 1 (World (replies w')
                           (Some (map txToString (drop i txs)))
                           (walletFile w'))
      | Unanswered => Hanging
      end
  end.

(** [broadcastAll(txs, retry)] *)
Definition broadcastAll (txs : list transaction) (retry : bool) (w : world) : finished :=
  broadcastFrom txs 0 txs retry w.

(** The world after the first [n] rounds of the loop, when none of them
    ends the process. *)
Fixpoint afterRounds (n : nat) (rest : list transaction) (retry : bool) (w : world)
  : option world :=
  match n with
  | O => Some w
  | S n' =>
      match rest with
      | [] => None
      | tx :: rest' =>
          match broadcast tx retry w with
          | Sent w' => afterRounds n' rest' retry w'
          | Failed e w' =>
              if alreadySent (errorMessage e) then afterRounds n' rest' retry w' else None
          | Unanswered => None
          end
      end
  end.

End WithBitcore.

End Broadcast.
(* ===================================================================== *)
(** ** The node, as the decoder sees it *)
(* ===================================================================== *)

(** The decoder reads transactions through the node's JSON-RPC.  The
    node is not part of the repository; this module states what the
    decoder relies on.  An input script reaches the decoder as its
    assembly text, in which the node prints a push of at most four bytes
    as a decimal script number and a longer push in hex: this is how the
    three bytes [ord], which the builder pushes first, come to be the
    token [6582895] the decoder looks for. *)
Module Node.
Import Builder.

(** The number a push of at most four bytes stands for: little-endian,
    the highest bit of the last byte being the sign. *)
Fixpoint magnitude (b : list byte) : N :=
  match b with
  | [] => 0
  | x :: r => Buf.byteN x + 256 * magnitude r
  end.

Definition scriptNum (b : list byte) : Z :=
  match last b with
  | None => 0
  | Some top =>
      if (Buf.byteN top <? 128)%N then Z.of_N (magnitude b)
      else (- (Z.of_N (magnitude b) - 128 * 256 ^ (Z.of_nat (length b) - 1)))%Z
  end.

Definition byteOr0 (b : list byte) (i : nat) : N := default 0%N (Buf.byteN <$> b !! i).

(** The node's test for a signature in its strict encoding: a DER pair of
    integers followed by a defined hash type. *)
Definition isSignatureEncoding (sig : list byte) : bool :=
  let size := length sig in
  let lenR := N.to_nat (byteOr0 sig 3) in
  let lenS := N.to_nat (byteOr0 sig (5 + lenR)) in
  let hashType := N.land (byteOr0 sig (size - 1)) 127 in
  (9 <=? size) && (size <=? 73)
  && (byteOr0 sig 0 =? 48)%N
  && (N.to_nat (byteOr0 sig 1) =? size - 3)
  && (5 + lenR <? size)
  && (lenR + lenS + 7 =? size)
  && (byteOr0 sig 2 =? 2)%N
  && negb (lenR =? 0)
  && (byteOr0 sig 4 <? 128)%N
  && negb ((1 <? lenR) && (byteOr0 sig 4 =? 0)%N && (byteOr0 sig 5 <? 128)%N)
  && (byteOr0 sig (lenR + 4) =? 2)%N
  && negb (lenS =? 0)
  && (byteOr0 sig (lenR + 6) <? 128)%N
  && negb ((1 <? lenS) && (byteOr0 sig (lenR + 6) =? 0)%N
           && (byteOr0 sig (lenR + 7) <? 128)%N)
  && (1 <=? hashType)%N && (hashType <=? 3)%N.

Definition hashTypeName (t : N) : string :=
  let base := N.land t 127 in
  ((if (base =? 1)%N then "ALL" else if (base =? 2)%N then "NONE" else "SINGLE")
   +:+ (if (128 <=? t)%N then "|ANYONECANPAY" else EmptyString))%string.

Definition opName (op : N) : string :=
  if (op =? 79)%N then "-1"
  else if (op =? 117)%N then "OP_DROP"
  else if (op =? 135)%N then "OP_EQUAL"
  else if (op =? 169)%N then "OP_HASH160"
  else if (op =? 173)%N then "OP_CHECKSIGVERIFY"
  else "OP_UNKNOWN".

(** The token the node prints for one element of an input script. *)
Definition chunkAsm (c : chunk) : string :=
  match buf c with
  | Some b =>
      if length b <=? 4 then JS.decimalZ (scriptNum b)
      else if isSignatureEncoding b
           then (Buf.toHex (take (length b - 1) b)
                 +:+ "[" +:+ hashTypeName (byteOr0 b (length b - 1)) +:+ "]")%string
           else Buf.toHex b
  | None =>
      if (opcodenum c =? 0)%N then "0"
      else if ((81 <=? opcodenum c) && (opcodenum c <=? 96))%N
           then JS.decimal (opcodenum c - 80)
           else opName (opcodenum c)
  end.

Fixpoint joinWords (ws : list string) : string :=
  match ws with
  | [] => EmptyString
  | [w] => w
  | w :: ws' => (w +:+ " " +:+ joinWords ws')%string
  end.

(** [scriptSig.asm] *)
Definition scriptAsm (script : list chunk) : string := joinWords (map chunkAsm script).

(** One input, and a transaction, of the verbose [getrawtransaction]. *)
Record vin := Vin {
  vinTxid : string;
  vinVout : N;
  asm : string
}.

Record rawTx := RawTx {
  rawTxid : string;
  rawVin : list vin
}.

(** The blocks of the chain from height 0, and the mempool. *)
Record node := NodeState {
  blocks : list (list rawTx);
  mempool : list rawTx
}.

Definition hasTxid (id : string) (t : rawTx) : bool := String.eqb (rawTxid t) id.

Fixpoint confirmedFrom (height : nat) (bs : list (list rawTx)) (id : string)
  : option (rawTx * nat) :=
  match bs with
  | [] => None
  | blk :: bs' =>
      match find (hasTxid id) blk with
      | Some t => Some (t, height)
      | None => confirmedFrom (S height) bs' id
      end
  end.

(** [rpc("getrawtransaction", [txid, 1])]: the transaction and, when it
    is confirmed, the height [getblock] gives for its [blockhash]. *)
Definition getrawtransaction (n : node) (id : string) : result (rawTx * option nat) :=
  match confirmedFrom 0 (blocks n) id with
  | Some (t, h) => Ok (t, Some h)
  | None =>
      match find (hasTxid id) (mempool n) with
      | Some t => Ok (t, None)
      | None => Throw "No such mempool or blockchain transaction"
      end
  end.

End Node.
(* ===================================================================== *)
(** ** The decoder script: the chain walker *)
(* ===================================================================== *)

Module Walker.
Import Envelope.

(** [String(asm).trim().split(/\s+/)].  The runs of characters between
    white space; the single empty token for a blank text.  The node's
    assembly is ASCII, and so is the white space looked for. *)
Definition consWord (w : string) (ws : list string) : list string :=
  match w with
  | EmptyString => ws
  | _ => w :: ws
  end.

Fixpoint scan (s : string) : string * list string :=
  match s with
  | EmptyString => (EmptyString, [])
  | String c r =>
      let '(w, ws) := scan r in
      if JS.isAsciiSpace c then (EmptyString, consWord w ws) else (String c w, ws)
  end.

Definition splitWords (s : string) : list string :=
  let '(w, ws) := scan s in
  match consWord w ws with
  | [] => [EmptyString]
  | l => l
  end.

(** The result of [findNextOrdinalTx]. *)
Record nextHop := NextHop {
  nextTxid : string;
  voutIndex : N;
  height : nat
}.

Definition spendsOutput (id : string) (vout : N) (v : Node.vin) : bool :=
  String.eqb (Node.vinTxid v) id && (Node.vinVout v =? vout)%N.

(** The first transaction of a block with an input on output [vout] of
    [id]. *)
Fixpoint spenderIn (id : string) (vout : N) (blk : list Node.rawTx) : option Node.rawTx :=
  match blk with
  | [] => None
  | t :: blk' =>
      if existsb (spendsOutput id vout) (Node.rawVin t) then Some t
      else spenderIn id vout blk'
  end.

(** The loop over heights: [left] heights are still to be looked at,
    starting with [h]; a height beyond the tip ends the search. *)
Fixpoint scanHeights (n : Node.node) (id : string) (vout : N) (left h : nat)
  : option nextHop :=
  match left with
  | O => None
  | S left' =>
      match Node.blocks n !! h with
      | None => None
      | Some blk =>
          match spenderIn id vout blk with
          | Some t => Some (NextHop (Node.rawTxid t) vout h)
          | None => scanHeights n id vout left' (S h)
          end
      end
  end.

(** [findNextOrdinalTx(txid, voutIndex, depthBlocks)] *)
Definition findNextOrdinalTx (n : Node.node) (id : string) (vout : N) (depthBlocks : nat)
  : option nextHop :=
  match Node.getrawtransaction n id with
  | Throw _ => None
  | Ok (_, None) => None
  | Ok (_, Some startHeight) => scanHeights n id vout (S depthBlocks) startHeight
  end.

(** The tracker and the clock: [clock k] is the time of the [k]-th call
    to the tracker. *)
Record tracker := Tracker {
  progressMap : gmap string Progress.entry;
  calls : nat
}.

(** The variables of [decodeDoginalsChain]. *)
Record walk := Walk {
  dataHex : string;
  mimeType : option string;
  isGenesis : bool;
  txid : string;
  processedTxids : gset string;
  voutIndex' : N;
  endOfData : bool;
  track : tracker
}.

(** The default of the option [maxHops], and the depth of the search
    that [reconstructAndReturnBuffer] asks for. *)
Definition defaultMaxHops : nat := 20000.
Definition decodeDepth : nat := 5000.

Section WithClock.
Variable clock : nat -> string.

Definition tracked (f : string -> gmap string Progress.entry -> gmap string Progress.entry)
           (t : tracker) : tracker :=
  Tracker (f (clock (calls t)) (progressMap t)) (S (calls t)).

(** The body of [for (const vin of rawTx.vin || [])]. *)
Definition processVin (progressKey : string) (w : walk) (v : Node.vin) : result walk :=
  if negb (JS.truthy (Node.asm v)) then Ok w
  else
    let asmData := splitWords (Node.asm v) in
    if isGenesis w then
      match asmData with
      | first :: _ =>
          if String.eqb first "6582895" then
            match processGenesisAsm asmData with
            | Throw e => Throw e
            | Ok r =>
                Ok (Walk (dataHex w +:+ Envelope.dataHex r)%string
                      (Envelope.mimeType r) false (txid w) (processedTxids w)
                      (voutIndex' w) (Envelope.endOfData r)
                      (tracked (fun now =>
                                  Progress.updateProgress progressKey "genesis"
                                    (Envelope.chunksFound r) (Envelope.lastNumChunks r) now)
                               (track w)))
            end
          else Ok w
      | [] => Ok w
      end
    else
      let r := processSubsequentAsm asmData in
      Ok (Walk (dataHex w +:+ Envelope.dataHex r)%string
            (mimeType w) false (txid w) (processedTxids w) (voutIndex' w)
            (endOfData w || Envelope.endOfData r)
            (if (Envelope.chunksFound r =? 0)%Z then track w
             else tracked (fun now =>
                             Progress.updateProgress progressKey "chain"
                               (Envelope.chunksFound r) (Envelope.lastNumChunks r) now)
                          (track w))).

(** A run that stops with the variables [w]; [Some msg] when it stops by
    throwing [msg]. *)
Definition stopped : Type := walk * option string.

Fixpoint processVins (progressKey : string) (w : walk) (vs : list Node.vin) : stopped :=
  match vs with
  | [] => (w, None)
  | v :: vs' =>
      match processVin progressKey w v with
      | Throw e => (w, Some e)
      | Ok w' => processVins progressKey w' vs'
      end
  end.

Definition moveTo (next : nextHop) (w : walk) : walk :=
  Walk (dataHex w) (mimeType w) (isGenesis w) (nextTxid next) (processedTxids w)
    (voutIndex next) (endOfData w) (track w).

(** The loop [while (!endOfData && hop < maxHops)], with [hopsLeft] for
    [maxHops - hop]. *)
Fixpoint hops (n : Node.node) (depthBlocks : nat) (progressKey : string)
         (hopsLeft : nat) (w : walk) : stopped :=
  match hopsLeft with
  | O => (w, None)
  | S hopsLeft' =>
      if endOfData w then (w, None)
      else if decide (txid w ∈ processedTxids w) then
        match findNextOrdinalTx n (txid w) (voutIndex' w) depthBlocks with
        | Some next => hops n depthBlocks progressKey hopsLeft' (moveTo next w)
        | None => (w, None)
        end
      else
        let w1 := Walk (dataHex w) (mimeType w) (isGenesis w) (txid w)
                    ({[txid w]} ∪ processedTxids w) (voutIndex' w) (endOfData w)
                    (track w) in
        match Node.getrawtransaction n (txid w1) with
        | Throw e => (w1, Some e)
        | Ok (rawTx, _) =>
            match processVins progressKey w1 (Node.rawVin rawTx) with
            | (w2, Some e) => (w2, Some e)
            | (w2, None) =>
                if endOfData w2 then (w2, None)
                else
                  match findNextOrdinalTx n (txid w2) (voutIndex' w2) depthBlocks with
                  | Some next => hops n depthBlocks progressKey hopsLeft' (moveTo next w2)
                  | None => (w2, None)
                  end
            end
        end
  end.

(** What [decodeDoginalsChain] returns. *)
Record decoded := Decoded {
  decodedHex : string;
  decodedMime : string;
  chunksFound : Z;
  estimatedTotal : option Z
}.

Definition startTracking (progressKey : string) (t : tracker) : tracker :=
  match Progress.getProgress progressKey (progressMap t) with
  | Some _ => t
  | None =>
      tracked (fun now m =>
                 Progress.initProgress progressKey now
                   (Progress.resetProgressForId progressKey m)) t
  end.

(** [decodeDoginalsChain(genesisTxid, depthBlocks, { progressKey,
    maxHops })], with the tracker as the call leaves it. *)
Definition decodeDoginalsChain (n : Node.node) (genesisTxid : string) (depthBlocks : nat)
           (progressKey : string) (maxHops : nat) (t : tracker)
  : result decoded * tracker :=
  let w0 := Walk EmptyString None true genesisTxid ∅ 0 false (startTracking progressKey t) in
  match hops n depthBlocks progressKey maxHops w0 with
  | (w, Some e) => (Throw e, track w)
  | (w, None) =>
      let done := tracked (Progress.completeProgress progressKey) (track w) in
      match dataHex w with
      | EmptyString => (Throw "No Doginals data found in transaction chain.", done)
      | _ =>
          let mime := match mimeType w with
                      | Some m => JS.orElse m "application/octet-stream"
                      | None => "application/octet-stream"
                      end in
          let stats := Progress.getProgress progressKey (progressMap (track w)) in
          (Ok (Decoded (dataHex w) mime
                 (default 0%Z (Progress.chunksFound <$> stats))
                 (stats ≫= Progress.estimatedTotal)),
           done)
      end
  end.

(** The first steps of [reconstructAndReturnBuffer]: the decode with a
    depth of 5000 blocks and the default 20000 hops, the padding of a hex
    text of odd length, and [Buffer.from(dataHex, "hex")]. *)
Definition padOddHex (skipOddHexPad : bool) (hex : string) : string :=
  if negb skipOddHexPad && negb (Nat.even (String.length hex))
  then (hex +:+ "00000")%string else hex.

Definition reconstructedBuffer (n : Node.node) (baseTxid progressKey : string)
           (skipOddHexPad : bool) (t : tracker) : result (list byte * string) :=
  match fst (decodeDoginalsChain n baseTxid decodeDepth progressKey defaultMaxHops t) with
  | Throw e => Throw e
  | Ok d => Ok (Buf.fromHex (padOddHex skipOddHexPad (decodedHex d)), decodedMime d)
  end.

End WithClock.

End Walker.
(* ===================================================================== *)
(** ** From the builder to the node *)
(* ===================================================================== *)

(** What the node reports for a transaction the builder has made, and
    what it is for the transactions of a chain to be confirmed. *)
Module Mined.
Import Tx.

Section WithBitcore.
Context `{Bitcore}.

Definition vinOf (i : input) : Node.vin :=
  Node.Vin (prevTxId i) (outputIndex i) (Node.scriptAsm (script i)).

Definition rawOf (tx : transaction) : Node.rawTx :=
  Node.RawTx (txHash tx) (map vinOf (inputs tx)).

(** The node answers a request for the txid of [tx] with [tx], as a
    transaction of the block at height [h].  The block may hold any
    other transactions, and so may the blocks around it and the
    mempool. *)
Definition minedAt (n : Node.node) (tx : transaction) (h : nat) : Prop :=
  Node.getrawtransaction n (txHash tx) = Ok (rawOf tx, Some h).

(** [r] has an input on output 0 of the transaction [id]. *)
Definition spendsFirstOutput (id : string) (r : Node.rawTx) : bool :=
  existsb (Walker.spendsOutput id 0) (Node.rawVin r).

(** Every transaction of a block that has an input on output 0 of
    [tx] is [next]: an output is spent once. *)
Definition onlySpentBy (n : Node.node) (tx next : transaction) : Prop :=
  Forall (Forall (fun r => spendsFirstOutput (txHash tx) r = true ->
                           Node.rawTxid r = txHash next)) (Node.blocks n).


(** The transactions of a chain are confirmed: each is in a block, the
    next one in the same block or in one of the [depth] blocks above,
    and no other transaction of a block spends the output 0 that the
    next one spends. *)
Inductive minedChain (n : Node.node) (depth : nat) : list transaction -> Prop :=
| minedNone : minedChain n depth []
| minedLast tx h : minedAt n tx h -> minedChain n depth [tx]
| minedNext tx h next h' ts :
    minedAt n tx h -> minedAt n next h' -> h <= h' <= h + depth ->
    onlySpentBy n tx next ->
    minedChain n depth (next :: ts) ->
    minedChain n depth (tx :: next :: ts).

(** A node with a chain among other things, for examples: each
    transaction of the chain is in a block after a transaction
    [coinbase], there are [gap] blocks with nothing but such a
    transaction behind each, the blocks [above] on top, and [mem] in
    the mempool. *)
Definition busyBlock (coinbase : Node.rawTx) (tx : transaction) : list Node.rawTx :=
  [coinbase; rawOf tx].

Definition busy (coinbase : Node.rawTx) (gap : nat) (above : list (list Node.rawTx))
           (mem : list Node.rawTx) (txs : list transaction) : Node.node :=
  Node.NodeState
    (flat_map (fun tx => busyBlock coinbase tx :: repeat [coinbase] gap) txs ++ above)
    mem.

End WithBitcore.

(** A stand-in for bitcore, for running the builder on examples: a fixed
    public key, signatures of the usual form and length, a flat fee, and
    digests that are sums over the scripts and outpoints of a
    transaction. *)
Module Demo.

Definition digest (bs : list byte) : N :=
  foldl (fun acc b => ((acc * 31 + Buf.byteN b) mod 4294967296)%N) 7%N bs.

Definition inputBytes (i : input) : list byte :=
  Buf.ofString (prevTxId i) ++ [Buf.toUint8 (outputIndex i)] ++ toBuffer (script i).

Definition txBytes (tx : transaction) : list byte :=
  concat (map inputBytes (inputs tx))
  ++ concat (map (fun o => littleEndian 8 (Z.to_N (satoshis o))) (outputs tx)).

Definition derSignature : list byte :=
  [x30; x44; x02; x20] ++ repeat x2b 32 ++ [x02; x20] ++ repeat x5d 32.

#[export] Instance lib : Bitcore := {|
  publicKeyBuffer := fun _ => x02 :: repeat x11 32;
  hash160 := fun b => littleEndian 20 (digest b);
  txHash := fun tx => Buf.toHex (littleEndian 4 (digest (txBytes tx)));
  txToString := fun tx => Buf.toHex (txBytes tx);
  estimateFee := fun _ => 1000%Z;
  sighashSign := fun _ _ _ => derSignature;
  inputSignature := fun _ _ _ => derSignature ++ [x01]
|}.

Definition wallet : Tx.wallet :=
  {| privkey := "demo-key"; walletAddress := "DDemoWalletAddress";
     utxos := [Utxo "aa00000000000000" 0 (AddressOut "DDemoWalletAddress") 1000000000] |}.

Definition destination : address := "DDestinationAddress".

(** A run of [inscribe] from this wallet; nothing when it throws. *)
Definition run (contentType : string) (data : list byte) : list transaction * Tx.wallet :=
  match Inscribe.inscribe wallet destination contentType data with
  | Some (Ok r) => r
  | _ => ([], wallet)
  end.

(** The text [hello], and what [inscribe] makes of it. *)
Definition hello : list byte := [x68; x65; x6c; x6c; x6f].
Definition helloChain : list transaction := Eval vm_compute in fst (run "text/plain" hello).
Definition helloWallet : Tx.wallet := Eval vm_compute in snd (run "text/plain" hello).

(** A payload of seven parts, which takes two partials, and what
    [inscribe] makes of it. *)
Definition longPayload : list byte := repeat x41 1680.
Definition longChain : list transaction :=
  Eval vm_compute in fst (run "text/plain" longPayload).
Definition longWallet : Tx.wallet :=
  Eval vm_compute in snd (run "text/plain" longPayload).

(** A node that has the chain [txs] among other things: each of its
    transactions is in a block under a transaction without inputs to
    speak of, two blocks lie between one and the next, one more on top,
    and a payment waits in the mempool. *)
Definition coinbase : Node.rawTx := Node.RawTx "c0ffee00" [Node.Vin "" 0 ""].
Definition waiting : Node.rawTx :=
  Node.RawTx "feed0001" [Node.Vin "aa00000000000000" 1 "3044 02"].
Definition busyNode (txs : list transaction) : Node.node :=
  busy coinbase 2 [[coinbase]] [waiting] txs.

(** A node that accepts [n] transactions, with no journal and no wallet
    file on disk. *)
Definition accepting (n : nat) : Broadcast.world :=
  Broadcast.World (repeat Broadcast.Accepted n) None None.

(** A node that accepts one transaction and rejects the next, with no
    journal and no wallet file on disk. *)
Definition scriptError : Broadcast.rpcError :=
  Broadcast.RpcError (Some "mandatory-script-verify-flag-failed") (Some "Request failed").
Definition secondRejected : Broadcast.world :=
  Broadcast.World [Broadcast.Accepted; Broadcast.Rejected scriptError] None None.

(** A clock that counts the calls, and a tracker that has seen none. *)
Definition clock (k : nat) : string := JS.decimal (N.of_nat k).
Definition idle : Walker.tracker := Walker.Tracker ∅ 0.

End Demo.

End Mined.
(* ===================================================================== *)
(** ** The server: the main loop of the bulk mint stream *)
(* ===================================================================== *)

Module Controller.

Definition MAX_PER_WAVE : nat := 12.

(** A count, as the JavaScript number it is.  The number [total] of the
    loop is [Number(count || 0)] for the [count] of the request, which
    the route has found finite and greater than 0 before it enters the
    loop, and which need not be whole; so the number of mints a wave is
    asked for, [Math.min(MAX_PER_WAVE, total - completed)], need not be
    whole either.  Numbers are compared and subtracted exactly, as
    JavaScript compares and subtracts a whole [completed] and a [total]
    below 2^53. *)
Definition num (n : nat) : Q := inject_Z (Z.of_nat n).

(** What [runMintWave] resolves to, as far as the loop reads it:
    [exitCode] is [None] for the [null] of a child that a signal ended,
    [chainLimit] tells whether its output mentions
    [too-long-mempool-chain], and [mintedTxids] are the txids of its
    [inscription txid:] lines. *)
Record waveResult := WaveResult {
  exitCode : option Z;
  chainLimit : bool;
  mintedTxids : list string
}.

(** [wave.exitCode === 0] *)
Definition exitedZero (r : waveResult) : bool :=
  match exitCode r with
  | Some 0%Z => true
  | _ => false
  end.

(** How the [unlink] of [deletePendingFile] ends: the journal is
    removed, there is none ([ENOENT]), or it cannot be removed; all three
    are logged and the loop goes on. *)
Inductive unlinked :=
| Removed
| Missing
| NotRemoved.

(** What the loop awaits, in the order it awaits it: the results of the
    child processes, whether each [syncWalletWithRetry] gets a wallet,
    the answers of [isTxConfirmedOrGone], and the outcomes of the
    unlinks.  An await for which nothing is left never resolves.
    [closesAt] is the number of the await during which the client closes
    the request, if it does. *)
Record env := Env {
  waves : list waveResult;
  syncs : list bool;
  polls : list bool;
  unlinks : list unlinked;
  closesAt : option nat
}.

(** What the loop does, as it can be observed. *)
Inductive event :=
| MainWave (count : Q) (r : waveResult)
| TestWave (count : Q) (r : waveResult)
| DeletePending (u : unlinked)
| Sync (ok : bool)
| WaitClear (txid : string)
| Sleep30
| MintError (message : string)
| Done.

(** The variables of the loop, what is left of the environment, the
    number of awaits so far and the events so far. *)
Record state := State {
  completed : nat;
  allTxids : list string;
  lastSuccessfulTxid : option string;
  world : env;
  awaits : nat;
  trace : list event
}.

(** How a piece of the loop body is left other than by its end. *)
Inductive ending :=
| Continue
| Break
| Return
| Hang.

Inductive outcome (A : Type) :=
| Go (a : A) (s : state)
| Stop (e : ending) (s : state).
Arguments Go {A} a s.
Arguments Stop {A} e s.

Definition M (A : Type) : Type := state -> outcome A.

Definition ret {A} (a : A) : M A := fun s => Go a s.

Definition bind {A B} (m : M A) (k : A -> M B) : M B :=
  fun s => match m s with
           | Go a s' => k a s'
           | Stop e s' => Stop e s'
           end.

Declare Scope controller_scope.
Notation "'let*' x ':=' m 'in' k" := (bind m (fun x => k))
  (at level 10, x name, m at level 100, k at level 200) : controller_scope.
Notation "m ;; k" := (bind m (fun _ => k))
  (at level 100, k at level 200, right associativity) : controller_scope.
#[local] Open Scope controller_scope.

Definition get : M state := fun s => Go s s.
Definition leave {A} (e : ending) : M A := fun s => Stop e s.

Definition emit (e : event) : M unit :=
  fun s => Go tt (State (completed s) (allTxids s) (lastSuccessfulTxid s) (world s)
                    (awaits s) (trace s ++ [e])).

Definition awaited (w : env) : M unit :=
  fun s => Go tt (State (completed s) (allTxids s) (lastSuccessfulTxid s) w
                    (S (awaits s)) (trace s)).

(** The flag [cancelled], which the [close] handler of the request sets. *)
Definition cancelled (s : state) : bool :=
  match closesAt (world s) with
  | Some k => k <=? awaits s
  | None => false
  end.

(** [await runMintWave(count)], for the main wave or the test wave. *)
Definition runMintWave (test : bool) (count : Q) : M waveResult :=
  let* s := get in
  let w := world s in
  match waves w with
  | [] => leave Hang
  | r :: rest =>
      awaited (Env rest (syncs w) (polls w) (unlinks w) (closesAt w)) ;;
      emit (if test then TestWave count r else MainWave count r) ;;
      ret r
  end.

(** [await deletePendingFile()] *)
Definition deletePendingFile : M unit :=
  let* s := get in
  let w := world s in
  match unlinks w with
  | [] => leave Hang
  | u :: rest =>
      awaited (Env (waves w) (syncs w) (polls w) rest (closesAt w)) ;;
      emit (DeletePending u)
  end.

(** [wallet = await syncWalletWithRetry()], as a whole: [false] is the
    [null] it returns after five failed attempts or when the request has
    been closed. *)
Definition syncWalletWithRetry : M bool :=
  let* s := get in
  let w := world s in
  if cancelled s then emit (Sync false) ;; ret false
  else match syncs w with
       | [] => leave Hang
       | ok :: rest =>
           awaited (Env (waves w) rest (polls w) (unlinks w) (closesAt w)) ;;
           emit (Sync ok) ;;
           ret ok
       end.

(** [await sleep(30000)] *)
Definition sleep30 : M unit :=
  let* s := get in awaited (world s) ;; emit Sleep30.

(** The loop of [waitForTxChainClear]: the answers of
    [isTxConfirmedOrGone] up to the first [true], with a sleep after each
    [false]; the number of awaits comes with what is left. *)
Fixpoint pollUntilClear (ps : list bool) (n : nat) : option (list bool * nat) :=
  match ps with
  | [] => None
  | true :: rest => Some (rest, S n)
  | false :: rest => pollUntilClear rest (S (S n))
  end.

(** [await waitForTxChainClear(txid, walletLabel, sendLog)] *)
Definition waitForTxChainClear (txid : string) : M unit :=
  emit (WaitClear txid) ;;
  let* s := get in
  let w := world s in
  match pollUntilClear (polls w) (awaits s) with
  | None => leave Hang
  | Some (rest, n) =>
      fun s' => Go tt (State (completed s') (allTxids s') (lastSuccessfulTxid s')
                         (Env (waves w) (syncs w) rest (unlinks w) (closesAt w))
                         n (trace s'))
  end.

(** [a || b] on txids, [None] for [undefined] and [null]. *)
Definition orTxid (a b : option string) : option string :=
  match a with
  | Some t => if JS.truthy t then Some t else b
  | None => b
  end.

(** [allTxids.push(txid)] for the txids not yet in it. *)
Definition pushNew (all minted : list string) : list string :=
  foldl (fun acc t => if existsb (String.eqb t) acc then acc else acc ++ [t]) all minted.

(** [if (wave.mintedTxids.length) { ... }]: what counts for the wave. *)
Definition count (r : waveResult) : M unit :=
  fun s =>
    match mintedTxids r with
    | [] => Go tt s
    | _ =>
        Go tt (State (completed s + length (mintedTxids r))
                 (pushNew (allTxids s) (mintedTxids r))
                 (orTxid (last (mintedTxids r)) (lastSuccessfulTxid s))
                 (world s) (awaits s) (trace s))
    end.

(** [sseEvent(res, 'mintError', ...); finalizeOnce('error', ...);
    return res.end()] *)
Definition abort {A} (message : string) : M A :=
  emit (MintError message) ;; leave Return.

(** The sync after which a failure ends the job. *)
Definition resync (message : string) : M unit :=
  let* ok := syncWalletWithRetry in
  if ok then ret tt else abort message.

(** [if (watchTxid) await waitForTxChainClear(watchTxid, ...); else
    await sleep(30000)] *)
Definition pauseOn (watchTxid : option string) : M unit :=
  match watchTxid with
  | Some t => if JS.truthy t then waitForTxChainClear t else sleep30
  | None => sleep30
  end.

(** The branch of a wave that exits with code 0 and no chain limit. *)
Definition confirmWave (r : waveResult) (afterWait afterSleep : string) : M unit :=
  let* s := get in
  match orTxid (last (mintedTxids r)) (lastSuccessfulTxid s) with
  | Some t =>
      if JS.truthy t then waitForTxChainClear t ;; resync afterWait
      else sleep30 ;; resync afterSleep
  | None => sleep30 ;; resync afterSleep
  end.

(** The txid watched when the test wave hits the chain limit as well. *)
Definition lastKnown (s : state) : option string :=
  match orTxid (lastSuccessfulTxid s) None with
  | Some t => Some t
  | None => last (allTxids s)
  end.

(** The path taken after a main wave that has hit the chain limit: the
    journal, the sync, the test wave and what follows it. *)
Definition chainLimitPath (total : Q) : M unit :=
  deletePendingFile ;;
  let* s := get in
  if Qle_bool total (num (completed s)) then leave Break
  else
    resync "wallet sync failed repeatedly after chain-limit. Aborting mint." ;;
    let* s := get in
    let* testWave :=
      runMintWave true (Qmin (num MAX_PER_WAVE) (total - num (completed s))) in
    let* s := get in
    if cancelled s then leave Break
    else
      count testWave ;;
      if exitedZero testWave && negb (chainLimit testWave) then
        confirmWave testWave
          "wallet sync failed repeatedly after test-wave confirmation wait. Aborting mint."
          "wallet sync failed repeatedly after test-wave sleep. Aborting mint." ;;
        leave Continue
      else if negb (exitedZero testWave) && negb (chainLimit testWave) then
        abort "test wave after chain-limit failed with non mempool error"
      else
        let* s := get in
        pauseOn (lastKnown s) ;;
        resync "wallet sync failed repeatedly after waiting for confirmation. Aborting mint.".

(** The body of [while (!cancelled && completed < total)]. *)
Definition iteration (total : Q) : M unit :=
  let* s := get in
  let remaining := (total - num (completed s))%Q in
  if Qle_bool remaining 0 then leave Break
  else
    let* wave := runMintWave false (Qmin (num MAX_PER_WAVE) remaining) in
    let* s := get in
    if cancelled s then leave Break
    else
      count wave ;;
      if exitedZero wave && negb (chainLimit wave) then
        confirmWave wave
          "wallet sync failed repeatedly after wave confirmation wait. Aborting mint."
          "wallet sync failed repeatedly after wave sleep. Aborting mint." ;;
        leave Continue
      else if negb (exitedZero wave) && negb (chainLimit wave) then
        abort "mint wave failed"
      else chainLimitPath total.

(** How a run stands: still in the loop when the rounds allowed for are
    used up, through with [done], ended by an error, or waiting for
    something that does not come. *)
Inductive status :=
| Running
| Finished
| Aborted
| Waiting.

(** [sseEvent(res, 'done', ...)] after the loop. *)
Definition finish (s : state) : status * state :=
  (Finished, State (completed s) (allTxids s) (lastSuccessfulTxid s) (world s)
               (awaits s) (trace s ++ [Done])).

(** The loop, for at most [rounds] rounds, and what follows it. *)
Fixpoint loop (rounds : nat) (total : Q) (s : state) : status * state :=
  match rounds with
  | O => (Running, s)
  | S rounds' =>
      if negb (cancelled s) && negb (Qle_bool total (num (completed s))) then
        match iteration total s with
        | Go _ s' => loop rounds' total s'
        | Stop Continue s' => loop rounds' total s'
        | Stop Break s' => finish s'
        | Stop Return s' => (Aborted, s')
        | Stop Hang s' => (Waiting, s')
        end
      else finish s
  end.

(** The state in which the loop is entered. *)
Definition start (w : env) : state := State 0 [] None w 0 [].

(** The events of a job of [total] mints in the environment [w]. *)
Definition run (rounds : nat) (total : Q) (w : env) : list event :=
  trace (snd (loop rounds total (start w))).

(** *** The claim as a monitor of the events *)

(** Where a job stands with respect to the chain limit. *)
Inductive phase :=
| Normal
| Limited
| JournalDeleted
| Failing
| Resynced
| Tested (r : waveResult)
| Paused
| Over.

(** The monitor: the phase, and the txids minted so far. *)
Record monitor := Monitor {
  at_ : phase;
  known : list string
}.

Definition hardError (r : waveResult) : bool :=
  negb (exitedZero r) && negb (chainLimit r).

Definition isKnown (t : string) (m : monitor) : bool := existsb (String.eqb t) (known m).

(** [t] is the txid minted last. *)
Definition isLastKnown (t : string) (m : monitor) : bool :=
  match last (known m) with
  | Some t' => String.eqb t t'
  | None => false
  end.

Definition noneKnown (m : monitor) : bool :=
  match known m with
  | [] => true
  | _ => false
  end.

(** One step of the monitor, which follows the words of the claim about
    the chain limit.  After a main wave that indicates the chain
    limit, nothing but the deletion of the journal, a sync and one test
    wave may come, in this order, before another main wave; a test wave
    that fails otherwise ends the job; after another test wave the
    controller waits for a known transaction and syncs.  A job may end
    at any point.  With [strict] the monitor takes the claim by its
    words; without it, a journal that cannot be removed is let pass,
    the transaction waited for has to be the one minted last, and a
    sleep of 30 seconds takes the place of the wait when, and only
    when, no transaction has been minted. *)
Definition advance (strict : bool) (m : monitor) (e : event) : option monitor :=
  let to p := Some (Monitor p (known m)) in
  match at_ m, e with
  | Over, _ => None
  | Normal, MainWave _ r =>
      Some (Monitor (if chainLimit r then Limited else Normal) (known m ++ mintedTxids r))
  | Normal, TestWave _ _ => None
  | Normal, (MintError _ | Done) => to Over
  | Normal, _ => to Normal
  | Limited, DeletePending NotRemoved => if strict then None else to JournalDeleted
  | Limited, DeletePending _ => to JournalDeleted
  | Limited, Done => to Over
  | Limited, _ => None
  | JournalDeleted, Sync true => to Resynced
  | JournalDeleted, Sync false => to Failing
  | JournalDeleted, Done => to Over
  | JournalDeleted, _ => None
  | Failing, MintError _ => to Over
  | Failing, _ => None
  | Resynced, TestWave _ r => Some (Monitor (Tested r) (known m ++ mintedTxids r))
  | Resynced, _ => None
  | Tested r, (MintError _ | Done) => if hardError r then to Over
                                      else match e with Done => to Over | _ => None end
  | Tested r, WaitClear t => if hardError r then None
                             else if (if strict then isKnown t m else isLastKnown t m)
                                  then to Paused
                             else None
  | Tested r, Sleep30 => if hardError r then None
                         else if strict then
                                if negb (chainLimit r) then to Paused else None
                         else if noneKnown m then to Paused
                         else None
  | Tested _, _ => None
  | Paused, Sync true => to Normal
  | Paused, Sync false => to Failing
  | Paused, _ => None
  end.

(** The monitor after the events [es], if it has let all of them pass. *)
Definition from (strict : bool) (om : option monitor) (es : list event) : option monitor :=
  foldl (fun om e => om ≫= fun m => advance strict m e) om es.

Definition verdict (strict : bool) (es : list event) : option monitor :=
  from strict (Some (Monitor Normal [])) es.



Definition isWave (e : event) : bool :=
  match e with
  | MainWave _ _ | TestWave _ _ => true
  | _ => false
  end.

Definition mintedOf (e : event) : list string :=
  match e with
  | MainWave _ r | TestWave _ r => mintedTxids r
  | _ => []
  end.

Definition mintedIn (es : list event) : list string := flat_map mintedOf es.

(** The txids of the [inscription txid:] lines are 64 hex digits: none
    of them is the empty text. *)
Definition txidsPresent (w : env) : Prop :=
  Forall (fun r => Forall (fun t => JS.truthy t = true) (mintedTxids r)) (waves w).


(** Two jobs: one of two mints that meets the chain limit at once, in
    the wave and in the test wave, and one of three mints that meets it
    with a mint behind it. *)
Module Demo.

Definition txidA : string :=
  "aaaaaaaaaaaaaaaaaaaaaaaaaaaaaaaaaaaaaaaaaaaaaaaaaaaaaaaaaaaaaaaa".
Definition txidB : string :=
  "bbbbbbbbbbbbbbbbbbbbbbbbbbbbbbbbbbbbbbbbbbbbbbbbbbbbbbbbbbbbbbbb".
Definition txidC : string :=
  "cccccccccccccccccccccccccccccccccccccccccccccccccccccccccccccccc".

Definition limited (minted : list string) : waveResult := WaveResult (Some 1%Z) true minted.
Definition minted (t : string) : waveResult := WaveResult (Some 0%Z) false [t].


Definition warm : env :=
  Env [minted txidA; limited [txidB]; limited []; minted txidC]
      [true; true; true; true] [false; true; true; true] [NotRemoved] None.

End Demo.

End Controller.
(* ===================================================================== *)
(** ** The builder script: [extract] *)
(* ===================================================================== *)

Module Extractor.
Import Builder.

Definition TYPE_ERROR : string := "TypeError".

(** What [extract] reads of the answer to [getrawtransaction]: the
    chunks [Script.fromHex] parses from [vin[0].scriptSig.hex], of which
    the function reads [opcodenum] and [buf] only, or the error that
    reading them throws; and the hash in [vout[0].spent], [None] when
    there is no such object, so that reading its [hash] is a
    [TypeError]. *)
Record verbose := Verbose {
  scriptSig0 : result (list chunk);
  spent0 : option string
}.

(** The node: its answer to the request for a txid, or the error the
    request fails with. *)
Definition node := string -> result verbose.

(** [n !== remaining - 1], negated, for what [chunkToNumber] has
    returned. *)
Definition accepts (remaining : N) (r : numberResult) : bool :=
  match r with
  | Num n => (Z.of_N n =? Z.of_N remaining - 1)%Z
  | _ => false
  end.

(** The loop [while (remaining && chunks.length)].  The request [body]
    is built once, from the txid [extract] is called with: the branch
    that means to follow the chain assigns [txid] and posts the same
    [body] again, so that it reads the script of [requested] from its
    start.  [fuel] bounds the number of rounds; [None] when they are
    used up. *)
Fixpoint loop (n : node) (requested : string) (fuel : nat) (transaction : verbose)
         (chunks : list chunk) (data : list byte) (remaining : N)
  : option (result (list byte)) :=
  match chunks with
  | [] => Some (Ok data)
  | c :: chunks1 =>
      if (remaining =? 0)%N then Some (Ok data)
      else
        match fuel with
        | O => None
        | S fuel' =>
            match chunkToNumber c with
            | TypeError => Some (Throw TYPE_ERROR)
            | r =>
                if accepts remaining r then
                  match chunks1 with
                  | [] => Some (Throw TYPE_ERROR)
                  | d :: chunks2 =>
                      match buf d with
                      | None => Some (Throw TYPE_ERROR)
                      | Some b => loop n requested fuel' transaction chunks2 (data ++ b)
                                    (remaining - 1)
                      end
                  end
                else
                  match spent0 transaction with
                  | None => Some (Throw TYPE_ERROR)
                  | Some _ =>
                      match n requested with
                      | Throw e => Some (Throw e)
                      | Ok transaction' =>
                          match scriptSig0 transaction' with
                          | Throw e => Some (Throw e)
                          | Ok chunks' =>
                              loop n requested fuel' transaction' chunks' data remaining
                          end
                      end
                  end
            end
        end
  end.

(** [extract(txid)]: the content type and the data. *)
Definition extract (n : node) (fuel : nat) (txid : string)
  : option (result (string * list byte)) :=
  match n txid with
  | Throw e => Some (Throw e)
  | Ok transaction =>
      match scriptSig0 transaction with
      | Throw e => Some (Throw e)
      | Ok [] => Some (Throw TYPE_ERROR)
      | Ok (c0 :: chunks1) =>
          match buf c0 with
          | None => Some (Throw TYPE_ERROR)
          | Some prefix =>
              if negb (String.eqb (Buf.toUtf8 prefix) "ord")
              then Some (Throw "not a doginal")
              else
                match chunks1 with
                | [] => Some (Throw TYPE_ERROR)
                | c1 :: chunks2 =>
                    match chunkToNumber c1 with
                    | TypeError => Some (Throw TYPE_ERROR)
                    | pieces =>
                        match chunks2 with
                        | [] => Some (Throw TYPE_ERROR)
                        | c2 :: chunks3 =>
                            match buf c2 with
                            | None => Some (Throw TYPE_ERROR)
                            | Some contentType =>
                                let remaining :=
                                  match pieces with Num p => p | _ => 0%N end in
                                match loop n txid fuel transaction chunks3 [] remaining with
                                | None => None
                                | Some (Throw e) => Some (Throw e)
                                | Some (Ok data) =>
                                    Some (Ok (Buf.toUtf8 contentType, data))
                                end
                            end
                        end
                    end
                end
          end
      end
  end.

(** What the node answers for a transaction the builder has made, as
    far as [extract] reads it; [spent] is what the node reports in
    [vout[0].spent]. *)
Definition viewOf (spent : option string) (tx : Tx.transaction) : verbose :=
  Verbose (match Tx.inputs tx with
           | i :: _ => Ok (Tx.script i)
           | [] => Throw TYPE_ERROR
           end) spent.

End Extractor.
(* ===================================================================== *)
(** ** The builder script: [mint] *)
(* ===================================================================== *)

Module Mint.
Import Builder Tx Broadcast.

(** [/^[a-fA-F0-9]*$/.test(s)] *)
Fixpoint isHexText (s : string) : bool :=
  match s with
  | EmptyString => true
  | String c s' =>
      match Buf.hexVal c with
      | Some _ => isHexText s'
      | None => false
      end
  end.

(** [s.length], the number of UTF-16 code units of the text whose
    UTF-8 form is [s]: one for a character of one, two or three bytes,
    two for a character of four bytes. *)
Definition codeUnits (c : ascii) : nat :=
  let n := N_of_ascii c in
  if (n <? 128)%N then 1
  else if (n <? 192)%N then 0
  else if (n <? 240)%N then 1
  else 2.

Fixpoint utf16Length (s : string) : nat :=
  match s with
  | EmptyString => 0
  | String c s' => codeUnits c + utf16Length s'
  end.

(** Where the content comes from.  When [argContentTypeOrFilename] is
    the path of a file, the content type is what the [mime] package
    gives for the path and the data are the bytes of the file;
    otherwise the argument is the content type and the data come from
    [argHexData], which is [None] when it is [undefined]. *)
Inductive source :=
| File (contentType : string) (bytes : list byte)
| Hex (contentType : string) (hexData : option string).

(** The content type and the data, or the error thrown for them. *)
Definition content (src : source) : result (string * list byte) :=
  match src with
  | File contentType bytes => Ok (contentType, bytes)
  | Hex contentType hexData =>
      if negb (isHexText (default EmptyString hexData)) then Throw "data must be hex"
      else match hexData with
           | Some h => Ok (contentType, Buf.fromHex h)
           | None => Throw "TypeError"
           end
  end.

(** How a call of [mint] ends: with an error thrown before anything is
    broadcast, with what [broadcastAll] comes to, or not at all. *)
Inductive minted :=
| Threw (msg : string)
| Ran (f : finished)
| Unfinished.

Section WithBitcore.
Context `{Bitcore}.

(** [mint(address, contentTypeOrFilename, hexData)], for an address
    that [new Address] accepts.  [inscribe] writes the wallet file each
    time it has made a transaction; when it returns, the file holds the
    wallet it has left. *)
Definition mint (destination : address) (src : source) (w : world) : minted :=
  match content src with
  | Throw e => Threw e
  | Ok (contentType, data) =>
      if length data =? 0 then Threw "no data to mint"
      else if MAX_SCRIPT_ELEMENT_SIZE <? utf16Length contentType
      then Threw "content type too long"
      else
        match walletFile w with
        | None => Threw "wallet file not found"
        | Some wallet =>
            match Inscribe.inscribe wallet destination contentType data with
            | None => Unfinished
            | Some (Throw e) => Threw e
            | Some (Ok (txs, wallet')) =>
                Ran (broadcastAll txs false (World (replies w) (pending w) (Some wallet')))
            end
        end
  end.

End WithBitcore.

End Mint.
(* ===================================================================== *)
(** ** The decoder script: progress snapshots *)
(* ===================================================================== *)

Module Snapshot.
Import Progress.

(** The object [snapshotFromProgress] returns; the fields it copies
    from the entry are left to the entry. *)
Record snapshot := Snap {
  snapTxid : string;
  entryOf : entry;
  remaining : Z;
  depRemaining : option Z
}.

(** [p.estimatedTotal || p.chunksFound] *)
Definition totalOf (p : entry) : Z :=
  match estimatedTotal p with
  | Some t => if (t =? 0)%Z then chunksFound p else t
  | None => chunksFound p
  end.

(** [snapshotFromProgress(key, p)] *)
Definition snapshotFromProgress (key : string) (p : entry) : snapshot :=
  {| snapTxid := key;
     entryOf := p;
     remaining := (totalOf p - chunksFound p)%Z;
     depRemaining :=
       match depTotal p with
       | Some t => Some (Z.max 0 (t - depDone p))
       | None => None
       end |}.

(** [getProgress(key)], with the snapshot it makes. *)
Definition getProgress (key : string) (m : gmap string entry) : option snapshot :=
  snapshotFromProgress key <$> m !! key.

End Snapshot.
(* ===================================================================== *)
(** ** The balance of a wallet file, as the script and the server see it *)
(* ===================================================================== *)

Module Balance.
Import Tx.

(** [walletBalance()] of the builder script: the sum it prints. *)
Definition walletBalance (w : wallet) : Z :=
  foldl (fun acc curr => (acc + utxoSatoshis curr)%Z) 0%Z (utxos w).

(** The key [`${u.txid}:${u.vout}`] of the server. *)
Definition utxoKey (u : utxo) : string :=
  (utxoTxid u +:+ ":" +:+ JS.decimal (vout u))%string.

(** One round of the loop of [calcWalletBalanceDoge], on the set [seen]
    and the sum [totalSats]. *)
Definition tally (st : gset string * Z) (u : utxo) : gset string * Z :=
  let '(seen, totalSats) := st in
  if negb (JS.truthy (utxoTxid u)) then st
  else if decide (utxoKey u ∈ seen) then st
  else ({[utxoKey u]} ∪ seen, (totalSats + utxoSatoshis u)%Z).

(** [calcWalletBalanceDoge(wallet)], before the division by [1e8] that
    turns the satoshis into the number it returns. *)
Definition totalSats (w : wallet) : Z := snd (foldl tally (∅, 0%Z) (utxos w)).

End Balance.
(* ===================================================================== *)
(** ** The decoder script: the file of an inscription *)
(* ===================================================================== *)

Module Content.
Import Store.

(** [s.toLowerCase()] for ASCII text: the ids are hex digits, [i] and
    decimal digits, and the names the script gives its files are an id,
    a dot and an extension.  What is proved of [findContentFile] is
    proved for such text. *)
Definition lowerChar (c : ascii) : ascii :=
  let n := N_of_ascii c in
  if ((65 <=? n) && (n <=? 90))%N then ascii_of_N (n + 32) else c.

Fixpoint toLowerCase (s : string) : string :=
  match s with
  | EmptyString => EmptyString
  | String c r => String (lowerChar c) (toLowerCase r)
  end.

Fixpoint isAsciiText (s : string) : bool :=
  match s with
  | EmptyString => true
  | String c r => (N_of_ascii c <? 128)%N && isAsciiText r
  end.

(** [s.replace(/i\d+$/, "")]: the text is cut at the first [i] that
    digits, and nothing else, follow to the end. *)
Fixpoint stripIndex (s : string) : string :=
  match s with
  | EmptyString => EmptyString
  | String c r =>
      if Ascii.eqb c "i" && JS.isDigits r then EmptyString
      else String c (stripIndex r)
  end.

(** [[...new Set(l)]]: the elements in the order of their first
    occurrences. *)
Definition distinct (l : list string) : list string :=
  foldl (fun acc x => if decide (x ∈ acc) then acc else acc ++ [x]) [] l.

(** [.filter(Boolean)] on texts and [null]. *)
Definition truthyOnes (l : list (option string)) : list string :=
  omap (fun o => match o with
                 | Some s => if JS.truthy s then Some s else None
                 | None => None
                 end) l.

(** The [candidates] of [findContentFile]. *)
Definition candidates (idOrTxid : string) : list string :=
  let base := toLowerCase idOrTxid in
  let cleaned := stripIndex base in
  distinct (truthyOnes [Some base; Some cleaned;
                        if JS.truthy cleaned then Some (cleaned +:+ "i0")%string else None]).

(** The test of the inner loop, for one entry of the directory. *)
Definition startsWithCandidate (cands : list string) (name : string) : bool :=
  existsb (fun cand => JS.truthy cand
                       && JS.startsWith (cand +:+ ".")%string (toLowerCase name)) cands.

(** [path.join(CONTENT_DIR, name)] for the name of a directory entry. *)
Definition contentPath (name : string) : string :=
  (CONTENT_DIR +:+ "/" +:+ name)%string.

(** [findContentFile(idOrTxid)].  [entries] is what
    [fs.readdirSync(CONTENT_DIR)] returns, in its order, or the error it
    throws, which the function catches. *)
Definition findContentFile (entries : result (list string)) (idOrTxid : string)
  : option string :=
  if negb (JS.truthy idOrTxid) then None
  else
    match entries with
    | Throw _ => None
    | Ok names =>
        contentPath <$> find (startsWithCandidate (candidates idOrTxid)) names
    end.

End Content.
(* ===================================================================== *)
(** * Properties *)
(* ===================================================================== *)

Section ScriptNumbers.
Import Builder.

Lemma toUint8_small n : (n < 256)%N -> Buf.byteN (Buf.toUint8 n) = n.
Proof.
  intros Hn. unfold Buf.toUint8, Buf.byteN.
  rewrite N.mod_small by exact Hn.
  destruct (Byte.of_N n) as [b|] eqn:E.
  - now apply Byte.to_of_N.
  - apply Byte.of_N_None_iff in E. lia.
Qed.

Lemma toUint8_mod n : Buf.byteN (Buf.toUint8 n) = (n mod 256)%N.
Proof.
  unfold Buf.toUint8.
  assert (H : (n mod 256 < 256)%N) by (apply N.mod_lt; lia).
  generalize (toUint8_small _ H). unfold Buf.toUint8.
  now rewrite N.Div0.mod_mod.
Qed.

Lemma chunkToNumber_numberToChunk_low n :
  (n <= 255)%N -> chunkToNumber (numberToChunk n) = Num n.
Proof.
  intros Hn. unfold chunkToNumber, numberToChunk; simpl.
  destruct (N.eqb_spec n 0) as [->|Hz]; [reflexivity|].
  destruct (N.leb_spec n 16) as [H16|H16].
  - assert (E0 : (80 + n =? 0)%N = false) by (apply N.eqb_neq; lia).
    assert (E1 : (80 + n =? 1)%N = false) by (apply N.eqb_neq; lia).
    assert (E2 : (80 + n =? 2)%N = false) by (apply N.eqb_neq; lia).
    assert (E3 : ((80 <? 80 + n) && (80 + n <=? 96))%N = true).
    { apply andb_true_iff; split; [apply N.ltb_lt | apply N.leb_le]; lia. }
    rewrite E0, E1, E2, E3. f_equal. lia.
  - destruct (N.ltb_spec n 128) as [H128|H128]; simpl.
    + unfold byteAt; simpl. now rewrite toUint8_small by lia.
    + unfold byteAt; simpl. rewrite !toUint8_mod.
      rewrite N.Div0.mod_mod.
      rewrite (N.div_small n 256) by lia.
      rewrite (N.mod_small n 256) by lia. reflexivity.
Qed.

Lemma chunkToNumber_numberToChunk_high n :
  (128 <= n)%N ->
  chunkToNumber (numberToChunk n) = Num ((n / 256) mod 256 * 255 + n mod 256).
Proof.
  intros Hn. unfold chunkToNumber, numberToChunk; simpl.
  destruct (N.eqb_spec n 0) as [->|Hz]; [lia|].
  destruct (N.leb_spec n 16) as [H16|H16]; [lia|].
  destruct (N.ltb_spec n 128) as [H128|H128]; [lia|]. simpl.
  unfold byteAt; simpl. rewrite !toUint8_mod.
  now rewrite N.Div0.mod_mod.
Qed.

(** C10.  [chunkToNumber] undoes [numberToChunk] exactly for
    [0 <= n <= 255]: there it returns [n]; for [256 <= n < 65536] it
    returns [n - floor(n/256)], the high byte being weighted 255; and
    for no [n >= 256] does it return [n], so that the acceptance test
    of [extract] rejects every marker [remaining - 1 >= 256] written by
    the builder. *)
Theorem chunkToNumber_left_inverse_range (n : N) :
  ((n <= 255)%N -> chunkToNumber (numberToChunk n) = Num n) /\
  ((256 <= n < 65536)%N -> chunkToNumber (numberToChunk n) = Num (n - n / 256)) /\
  ((256 <= n)%N -> chunkToNumber (numberToChunk n) <> Num n) /\
  ((256 <= n)%N -> markerAccepted (n + 1) (numberToChunk n) = false).
Proof.
  assert (Hne : (256 <= n)%N -> chunkToNumber (numberToChunk n) <> Num n).
  { intros Hn. rewrite chunkToNumber_numberToChunk_high by lia.
    intros [= E].
    pose proof (N.Div0.div_mod n 256) as D.
    pose proof (N.Div0.mod_le (n / 256) 256) as L.
    assert (0 < n / 256)%N by (apply N.div_str_pos; lia).
    nia. }
  split; [apply chunkToNumber_numberToChunk_low|].
  split; [|split; [exact Hne|]].
  - intros [Hlo Hhi]. rewrite chunkToNumber_numberToChunk_high by lia.
    f_equal.
    pose proof (N.Div0.div_mod n 256) as D.
    assert (n / 256 < 256)%N by (apply N.Div0.div_lt_upper_bound; lia).
    rewrite (N.mod_small (n / 256)) by lia. nia.
  - intros Hn. specialize (Hne Hn). unfold markerAccepted.
    destruct (chunkToNumber (numberToChunk n)) as [m| |]; try reflexivity.
    apply Z.eqb_neq. intros E. apply Hne. f_equal. lia.
Qed.

Lemma chunkToNumber_left_inverse_range_witness :
  chunkToNumber (numberToChunk 200) = Num 200 /\
  chunkToNumber (numberToChunk 1000) = Num (1000 - 1000 / 256) /\
  chunkToNumber (numberToChunk 70000) <> Num 70000 /\
  markerAccepted (300 + 1) (numberToChunk 300) = false.
Proof.
  split; [apply (proj1 (chunkToNumber_left_inverse_range 200)); lia|].
  split; [apply (proj1 (proj2 (chunkToNumber_left_inverse_range 1000))); lia|].
  split; [apply (proj1 (proj2 (proj2 (chunkToNumber_left_inverse_range 70000)))); lia|].
  apply (proj2 (proj2 (proj2 (chunkToNumber_left_inverse_range 300)))); lia.
Defined.

End ScriptNumbers.

(* --------------------------------------------------------------------- *)
(** ** The genesis parser *)
(* --------------------------------------------------------------------- *)

Section GenesisParser.
Import Envelope.

(** The tokens of a sequence of (marker, chunk) pairs, and the chunks
    of such a sequence glued together. *)
Fixpoint pairTokens (ps : list (string * string)) : list string :=
  match ps with
  | [] => []
  | (n, h) :: ps' => n :: h :: pairTokens ps'
  end.

Fixpoint chunksOf (ps : list (string * string)) : string :=
  match ps with
  | [] => EmptyString
  | (_, h) :: ps' => (h +:+ chunksOf ps')%string
  end.

Definition markerIsInteger (p : string * string) : Prop :=
  isIntegerString (fst p) = true.

Definition markerNonZero (p : string * string) : Prop :=
  isZero (parseMarker (fst p)) = false.

(** Where the greedy loop stops without having seen a zero marker: at
    the end of the tokens, at a marker without a chunk after it, or at
    a token that is not an integer. *)
Definition stopsAt (tail : list string) : Prop :=
  tail = [] \/ (exists t, tail = [t]) \/
  (exists t tail', tail = t :: tail' /\ isIntegerString t = false).

Lemma append_assoc (a b c : string) :
  ((a +:+ b) +:+ c = a +:+ (b +:+ c))%string.
Proof.
  induction a as [|x a IH]; [reflexivity|].
  change (String x ((a +:+ b) +:+ c) = String x (a +:+ b +:+ c))%string.
  now rewrite IH.
Qed.

Lemma append_empty_r (a : string) : (a +:+ EmptyString)%string = a.
Proof.
  induction a as [|x a IH]; [reflexivity|].
  change (String x (a +:+ EmptyString) = String x a)%string.
  now rewrite IH.
Qed.

(** What a run of the loop from [tokens], started with [hex] and
    [found], has done when it returns [r]. *)
Definition consumed (mt : option string) (tokens : list string)
           (hex : string) (found : Z) (r : parsed) : Prop :=
  exists pairs tail,
    tokens = pairTokens pairs ++ tail /\
    Forall markerIsInteger pairs /\
    mimeType r = mt /\
    dataHex r = (hex +:+ chunksOf pairs)%string /\
    chunksFound r = (found + Z.of_nat (length pairs))%Z /\
    (endOfData r = true ->
       exists front p, pairs = front ++ [p] /\ Forall markerNonZero front /\
                       isZero (parseMarker (fst p)) = true) /\
    (endOfData r = false -> Forall markerNonZero pairs /\ stopsAt tail).

Lemma consumed_stop mt tokens hex found last :
  stopsAt tokens -> consumed mt tokens hex found (Parsed hex mt false found last).
Proof.
  intros Hstop. exists [], tokens. simpl.
  rewrite append_empty_r, Z.add_0_r.
  split; [reflexivity|]. split; [constructor|].
  split; [reflexivity|]. split; [reflexivity|]. split; [reflexivity|].
  split; [discriminate|]. intros _. split; [constructor | exact Hstop].
Qed.

Lemma consume_spec (mt : option string) (n : nat) :
  forall tokens hex found last, length tokens <= n ->
  consumed mt tokens hex found (consume mt tokens hex found last).
Proof.
  induction n as [|n IH]; intros tokens hex found last Hlen.
  - destruct tokens; [|simpl in Hlen; lia].
    apply consumed_stop. now left.
  - destruct tokens as [|token rest]; [apply consumed_stop; now left|].
    simpl. destruct (isIntegerString token) eqn:Hint.
    2:{ apply consumed_stop. right; right. now exists token, rest. }
    destruct rest as [|dataChunk rest'].
    { apply consumed_stop. right; left. now exists token. }
    destruct (isZero (parseMarker token)) eqn:Hz.
    + exists [(token, dataChunk)], rest'. simpl.
      rewrite append_empty_r.
      split; [reflexivity|]. split; [constructor; [exact Hint | constructor]|].
      split; [reflexivity|]. split; [reflexivity|]. split; [reflexivity|].
      split; [|discriminate].
      intros _. exists [], (token, dataChunk).
      split; [reflexivity|]. split; [constructor | exact Hz].
    + destruct (IH rest' (hex +:+ dataChunk)%string (found + 1)%Z (parseMarker token))
        as (pairs & tail & Htok & Hall & Hmt & Hhex & Hcnt & Hend & Hstop).
      { simpl in Hlen. lia. }
      exists ((token, dataChunk) :: pairs), tail. simpl.
      rewrite Hmt, Hhex, Hcnt, append_assoc.
      split; [now rewrite Htok|].
      split; [constructor; [exact Hint | exact Hall]|].
      split; [reflexivity|]. split; [reflexivity|].
      split; [lia|]. split.
      * intros E. destruct (Hend E) as (front & p & -> & Hfront & Hp).
        exists ((token, dataChunk) :: front), p.
        split; [reflexivity|]. split; [constructor; [exact Hz | exact Hfront] | exact Hp].
      * intros E. destruct (Hstop E) as [Hnz Hst].
        split; [constructor; [exact Hz | exact Hnz] | exact Hst].
Qed.

(** C3 (as amended).  A token stream with fewer than three tokens makes
    [processGenesisAsm] throw.  On [sentinel; remaining; mimeTypeHex]
    followed by [rest] it returns; the mime type is the UTF-8 decoding
    of [mimeTypeHex], or [application/octet-stream] when that decoding
    is empty; the tokens consumed from index 3 are a sequence of
    (integer, chunk) pairs, whose chunks are accumulated in order and
    counted; [endOfData] is true exactly when a consumed pair has
    marker 0, that pair is the last one consumed and its chunk is
    accumulated; otherwise consumption is greedy: it stops only where
    no further pair starts. *)
Theorem processGenesisAsm_spec (asmData : list string) :
  (length asmData < 3 -> exists msg, processGenesisAsm asmData = Throw msg) /\
  (forall sentinel remaining mimeTypeHex rest,
     asmData = sentinel :: remaining :: mimeTypeHex :: rest ->
     exists r pairs tail,
       processGenesisAsm asmData = Ok r /\
       mimeType r = Some (if JS.truthy (hexToAscii mimeTypeHex)
                          then hexToAscii mimeTypeHex else DEFAULT_MIME) /\
       rest = pairTokens pairs ++ tail /\
       Forall markerIsInteger pairs /\
       dataHex r = chunksOf pairs /\
       chunksFound r = Z.of_nat (length pairs) /\
       (endOfData r = true <-> Exists (fun p => isZero (parseMarker (fst p)) = true) pairs) /\
       (forall front p, pairs = front ++ [p] -> Forall markerNonZero front) /\
       (endOfData r = false -> stopsAt tail)).
Proof.
  split.
  - intros Hlen. destruct asmData as [|a [|b [|c l]]]; simpl in Hlen; try lia;
      now eexists.
  - intros sentinel remaining mimeTypeHex rest ->. simpl.
    destruct (consume_spec
                (Some (JS.orElse (hexToAscii mimeTypeHex) DEFAULT_MIME))
                (length rest) rest EmptyString 0%Z (parseMarker remaining) (le_n _))
      as (pairs & tail & Htok & Hall & Hmt & Hhex & Hcnt & Hend & Hstop).
    eexists _, pairs, tail. split; [reflexivity|].
    split; [exact Hmt|]. split; [exact Htok|]. split; [exact Hall|].
    split; [exact Hhex|]. split; [rewrite Hcnt; lia|].
    set (r := consume _ rest _ _ _) in *.
    assert (Hfront : forall front p, pairs = front ++ [p] -> Forall markerNonZero front).
    { intros front p E. destruct (endOfData r) eqn:Er.
      - destruct (Hend eq_refl) as (front' & p' & E' & Hf & _).
        rewrite E in E'. apply app_inj_tail in E' as [-> _]. exact Hf.
      - destruct (Hstop eq_refl) as [Hnz _]. rewrite E in Hnz.
        apply Forall_app in Hnz. tauto. }
    split; [|split; [exact Hfront | intros E; now apply Hstop]].
    split.
    + intros E. destruct (Hend E) as (front & p & -> & _ & Hp).
      apply Exists_app. right. now constructor.
    + intros Hex. destruct (endOfData r) eqn:Er; [reflexivity|].
      destruct (Hstop eq_refl) as [Hnz _].
      apply Exists_exists in Hex as (p & Hin & Hp).
      rewrite Forall_forall in Hnz. specialize (Hnz p Hin).
      unfold markerNonZero in Hnz. congruence.
Qed.

Lemma processGenesisAsm_spec_witness :
  (exists msg, processGenesisAsm ["6582895"; "0"]%string = Throw msg) /\
  exists r pairs tail,
    processGenesisAsm
      ["6582895"; "0"; "746578742f706c61696e"; "0"; "68656c6c6f"]%string = Ok r /\
    mimeType r = Some "text/plain"%string /\
    ["0"; "68656c6c6f"]%string = pairTokens pairs ++ tail /\
    dataHex r = chunksOf pairs /\
    endOfData r = true.
Proof.
  split.
  - apply (proj1 (processGenesisAsm_spec ["6582895"; "0"]%string)). simpl. lia.
  - destruct (proj2 (processGenesisAsm_spec
                ["6582895"; "0"; "746578742f706c61696e"; "0"; "68656c6c6f"]%string)
                _ _ _ _ eq_refl)
      as (r & pairs & tail & Hr & Hmt & Htok & _ & Hhex & _ & _ & _ & _).
    exists r, pairs, tail. split; [exact Hr|]. split; [exact Hmt|].
    split; [exact Htok|]. split; [exact Hhex|].
    simpl in Hr. injection Hr as <-. reflexivity.
Defined.

(** C3, the claim as stated fails where the third token decodes to the
    empty string: an empty content type reaches the decoder as the
    token [0], and the mime type returned is then the default, not the
    (empty) decoding. *)
Lemma processGenesisAsm_mime_default :
  hexToAscii "0" = EmptyString /\
  exists r,
    processGenesisAsm ["6582895"; "1"; "0"; "0"; "68656c6c6f"]%string = Ok r /\
    mimeType r = Some "application/octet-stream"%string /\
    mimeType r <> Some (hexToAscii "0").
Proof.
  split; [reflexivity|]. eexists. split; [reflexivity|].
  split; [reflexivity | discriminate].
Qed.

End GenesisParser.

(* --------------------------------------------------------------------- *)
(** ** The progress tracker after completion *)
(* --------------------------------------------------------------------- *)

Section TrackerAfterComplete.
Import Progress.

Implicit Types (m : gmap string entry) (key now : string).

Lemma completeProgress_lookup m key now p :
  m !! key = Some p ->
  completeProgress key now m !! key =
    Some {| txid := txid p; chunksFound := chunksFound p;
            estimatedTotal := estimatedTotal p; active := false;
            label := label p; startedAt := startedAt p; updatedAt := now;
            depTotal := depTotal p; depDone := depDone p |}.
Proof. intros E. unfold completeProgress. rewrite E. apply lookup_insert_eq. Qed.

Lemma run_other key key' now o m :
  key <> key' -> run key now o m !! key' = m !! key'.
Proof.
  intros Hne. destruct o; simpl.
  - unfold updateProgress. now rewrite lookup_insert_ne.
  - unfold setDependencyPlan.
    destruct (negb (JS.truthy key) || (totalDeps <=? 0)%Z); [reflexivity|].
    now rewrite lookup_insert_ne.
  - unfold incrementDependencyDone.
    destruct (negb (JS.truthy key)); [reflexivity|].
    destruct (m !! key); [|reflexivity]. now rewrite lookup_insert_ne.
  - unfold completeProgress.
    destruct (m !! key); [|reflexivity]. now rewrite lookup_insert_ne.
Qed.

(** C8 (as amended).  [completeProgress] sets [active] to false and
    keeps every counter.  The entry is not frozen by that: a later
    [updateProgress] adds its chunks (never fewer than before), rewrites
    [updatedAt] and sets [active] back to true; a later
    [setDependencyPlan] with a positive total, and a later
    [incrementDependencyDone], rewrite [depTotal], [depDone] and
    [updatedAt] and leave [active] and the chunk counters as they
    are. *)
Theorem tracker_after_complete m key now p :
  m !! key = Some p ->
  JS.truthy key = true ->
  let m' := completeProgress key now m in
  (exists e, m' !! key = Some e /\ active e = false /\
             chunksFound e = chunksFound p /\ estimatedTotal e = estimatedTotal p /\
             depTotal e = depTotal p /\ depDone e = depDone p /\ updatedAt e = now) /\
  (forall lbl n r later,
     exists e, updateProgress key lbl n r later m' !! key = Some e /\
               active e = true /\ updatedAt e = later /\
               (chunksFound p <= chunksFound e)%Z /\
               ((0 < n)%Z -> chunksFound e = (chunksFound p + n)%Z)) /\
  (forall total later, (0 < total)%Z ->
     exists e, setDependencyPlan key total later m' !! key = Some e /\
               active e = false /\ chunksFound e = chunksFound p /\
               estimatedTotal e = estimatedTotal p /\
               depTotal e = Some total /\ depDone e = 0%Z /\ updatedAt e = later) /\
  (forall later,
     exists e, incrementDependencyDone key later m' !! key = Some e /\
               active e = false /\ chunksFound e = chunksFound p /\
               estimatedTotal e = estimatedTotal p /\
               depTotal e = depTotal p /\ depDone e = (depDone p + 1)%Z /\
               updatedAt e = later).
Proof.
  intros Hp Hkey m'.
  pose proof (completeProgress_lookup m key now p Hp) as Hm'. fold m' in Hm'.
  split; [|split; [|split]].
  - eexists. split; [exact Hm'|]. simpl. repeat split.
  - intros lbl n r later. unfold updateProgress. rewrite Hm'. simpl.
    eexists. split; [apply lookup_insert_eq|]. simpl.
    split; [reflexivity|]. split; [reflexivity|].
    destruct (Z.ltb_spec 0 n); split; intros; lia.
  - intros total later Ht. unfold setDependencyPlan. rewrite Hkey. simpl.
    destruct (Z.leb_spec total 0) as [?|_]; [lia|]. rewrite Hm'. simpl.
    eexists. split; [apply lookup_insert_eq|]. simpl. repeat split.
  - intros later. unfold incrementDependencyDone. rewrite Hkey, Hm'. simpl.
    eexists. split; [apply lookup_insert_eq|]. simpl. repeat split.
Qed.

Definition demoKey : string := "6fb0fd5f01429d13".

Definition doneDecode : gmap string entry :=
  completeProgress demoKey "t2"
    (updateProgress demoKey "genesis" 1 (Some 0%Z) "t1"
       (initProgress demoKey "t0" ∅)).

Lemma doneDecode_lookup :
  doneDecode !! demoKey =
    Some {| txid := demoKey; chunksFound := 1; estimatedTotal := Some 1%Z;
            active := false; label := "genesis"; startedAt := "t0";
            updatedAt := "t2"; depTotal := None; depDone := 0 |}.
Proof.
  unfold doneDecode, completeProgress, updateProgress, initProgress.
  repeat (rewrite lookup_insert_eq; simpl). reflexivity.
Qed.

Lemma tracker_after_complete_witness :
  exists e, updateProgress demoKey "chain" 2 None "t3"
              (completeProgress demoKey "t2"
                 (initProgress demoKey "t0" ∅)) !! demoKey = Some e /\
            active e = true /\ chunksFound e = 2%Z.
Proof.
  assert (Hinit : initProgress demoKey "t0" ∅ !! demoKey
                  = Some (baseProgressObject demoKey "t0"))
    by apply lookup_insert_eq.
  destruct (proj1 (proj2 (tracker_after_complete _ demoKey "t2" _ Hinit eq_refl))
              "chain" 2%Z None "t3") as (e & He & Hact & _ & _ & Hn).
  exists e. split; [exact He|]. split; [exact Hact|].
  rewrite Hn by lia. reflexivity.
Defined.

(** C8, the claim as stated fails.  The calls are those of a decode
    with one dependency: the parent's chain decode ends with
    [completeProgress]; the dependency scan then calls
    [setDependencyPlan] on the same key, the child's chain decode runs
    under the parent's progress key and calls [updateProgress], and the
    scan finishes with [incrementDependencyDone].  Each of the three
    changes the completed entry. *)
Lemma completed_entry_is_mutated :
  (active <$> doneDecode !! demoKey) = Some false /\
  setDependencyPlan demoKey 1 "t3" doneDecode !! demoKey <> doneDecode !! demoKey /\
  updateProgress demoKey "genesis" 1 (Some 0%Z) "t4" doneDecode !! demoKey
    <> doneDecode !! demoKey /\
  (active <$> updateProgress demoKey "genesis" 1 (Some 0%Z) "t4" doneDecode !! demoKey)
    = Some true /\
  incrementDependencyDone demoKey "t5" doneDecode !! demoKey <> doneDecode !! demoKey.
Proof.
  pose proof doneDecode_lookup as H.
  unfold setDependencyPlan, updateProgress, incrementDependencyDone.
  rewrite H. simpl. rewrite !lookup_insert_eq. simpl.
  repeat split; discriminate.
Qed.

End TrackerAfterComplete.

(* --------------------------------------------------------------------- *)
(** ** The master index: [createdAt], and how the index is written *)
(* --------------------------------------------------------------------- *)

Section MasterIndex.
Import Store.

Implicit Types (s : fs) (m : meta) (master : gmap string meta).

Lemma step_master_other s o :
  match o with
  | MkDir _ => True
  | _ => False
  end ->
  files (step s o) = files s.
Proof. destruct o; simpl; tauto. Qed.

Lemma exec_mkdirIfMissing d s : files (exec s (mkdirIfMissing d s)) = files s.
Proof. unfold mkdirIfMissing. destruct (decide (d ∈ dirs s)); reflexivity. Qed.

Lemma exec_app s ops1 ops2 : exec s (ops1 ++ ops2) = exec (exec s ops1) ops2.
Proof. apply foldl_app. Qed.

Lemma files_exec_mkdirs s ops :
  Forall (fun o => exists d, o = MkDir d) ops -> files (exec s ops) = files s.
Proof.
  intros H. revert s. induction H as [|o ops [d ->] _ IH]; intros s; [reflexivity|].
  simpl. now rewrite IH.
Qed.

Lemma ensureContentDirOps_mkdirs s :
  Forall (fun o => exists d, o = MkDir d) (ensureContentDirOps s).
Proof.
  unfold ensureContentDirOps, mkdirIfMissing.
  destruct (decide (CONTENT_DIR ∈ dirs s)), (decide (MASTER_DIR ∈ dirs s));
    simpl; repeat constructor; eauto.
Qed.

Lemma loadMaster_saveMaster master s : loadMaster (saveMaster master s) = master.
Proof.
  unfold saveMaster, saveMasterOps. rewrite exec_app. simpl.
  unfold loadMaster. simpl. now rewrite lookup_insert_eq.
Qed.

Lemma loadMaster_upsert m now s id :
  inscriptionId m = Some id -> JS.truthy id = true ->
  loadMaster (upsertMasterEntry m now s) = upserted m id now (loadMaster s).
Proof.
  intros Hid Ht. unfold upsertMasterEntry. rewrite Hid, Ht.
  apply loadMaster_saveMaster.
Qed.

(** The [createdAt] the index records for [id], when it is a non-empty
    string. *)
Definition createdAtOf (id : string) s : option string :=
  match loadMaster s !! id with
  | Some e => if truthyOpt (createdAt e) then createdAt e else None
  | None => None
  end.

Lemma upsert_keeps_createdAt m now s id c :
  createdAtOf id s = Some c ->
  createdAtOf id (upsertMasterEntry m now s) = Some c.
Proof.
  unfold createdAtOf. intros H.
  destruct (loadMaster s !! id) as [e|] eqn:He; [|discriminate].
  destruct (truthyOpt (createdAt e)) eqn:Hc; [|discriminate].
  unfold upsertMasterEntry.
  destruct (inscriptionId m) as [id'|]; [|now rewrite He, Hc].
  destruct (JS.truthy id'); [|now rewrite He, Hc].
  rewrite loadMaster_saveMaster. unfold upserted.
  destruct (decide (id' = id)) as [->|Hne].
  - rewrite lookup_insert_eq, He. simpl. unfold orOpt. rewrite Hc. simpl.
    now rewrite Hc.
  - rewrite lookup_insert_ne by exact Hne. now rewrite He, Hc.
Qed.

Definition upsertAll (ups : list (meta * string)) s : fs :=
  foldl (fun s' u => upsertMasterEntry (fst u) (snd u) s') s ups.

Lemma upsertAll_keeps_createdAt ups s id c :
  createdAtOf id s = Some c -> createdAtOf id (upsertAll ups s) = Some c.
Proof.
  revert s. induction ups as [|[m now] ups IH]; intros s H; [exact H|].
  simpl. apply IH. now apply upsert_keeps_createdAt.
Qed.

(** C7.  The first upsert of an inscription id records a [createdAt]:
    the one of its metadata if it has one, the current time otherwise.
    Every later upsert, for this id or another, whatever its metadata
    and whenever it happens, leaves that [createdAt] as it is. *)
Theorem upsert_createdAt_preserved m now s id (later : list (meta * string)) :
  inscriptionId m = Some id ->
  JS.truthy id = true ->
  JS.truthy now = true ->
  loadMaster s !! id = None ->
  let first := orOpt (createdAt m) (Some now) in
  createdAtOf id (upsertMasterEntry m now s) = first /\
  truthyOpt first = true /\
  createdAtOf id (upsertAll later (upsertMasterEntry m now s)) = first.
Proof.
  intros Hid Ht Hnow Hnone first.
  assert (Htruthy : truthyOpt first = true).
  { unfold first, orOpt. destruct (truthyOpt (createdAt m)) eqn:E; [exact E | exact Hnow]. }
  assert (Hfirst : createdAtOf id (upsertMasterEntry m now s) = first).
  { unfold createdAtOf. rewrite (loadMaster_upsert m now s id Hid Ht).
    unfold upserted. rewrite lookup_insert_eq, Hnone. simpl.
    change (orOpt None (orOpt (createdAt m) (Some now))) with first.
    now rewrite Htruthy. }
  split; [exact Hfirst|]. split; [exact Htruthy|].
  destruct first as [c|]; [|discriminate].
  now apply upsertAll_keeps_createdAt.
Qed.

Definition demoId : string := "da759d4d72fbdefbi0".

Definition demoMeta (mime created : option string) : meta :=
  {| inscriptionId := Some demoId; txid := Some "da759d4d72fbdefb";
     filename := Some "da759d4d72fbdefbi0.bin"; mimeType := mime;
     ext := Some "bin"; size := Some 5%N; createdAt := created |}.

Definition emptyFs : fs := Fs ∅ ∅.

Lemma upsert_createdAt_preserved_witness :
  createdAtOf demoId
    (upsertAll [(demoMeta (Some "image/png") (Some "2031-01-01T00:00:00.000Z"),
                 "2026-02-02T00:00:00.000Z")]
       (upsertMasterEntry (demoMeta None None) "2025-01-01T00:00:00.000Z" emptyFs))
  = Some "2025-01-01T00:00:00.000Z".
Proof.
  apply (upsert_createdAt_preserved (demoMeta None None) "2025-01-01T00:00:00.000Z"
           emptyFs demoId
           [(demoMeta (Some "image/png") (Some "2031-01-01T00:00:00.000Z"),
             "2026-02-02T00:00:00.000Z")]);
    reflexivity.
Defined.

(** *** Writing the index *)

Definition isRename (o : fsop) : bool :=
  match o with
  | Rename _ _ => true
  | _ => false
  end.

Definition writesTo (o : fsop) : option string :=
  match o with
  | Truncate p | WriteAll p _ => Some p
  | _ => None
  end.

Lemma saveMasterOps_shape s master :
  exists mk,
    saveMasterOps s master =
      mk ++ [Truncate MASTER_PATH; WriteAll MASTER_PATH (IndexText master)] /\
    Forall (fun o => exists d, o = MkDir d) mk.
Proof.
  exists (ensureContentDirOps s). split; [reflexivity|].
  apply ensureContentDirOps_mkdirs.
Qed.

Lemma take_app_cases {A} (k : nat) (l1 l2 : list A) :
  take k (l1 ++ l2) = take k l1 /\ k <= length l1 \/
  exists j, take k (l1 ++ l2) = l1 ++ take j l2 /\ k = length l1 + j.
Proof.
  destruct (Nat.le_gt_cases k (length l1)) as [H|H].
  - left. split; [|exact H]. now rewrite take_app_le.
  - right. exists (k - length l1). split; [|lia].
    rewrite take_app_ge by lia. reflexivity.
Qed.

Lemma take_mkdirs (k : nat) (ops : list fsop) :
  Forall (fun o => exists d, o = MkDir d) ops ->
  Forall (fun o => exists d, o = MkDir d) (take k ops).
Proof.
  intros H. revert k. induction H as [|o ops Ho _ IH]; intros [|k]; simpl;
    constructor; auto.
Qed.

(** C6 (as amended).  [saveMaster], which every [upsertMasterEntry] with
    an id runs on the merged index, writes the index in place: after
    making the directories it opens [master.json] itself for writing
    and writes the whole serialised index into it; it uses no temporary
    file and no rename.  A write that completes leaves the new index.
    A write that is interrupted leaves either the previous index or a
    file that [loadMaster] reads as the empty index. *)
Theorem saveMaster_writes_in_place s master :
  (forall o, o ∈ saveMasterOps s master ->
     isRename o = false /\
     (forall p, writesTo o = Some p -> p = MASTER_PATH)) /\
  loadMaster (saveMaster master s) = master /\
  (forall k, loadMaster (interrupted k s (saveMasterOps s master)) = loadMaster s \/
             loadMaster (interrupted k s (saveMasterOps s master)) = ∅ \/
             loadMaster (interrupted k s (saveMasterOps s master)) = master) /\
  (forall m now id, inscriptionId m = Some id -> JS.truthy id = true ->
     upsertMasterEntry m now s
     = exec s (saveMasterOps s (upserted m id now (loadMaster s)))).
Proof.
  destruct (saveMasterOps_shape s master) as (mk & Hops & Hmk).
  split; [|split; [apply loadMaster_saveMaster | split]].
  - intros o Ho. rewrite Hops in Ho. apply elem_of_app in Ho as [Ho|Ho].
    + rewrite Forall_forall in Hmk. destruct (Hmk o Ho) as [d ->].
      split; [reflexivity | discriminate].
    + apply list_elem_of_In in Ho. simpl in Ho.
      destruct Ho as [<-|[<-|[]]]; (split; [reflexivity | now intros p [= <-]]).
  - intros k. unfold interrupted. rewrite Hops.
    destruct (take_app_cases k mk [Truncate MASTER_PATH; WriteAll MASTER_PATH (IndexText master)])
      as [[-> _]|(j & -> & _)].
    + left. unfold loadMaster.
      now rewrite (files_exec_mkdirs s _ (take_mkdirs k mk Hmk)).
    + rewrite exec_app. unfold loadMaster.
      destruct j as [|[|j]]; simpl.
      * left. now rewrite (files_exec_mkdirs s mk Hmk).
      * right; left. now rewrite lookup_insert_eq.
      * right; right. rewrite take_nil. simpl. now rewrite lookup_insert_eq.
  - intros m now id Hid Ht. unfold upsertMasterEntry. now rewrite Hid, Ht.
Qed.

Lemma saveMaster_writes_in_place_witness :
  upsertMasterEntry (demoMeta (Some "image/png") None) "2025-01-01T00:00:00.000Z" emptyFs
  = exec emptyFs
      (saveMasterOps emptyFs
         (upserted (demoMeta (Some "image/png") None) demoId
            "2025-01-01T00:00:00.000Z" (loadMaster emptyFs))).
Proof.
  apply (proj2 (proj2 (proj2 (saveMaster_writes_in_place emptyFs ∅)))
           (demoMeta (Some "image/png") None) "2025-01-01T00:00:00.000Z" demoId);
    reflexivity.
Defined.

(** What the server's [atomicWriteJson] achieves and [saveMaster] does
    not: interrupted anywhere, it leaves the target file as it was or
    holding the complete new text. *)
Lemma atomicWriteJson_never_tears s path data k :
  let s' := interrupted k s (atomicWriteJsonOps path data) in
  (path +:+ ".tmp")%string <> path ->
  files s' !! path = files s !! path \/ files s' !! path = Some data.
Proof.
  intros s' Hne. subst s'. unfold interrupted, atomicWriteJsonOps. simpl.
  destruct k as [|[|[|k]]]; simpl.
  - now left.
  - left. now rewrite lookup_insert_ne by exact Hne.
  - left. now rewrite !lookup_insert_ne by exact Hne.
  - right. rewrite take_nil. simpl. rewrite lookup_insert_eq. simpl.
    apply lookup_insert_eq.
Qed.

Definition storedFs : fs :=
  saveMaster {[ demoId := demoMeta (Some "image/png") (Some "2025-01-01T00:00:00.000Z") ]}
    emptyFs.

Definition newIndex : gmap string meta :=
  upserted (demoMeta (Some "image/webp") None) demoId "2026-02-02T00:00:00.000Z"
    (loadMaster storedFs).

Lemma storedFs_dirs : dirs storedFs = {[MASTER_DIR]} ∪ ({[CONTENT_DIR]} ∪ ∅).
Proof. reflexivity. Qed.

Lemma saveMasterOps_storedFs master :
  saveMasterOps storedFs master
  = [Truncate MASTER_PATH; WriteAll MASTER_PATH (IndexText master)].
Proof.
  unfold saveMasterOps, ensureContentDirOps, mkdirIfMissing.
  rewrite storedFs_dirs.
  destruct (decide (CONTENT_DIR ∈ ({[MASTER_DIR]} ∪ ({[CONTENT_DIR]} ∪ ∅) : gset string)))
    as [_|H]; [|exfalso; apply H; set_solver].
  destruct (decide (MASTER_DIR ∈ ({[MASTER_DIR]} ∪ ({[CONTENT_DIR]} ∪ ∅) : gset string)))
    as [_|H]; [|exfalso; apply H; set_solver].
  reflexivity.
Qed.

(** C6, the claim as stated fails: the steps of [saveMaster] are the
    two steps of one [writeFileSync] on [master.json], none of them a
    rename, and interrupted between them the write leaves a file from
    which the previous index, here one entry, is gone. *)
Lemma saveMaster_interrupted_loses_index :
  saveMasterOps storedFs newIndex
    = [Truncate MASTER_PATH; WriteAll MASTER_PATH (IndexText newIndex)] /\
  existsb isRename (saveMasterOps storedFs newIndex) = false /\
  is_Some (loadMaster storedFs !! demoId) /\
  loadMaster (interrupted 1 storedFs (saveMasterOps storedFs newIndex)) = ∅ /\
  loadMaster (interrupted 1 storedFs (saveMasterOps storedFs newIndex))
    <> loadMaster storedFs.
Proof.
  rewrite saveMasterOps_storedFs.
  assert (Hload : loadMaster storedFs
                  = {[ demoId := demoMeta (Some "image/png")
                                   (Some "2025-01-01T00:00:00.000Z") ]})
    by apply loadMaster_saveMaster.
  assert (Hcut : loadMaster (interrupted 1 storedFs
                   [Truncate MASTER_PATH; WriteAll MASTER_PATH (IndexText newIndex)]) = ∅).
  { unfold interrupted, loadMaster. simpl. now rewrite lookup_insert_eq. }
  split; [reflexivity|]. split; [reflexivity|].
  split; [rewrite Hload, lookup_singleton_eq; eauto|].
  split; [exact Hcut|].
  rewrite Hcut, Hload. intros E.
  assert (H : (∅ : gmap string meta) !! demoId = None) by apply lookup_empty.
  rewrite E, lookup_singleton_eq in H. discriminate.
Qed.

End MasterIndex.

(* --------------------------------------------------------------------- *)
(** ** The byte sniffer *)
(* --------------------------------------------------------------------- *)

Section Sniffer.
Import Sniff.

Implicit Types (buf : list byte).

Lemma leb_length_take (k : nat) buf :
  k <= 256 -> (k <=? length (take 256 buf)) = (k <=? length buf).
Proof.
  intros Hk. rewrite length_take.
  destruct (Nat.leb_spec k (length buf)), (Nat.leb_spec k (256 `min` length buf));
    try reflexivity; lia.
Qed.

Lemma ltb_length_take (k : nat) buf :
  k <= 256 -> (length (take 256 buf) <? k) = (length buf <? k).
Proof.
  intros Hk. rewrite length_take.
  destruct (Nat.ltb_spec (length buf) k), (Nat.ltb_spec (256 `min` length buf) k);
    try reflexivity; lia.
Qed.

Lemma byteIs_take buf (i : nat) v :
  i < 256 -> byteIs (take 256 buf) i v = byteIs buf i v.
Proof. intros Hi. unfold byteIs. now rewrite lookup_take_lt. Qed.

Lemma toAscii_take (n : nat) buf :
  n <= 256 -> Buf.toAscii n (take 256 buf) = Buf.toAscii n buf.
Proof.
  intros Hn. unfold Buf.toAscii. rewrite take_take.
  now replace (n `min` 256) with n by lia.
Qed.

Lemma toAscii_drop_take buf :
  Buf.toAscii 4 (drop 8 (take 256 buf)) = Buf.toAscii 4 (drop 8 buf).
Proof.
  unfold Buf.toAscii. rewrite !take_drop_commute, take_take. reflexivity.
Qed.

Lemma isGlb_take buf : isGlb (take 256 buf) = isGlb buf.
Proof. unfold isGlb. rewrite toAscii_take by lia. reflexivity. Qed.

Lemma isPng_take buf : isPng (take 256 buf) = isPng buf.
Proof.
  unfold isPng. rewrite leb_length_take by lia.
  rewrite !byteIs_take by lia. reflexivity.
Qed.

Lemma isJpeg_take buf : isJpeg (take 256 buf) = isJpeg buf.
Proof.
  unfold isJpeg. rewrite leb_length_take by lia.
  rewrite !byteIs_take by lia. reflexivity.
Qed.

Lemma isGif_take buf : isGif (take 256 buf) = isGif buf.
Proof.
  unfold isGif. rewrite leb_length_take by lia.
  rewrite !toAscii_take by lia. reflexivity.
Qed.

Lemma isWebp_take buf : isWebp (take 256 buf) = isWebp buf.
Proof.
  unfold isWebp. rewrite leb_length_take by lia.
  rewrite toAscii_take by lia. rewrite toAscii_drop_take. reflexivity.
Qed.

Lemma isGltfJson_take buf : isGltfJson (take 256 buf) = isGltfJson buf.
Proof.
  unfold isGltfJson. rewrite leb_length_take by lia.
  rewrite take_take. reflexivity.
Qed.

Lemma sniff_take buf :
  sniffFileTypeFromBuffer (take 256 buf) = sniffFileTypeFromBuffer buf.
Proof.
  unfold sniffFileTypeFromBuffer.
  rewrite ltb_length_take by lia.
  now rewrite isGlb_take, isPng_take, isJpeg_take, isGif_take, isWebp_take,
    isGltfJson_take.
Qed.

(** C9 (as amended).  The sniffer answers from the first 256 bytes
    alone.  It answers GLTF JSON exactly when no binary signature
    matches, the buffer has at least 32 bytes, and the text of the first
    256 bytes, after leading white space, begins with an opening brace
    and contains the quoted word asset followed by a colon and an
    opening brace, and the quoted word version followed by a colon and
    a quote; the buffer need not be valid JSON.  A buffer on which none
    of the six tests holds gets the answer null, null. *)
Theorem sniff_characterised buf :
  sniffFileTypeFromBuffer buf = sniffFileTypeFromBuffer (take 256 buf) /\
  (sniffFileTypeFromBuffer buf = found "model/gltf+json" "gltf" <->
     isGlb buf = false /\ isPng buf = false /\ isJpeg buf = false /\
     isGif buf = false /\ isWebp buf = false /\
     32 <= length buf /\
     looksLikeGltf (JS.trimStart (Buf.toUtf8 (take 256 buf))) = true) /\
  (isGlb buf = false -> isPng buf = false -> isJpeg buf = false ->
   isGif buf = false -> isWebp buf = false -> isGltfJson buf = false ->
   sniffFileTypeFromBuffer buf = nothing).
Proof.
  split; [symmetry; apply sniff_take|]. split.
  - unfold sniffFileTypeFromBuffer, isGltfJson.
    destruct (Nat.ltb_spec (length buf) 4) as [Hlt|Hge].
    + split; [discriminate|]. intros (_ & _ & _ & _ & _ & Hlen & _). lia.
    + destruct (isGlb buf); [split; [discriminate | intros [? _]; discriminate]|].
      destruct (isPng buf);
        [split; [discriminate | intros (_ & ? & _); discriminate]|].
      destruct (isJpeg buf);
        [split; [discriminate | intros (_ & _ & ? & _); discriminate]|].
      destruct (isGif buf);
        [split; [discriminate | intros (_ & _ & _ & ? & _); discriminate]|].
      destruct (isWebp buf);
        [split; [discriminate | intros (_ & _ & _ & _ & ? & _); discriminate]|].
      destruct (Nat.leb_spec 32 (length buf)) as [H32|H32]; simpl.
      * destruct (looksLikeGltf _).
        -- split; [intros _; repeat split; assumption | reflexivity].
        -- split; [discriminate | intros (_ & _ & _ & _ & _ & _ & ?); discriminate].
      * split; [discriminate | intros (_ & _ & _ & _ & _ & ? & _); lia].
  - intros H1 H2 H3 H4 H5 H6. unfold sniffFileTypeFromBuffer.
    rewrite H1, H2, H3, H4, H5, H6. now destruct (length buf <? 4).
Qed.

Definition plainText : list byte :=
  Buf.ofString "plain words without any signature at all".

Lemma sniff_characterised_witness :
  sniffFileTypeFromBuffer plainText = nothing.
Proof.
  apply (proj2 (proj2 (sniff_characterised plainText))); reflexivity.
Defined.

(** The beginning of a GLTF document, cut off in the middle of its
    first string: 56 bytes. *)
Definition cutOffGltf : list byte :=
  Buf.ofString
    ("  {" +:+ JS.quoted "asset" +:+ " :  {" +:+ JS.quoted "version" +:+ ":"
     +:+ String JS.dquote "2.0  and more text to reach 32")%string.

(** C9, the claim as stated fails: a buffer that is no JSON text at all
    is classified as GLTF JSON. *)
Lemma sniff_gltf_without_valid_json :
  sniffFileTypeFromBuffer cutOffGltf = found "model/gltf+json" "gltf" /\
  Json.parse (Buf.toUtf8 cutOffGltf) = None /\
  Json.specGltfJson cutOffGltf = false.
Proof. vm_compute. repeat split. Qed.

End Sniffer.

(* --------------------------------------------------------------------- *)
(** ** The broadcaster and its journal *)
(* --------------------------------------------------------------------- *)

Section Broadcaster.
Import Tx Broadcast.
Context `{Bitcore}.

Implicit Types (txs rest : list transaction) (w : world).

Lemma broadcastFrom_afterRounds n : forall txs i rest retry w wn,
  afterRounds n rest retry w = Some wn ->
  broadcastFrom txs i rest retry w = broadcastFrom txs (i + n) (drop n rest) retry wn.
Proof.
  induction n as [|n IH]; intros txs i rest retry w wn Hn.
  - simpl in Hn. injection Hn as <-. now rewrite Nat.add_0_r.
  - destruct rest as [|tx rest']; [discriminate|]. simpl in Hn. simpl.
    replace (i + S n) with (S i + n) by lia.
    destruct (broadcast tx retry w) as [w'|e w'|]; [now apply IH| |discriminate].
    destruct (alreadySent (errorMessage e)); [now apply IH | discriminate].
Qed.

Lemma afterRounds_length n : forall rest retry w wn,
  afterRounds n rest retry w = Some wn -> n <= length rest.
Proof.
  induction n as [|n IH]; intros rest retry w wn Hn; [lia|].
  destruct rest as [|tx rest']; [discriminate|]. simpl in Hn. simpl.
  destruct (broadcast tx retry w) as [w'|e w'|]; [| |discriminate].
  - apply IH in Hn. lia.
  - destruct (alreadySent (errorMessage e)); [apply IH in Hn; lia | discriminate].
Qed.

(** C4.  When the loop of [broadcastAll] has come to transaction [i]
    without ending the process, and broadcasting that transaction fails
    with an error whose message contains neither [bad-txns-inputs-spent]
    nor [already in block chain], then the process exits with code 1 and
    the pending journal holds the serialised transactions from index [i]
    to the end, in their order: the failed one and all after it, none of
    those before it. *)
Theorem broadcastAll_journals_rest txs retry w (i : nat) tx e wi w' :
  txs !! i = Some tx ->
  afterRounds i txs retry w = Some wi ->
  broadcast tx retry wi = Failed e w' ->
  alreadySent (errorMessage e) = false ->
  exists wend,
    broadcastAll txs retry w = Exited 1 wend /\
    pending wend = Some (map txToString (drop i txs)) /\
    drop i txs = tx :: drop (S i) txs /\
    length (drop i txs) = length txs - i.
Proof.
  intros Hi Hpre Hfail Hmsg.
  assert (Hdrop : drop i txs = tx :: drop (S i) txs).
  { now apply drop_S. }
  assert (Hrun : broadcastAll txs retry w
                 = Exited 1 (World (replies w') (Some (map txToString (drop i txs)))
                               (walletFile w'))).
  { unfold broadcastAll.
    rewrite (broadcastFrom_afterRounds i txs 0 txs retry w wi Hpre).
    replace (broadcastFrom txs (0 + i) (drop i txs) retry wi)
      with (broadcastFrom txs i (tx :: drop (S i) txs) retry wi)
      by (now rewrite <- Hdrop).
    simpl. now rewrite Hfail, Hmsg. }
  eexists. split; [exact Hrun|]. simpl.
  split; [reflexivity|]. split; [exact Hdrop|]. apply length_drop.
Qed.

End Broadcaster.

Section BroadcasterExamples.
#[local] Existing Instance Mined.Demo.lib.

Lemma broadcastAll_journals_rest_witness :
  exists wend,
    Broadcast.broadcastAll Mined.Demo.helloChain false Mined.Demo.secondRejected
    = Broadcast.Exited 1 wend /\
    Broadcast.pending wend = Some (map Tx.txToString (drop 1 Mined.Demo.helloChain)) /\
    (exists tx, drop 1 Mined.Demo.helloChain = tx :: drop 2 Mined.Demo.helloChain) /\
    length (drop 1 Mined.Demo.helloChain) = length Mined.Demo.helloChain - 1.
Proof.
  destruct (broadcastAll_journals_rest Mined.Demo.helloChain false Mined.Demo.secondRejected 1
              (default Tx.newTransaction (Mined.Demo.helloChain !! 1))
              Mined.Demo.scriptError
              (Broadcast.World [Broadcast.Rejected Mined.Demo.scriptError] None None)
              (Broadcast.World [] None None))
    as (wend & Hrun & Hpending & Hdrop & Hlen).
  - reflexivity.
  - vm_compute. reflexivity.
  - vm_compute. reflexivity.
  - vm_compute. reflexivity.
  - exists wend. split; [exact Hrun|]. split; [exact Hpending|].
    split; [eexists; exact Hdrop | exact Hlen].
Defined.

End BroadcasterExamples.

(* --------------------------------------------------------------------- *)
(** ** Decimal and hex texts, and words *)
(* --------------------------------------------------------------------- *)

Section Texts.

Lemma append_cons (c : ascii) (a b : string) :
  (String c a +:+ b)%string = String c (a +:+ b)%string.
Proof. reflexivity. Qed.

Lemma append_nil_l (b : string) : (EmptyString +:+ b)%string = b.
Proof. reflexivity. Qed.

Lemma length_append (a b : string) :
  String.length (a +:+ b)%string = String.length a + String.length b.
Proof.
  induction a as [|c a IH]; [reflexivity|].
  rewrite append_cons. simpl. now rewrite IH.
Qed.

(** A word: a text that is not empty and has no white space in it. *)
Fixpoint spaceFree (s : string) : bool :=
  match s with
  | EmptyString => true
  | String c r => negb (JS.isAsciiSpace c) && spaceFree r
  end.

Definition isWord (s : string) : Prop := s <> EmptyString /\ spaceFree s = true.

Lemma spaceFree_append (a b : string) :
  spaceFree (a +:+ b)%string = spaceFree a && spaceFree b.
Proof.
  induction a as [|c a IH]; [reflexivity|].
  rewrite append_cons. simpl. rewrite IH. now rewrite andb_assoc.
Qed.

Lemma isDigit_not_space (c : ascii) : JS.isDigit c = true -> JS.isAsciiSpace c = false.
Proof.
  unfold JS.isDigit, JS.isAsciiSpace. intros H.
  apply andb_true_iff in H as [H1 H2].
  apply N.leb_le in H1. apply N.leb_le in H2.
  apply orb_false_iff. split; [apply N.eqb_neq; lia|].
  apply andb_false_iff. right. apply N.leb_gt. lia.
Qed.

Lemma allDigits_spaceFree (s : string) : JS.allDigits s = true -> spaceFree s = true.
Proof.
  induction s as [|c s IH]; [reflexivity|]. simpl. intros H.
  apply andb_true_iff in H as [Hc Hs].
  now rewrite (isDigit_not_space c Hc), IH.
Qed.

(** *** Decimal texts *)

(** The value of a digit sequence read after [acc]. *)
Fixpoint readUint (acc : Z) (d : Decimal.uint) : Z :=
  match d with
  | Decimal.Nil => acc
  | Decimal.D0 l => readUint (10 * acc + 0) l
  | Decimal.D1 l => readUint (10 * acc + 1) l
  | Decimal.D2 l => readUint (10 * acc + 2) l
  | Decimal.D3 l => readUint (10 * acc + 3) l
  | Decimal.D4 l => readUint (10 * acc + 4) l
  | Decimal.D5 l => readUint (10 * acc + 5) l
  | Decimal.D6 l => readUint (10 * acc + 6) l
  | Decimal.D7 l => readUint (10 * acc + 7) l
  | Decimal.D8 l => readUint (10 * acc + 8) l
  | Decimal.D9 l => readUint (10 * acc + 9) l
  end%Z.

Lemma allDigits_string_of_uint (d : Decimal.uint) :
  JS.allDigits (NilEmpty.string_of_uint d) = true.
Proof. induction d; simpl; auto. Qed.

Lemma readDigits_string_of_uint (d : Decimal.uint) : forall acc,
  JS.readDigits acc (NilEmpty.string_of_uint d) = readUint acc d.
Proof. induction d; intros acc; simpl; auto. Qed.

Lemma readUint_acc (d : Decimal.uint) : forall acc : positive,
  readUint (Zpos acc) d = Zpos (Pos.of_uint_acc d acc).
Proof.
  induction d; intros acc; simpl; try reflexivity;
    match goal with
    | IH : forall acc : positive, _ |- readUint ?z _ = _ =>
        match goal with
        | |- _ = Zpos (Pos.of_uint_acc _ ?p) =>
            replace z with (Zpos p) by lia; apply IH
        end
    end.
Qed.

Lemma readUint_of_uint (d : Decimal.uint) : readUint 0 d = Z.of_N (Pos.of_uint d).
Proof.
  induction d; simpl; try reflexivity; try exact IHd;
    match goal with
    | |- readUint ?z _ = Zpos (Pos.of_uint_acc _ ?p) =>
        change z with (Zpos p); apply readUint_acc
    end.
Qed.

Lemma to_uint_nonnil (n : N) : N.to_uint n <> Decimal.Nil.
Proof.
  destruct n as [|p]; [discriminate|]. apply DecimalPos.Unsigned.to_uint_nonnil.
Qed.

Lemma string_of_uint_nonempty (d : Decimal.uint) :
  d <> Decimal.Nil -> NilEmpty.string_of_uint d <> EmptyString.
Proof. destruct d; simpl; congruence. Qed.

Lemma decimal_nonempty (n : N) : JS.decimal n <> EmptyString.
Proof. apply string_of_uint_nonempty, to_uint_nonnil. Qed.

Lemma decimal_allDigits (n : N) : JS.allDigits (JS.decimal n) = true.
Proof. apply allDigits_string_of_uint. Qed.

Lemma decimal_head (n : N) :
  exists c r, JS.decimal n = String c r /\ JS.isDigit c = true /\ JS.allDigits r = true.
Proof.
  pose proof (decimal_nonempty n) as Hne. pose proof (decimal_allDigits n) as Hd.
  destruct (JS.decimal n) as [|c r]; [congruence|].
  simpl in Hd. apply andb_true_iff in Hd as [Hc Hr]. now exists c, r.
Qed.

Lemma isDigit_not_sign (c : ascii) : JS.isDigit c = true -> c <> "-"%char /\ c <> "+"%char.
Proof. intros H. split; intros ->; discriminate. Qed.

Lemma decimal_isIntegerString (n : N) : Envelope.isIntegerString (JS.decimal n) = true.
Proof.
  destruct (decimal_head n) as (c & r & E & Hc & Hr). rewrite E.
  destruct (isDigit_not_sign c Hc) as [Hm _].
  unfold Envelope.isIntegerString.
  assert (Hd : JS.isDigits (String c r) = true) by (simpl; now rewrite Hc, Hr).
  destruct (Ascii.eqb_spec c "-"%char) as [->|_]; [congruence|].
  destruct c as [[] [] [] [] [] [] [] []]; try exact Hd; congruence.
Qed.

Lemma decimal_parseMarker (n : N) : Envelope.parseMarker (JS.decimal n) = Some (Z.of_N n).
Proof.
  destruct (decimal_head n) as (c & r & E & Hc & Hr).
  pose proof (readDigits_string_of_uint (N.to_uint n) 0) as Hv.
  fold (JS.decimal n) in Hv. rewrite readUint_of_uint in Hv.
  change (Pos.of_uint (N.to_uint n)) with (N.of_uint (N.to_uint n)) in Hv.
  rewrite DecimalN.Unsigned.of_to in Hv.
  destruct (isDigit_not_sign c Hc) as [Hm Hp].
  unfold Envelope.parseMarker.
  assert (Hstrip : JS.stripMinus (JS.decimal n) = JS.decimal n).
  { rewrite E. destruct c as [[] [] [] [] [] [] [] []]; try reflexivity; congruence. }
  rewrite Hstrip. unfold JS.parseInt.
  assert (Hskip : JS.skipAsciiSpace (JS.decimal n) = JS.decimal n).
  { rewrite E. simpl. now rewrite (isDigit_not_space c Hc). }
  rewrite Hskip.
  assert (Hsign : match JS.decimal n with
                  | String "-" u => (true, u)
                  | String "+" u => (false, u)
                  | _ => (false, JS.decimal n)
                  end = (false, JS.decimal n)).
  { rewrite E. destruct c as [[] [] [] [] [] [] [] []]; try reflexivity; congruence. }
  rewrite Hsign. rewrite Hv.
  rewrite E. simpl. now rewrite Hc.
Qed.

Lemma decimal_isWord (n : N) : isWord (JS.decimal n).
Proof.
  split; [apply decimal_nonempty|]. apply allDigits_spaceFree, decimal_allDigits.
Qed.

Lemma decimalZ_isWord (z : Z) : isWord (JS.decimalZ z).
Proof.
  destruct z as [|p|p]; simpl; try apply decimal_isWord.
  split; [discriminate|]. simpl. apply (proj2 (decimal_isWord (N.pos p))).
Qed.

(** *** Hex texts *)

Lemma hexDigit_spaceFree (n : N) : JS.isAsciiSpace (Buf.hexDigit n) = false.
Proof.
  unfold Buf.hexDigit.
  destruct (N.to_nat n) as [|[|[|[|[|[|[|[|[|[|[|[|[|[|[|k]]]]]]]]]]]]]]]; reflexivity.
Qed.

Lemma toHex_spaceFree (b : list byte) : spaceFree (Buf.toHex b) = true.
Proof.
  induction b as [|x b IH]; [reflexivity|]. simpl.
  now rewrite !hexDigit_spaceFree, IH.
Qed.

Lemma toHex_nonempty (b : list byte) : b <> [] -> Buf.toHex b <> EmptyString.
Proof. destruct b; [congruence | discriminate]. Qed.

Lemma toHex_app (a b : list byte) :
  Buf.toHex (a ++ b) = (Buf.toHex a +:+ Buf.toHex b)%string.
Proof.
  induction a as [|x a IH]; [reflexivity|].
  simpl. unfold Buf.hexOfByte. rewrite IH. reflexivity.
Qed.

Lemma fromHex_hexOfByte (x : byte) (rest : string) :
  Buf.fromHex (Buf.hexOfByte x rest) = x :: Buf.fromHex rest.
Proof. destruct x; reflexivity. Qed.

Lemma fromHex_toHex (b : list byte) : Buf.fromHex (Buf.toHex b) = b.
Proof.
  induction b as [|x b IH]; [reflexivity|].
  simpl Buf.toHex. rewrite fromHex_hexOfByte. now rewrite IH.
Qed.

Lemma length_toHex (b : list byte) : String.length (Buf.toHex b) = 2 * length b.
Proof. induction b as [|x b IH]; [reflexivity|]. simpl. rewrite IH. lia. Qed.

(** *** Splitting the assembly into its tokens *)

Lemma scan_word (w : string) : forall rest,
  spaceFree w = true ->
  Walker.scan (w +:+ String " " rest)%string
  = (w, Walker.consWord (fst (Walker.scan rest)) (snd (Walker.scan rest))).
Proof.
  induction w as [|c w IH]; intros rest Hw.
  - rewrite append_nil_l. simpl. now destruct (Walker.scan rest).
  - rewrite append_cons. simpl in Hw. apply andb_true_iff in Hw as [Hc Hw].
    simpl. rewrite (IH rest Hw). apply negb_true_iff in Hc. now rewrite Hc.
Qed.

Lemma scan_last (w : string) :
  spaceFree w = true -> Walker.scan w = (w, []).
Proof.
  induction w as [|c w IH]; intros Hw; [reflexivity|].
  simpl in Hw. apply andb_true_iff in Hw as [Hc Hw].
  simpl. rewrite (IH Hw). apply negb_true_iff in Hc. now rewrite Hc.
Qed.

Lemma consWord_word (w : string) (ws : list string) :
  w <> EmptyString -> Walker.consWord w ws = w :: ws.
Proof. destruct w; [congruence | reflexivity]. Qed.

Lemma scan_joinWords (ws : list string) :
  ws <> [] -> Forall isWord ws ->
  Walker.consWord (fst (Walker.scan (Node.joinWords ws)))
                  (snd (Walker.scan (Node.joinWords ws))) = ws.
Proof.
  induction ws as [|w ws IH]; [congruence|]. intros _ Hall.
  apply Forall_cons in Hall as [[Hne Hsf] Hall].
  destruct ws as [|w' ws'].
  - simpl. rewrite (scan_last w Hsf). simpl. now apply consWord_word.
  - change (Node.joinWords (w :: w' :: ws'))
      with (w +:+ String " " (Node.joinWords (w' :: ws')))%string.
    rewrite (scan_word w _ Hsf). cbn [fst snd].
    rewrite IH by (congruence || assumption). now apply consWord_word.
Qed.

Lemma splitWords_joinWords (ws : list string) :
  ws <> [] -> Forall isWord ws -> Walker.splitWords (Node.joinWords ws) = ws.
Proof.
  intros Hne Hall. unfold Walker.splitWords.
  pose proof (scan_joinWords ws Hne Hall) as H.
  destruct (Walker.scan (Node.joinWords ws)) as [w l]. simpl in H. rewrite H.
  destruct ws; [congruence | reflexivity].
Qed.

Lemma joinWords_truthy (ws : list string) :
  ws <> [] -> Forall isWord ws -> JS.truthy (Node.joinWords ws) = true.
Proof.
  intros Hne Hall. destruct ws as [|w ws]; [congruence|].
  apply Forall_cons in Hall as [[Hw _] _].
  destruct w as [|c w]; [congruence|].
  destruct ws; reflexivity.
Qed.

End Texts.

(* --------------------------------------------------------------------- *)
(** ** How the node prints the elements of an input script *)
(* --------------------------------------------------------------------- *)

Section Rendering.
Import Builder.

Lemma decimalZ_of_N (n : N) : JS.decimalZ (Z.of_N n) = JS.decimal n.
Proof. destruct n; reflexivity. Qed.

Lemma chunkAsm_ord : Node.chunkAsm (bufferToChunk (Buf.ofString "ord")) = "6582895".
Proof. reflexivity. Qed.

(** A marker below 2^15 is printed as its decimal text. *)
Lemma chunkAsm_numberToChunk (n : N) :
  (n < 32768)%N -> Node.chunkAsm (numberToChunk n) = JS.decimal n.
Proof.
  intros Hn. unfold Node.chunkAsm, numberToChunk; simpl.
  destruct (N.leb_spec n 16) as [H16|H16].
  - destruct (N.eqb_spec n 0) as [->|Hz]; [reflexivity|].
    assert (E0 : (80 + n =? 0)%N = false) by (apply N.eqb_neq; lia).
    assert (E1 : ((81 <=? 80 + n) && (80 + n <=? 96))%N = true).
    { apply andb_true_iff; split; apply N.leb_le; lia. }
    rewrite E0, E1. f_equal. lia.
  - destruct (N.ltb_spec n 128) as [H128|H128]; simpl.
    + unfold Node.scriptNum. simpl. rewrite toUint8_small by lia.
      destruct (N.ltb_spec n 128); [|lia].
      rewrite <- decimalZ_of_N. f_equal. lia.
    + unfold Node.scriptNum. simpl. rewrite !toUint8_mod, N.Div0.mod_mod.
      assert (Hhi : (n / 256 < 128)%N) by (apply N.Div0.div_lt_upper_bound; lia).
      rewrite (N.mod_small (n / 256)) by lia.
      destruct (N.ltb_spec (n / 256) 128); [|lia].
      rewrite <- decimalZ_of_N. f_equal.
      pose proof (N.Div0.div_mod n 256). lia.
Qed.

(** A push that the node prints as plain hex: more than four bytes, and
    not of the form of a signature. *)
Definition plainPush (b : list byte) : bool :=
  (4 <? length b) && negb (Node.isSignatureEncoding b).

Lemma chunkAsm_plainPush (b : list byte) :
  plainPush b = true -> Node.chunkAsm (bufferToChunk b) = Buf.toHex b.
Proof.
  unfold plainPush. intros H. apply andb_true_iff in H as [Hlen Hsig].
  apply Nat.ltb_lt in Hlen. apply negb_true_iff in Hsig.
  unfold Node.chunkAsm, bufferToChunk; simpl.
  destruct b as [|x b]; [simpl in Hlen; lia|].
  destruct (Nat.leb_spec (length (x :: b)) 4); [lia|]. now rewrite Hsig.
Qed.

Lemma long_not_signature (b : list byte) :
  73 < length b -> Node.isSignatureEncoding b = false.
Proof.
  intros H. unfold Node.isSignatureEncoding.
  destruct (Nat.leb_spec (length b) 73) as [?|_]; [lia|].
  now rewrite andb_false_r.
Qed.

Lemma allDigits_bracket (a r : string) : JS.allDigits (a +:+ String "[" r)%string = false.
Proof.
  induction a as [|c a IH]; [reflexivity|].
  rewrite append_cons. simpl. rewrite IH. apply andb_false_r.
Qed.

Lemma hexDigit_not_minus (n : N) : Buf.hexDigit n <> "-"%char.
Proof.
  unfold Buf.hexDigit.
  destruct (N.to_nat n) as [|[|[|[|[|[|[|[|[|[|[|[|[|[|[|k]]]]]]]]]]]]]]]; discriminate.
Qed.

Lemma isIntegerString_not_minus (c : ascii) (r : string) :
  c <> "-"%char ->
  Envelope.isIntegerString (String c r) = JS.allDigits (String c r).
Proof.
  intros Hc. unfold Envelope.isIntegerString.
  destruct c as [[] [] [] [] [] [] [] []]; try reflexivity. congruence.
Qed.

(** A signature is not printed as an integer: the node prints it with
    its hash type in brackets. *)
Lemma signature_not_integer (sig : list byte) :
  Node.isSignatureEncoding sig = true ->
  Envelope.isIntegerString (Node.chunkAsm (bufferToChunk sig)) = false.
Proof.
  intros Hsig.
  assert (Hlen : 9 <= length sig).
  { unfold Node.isSignatureEncoding in Hsig.
    destruct (Nat.leb_spec 9 (length sig)) as [H|H]; [exact H|].
    simpl in Hsig. discriminate. }
  unfold Node.chunkAsm, bufferToChunk; simpl.
  destruct sig as [|x sig]; [simpl in Hlen; lia|].
  destruct (Nat.leb_spec (length (x :: sig)) 4); [lia|]. rewrite Hsig.
  remember (Node.hashTypeName _) as name.
  assert (Htake : exists y rest, take (length (x :: sig) - 1) (x :: sig) = y :: rest).
  { simpl length. replace (S (length sig) - 1) with (length sig) by lia.
    destruct sig; [simpl in Hlen; lia|]. simpl. eauto. }
  destruct Htake as (y & rest & ->). simpl Buf.toHex. unfold Buf.hexOfByte.
  rewrite append_cons.
  rewrite isIntegerString_not_minus by apply hexDigit_not_minus.
  rewrite <- append_cons.
  change (String (Buf.hexDigit (Buf.byteN y / 16))
            (String (Buf.hexDigit (Buf.byteN y mod 16)) (Buf.toHex rest)))
    with (Buf.toHex (y :: rest)).
  apply allDigits_bracket.
Qed.

Lemma hashTypeName_spaceFree (t : N) : spaceFree (Node.hashTypeName t) = true.
Proof.
  unfold Node.hashTypeName.
  destruct (N.land t 127 =? 1)%N, (N.land t 127 =? 2)%N, (128 <=? t)%N; reflexivity.
Qed.

Lemma opName_isWord (op : N) : isWord (Node.opName op).
Proof.
  unfold Node.opName.
  destruct (op =? 79)%N; [split; [discriminate | reflexivity]|].
  destruct (op =? 117)%N; [split; [discriminate | reflexivity]|].
  destruct (op =? 135)%N; [split; [discriminate | reflexivity]|].
  destruct (op =? 169)%N; [split; [discriminate | reflexivity]|].
  destruct (op =? 173)%N; split; (discriminate || reflexivity).
Qed.

(** Every token of the assembly is a word. *)
Lemma chunkAsm_isWord (c : chunk) : isWord (Node.chunkAsm c).
Proof.
  unfold Node.chunkAsm. destruct (buf c) as [b|].
  - destruct (Nat.leb_spec (length b) 4) as [Hle|Hgt]; [apply decimalZ_isWord|].
    destruct (Node.isSignatureEncoding b).
    + split.
      * intros E. apply (f_equal String.length) in E.
        rewrite !length_append in E. simpl in E. lia.
      * rewrite !spaceFree_append, toHex_spaceFree, hashTypeName_spaceFree. reflexivity.
    + split; [|apply toHex_spaceFree].
      apply toHex_nonempty. destruct b; [simpl in Hgt; lia | discriminate].
  - destruct (opcodenum c =? 0)%N; [split; [discriminate | reflexivity]|].
    destruct ((81 <=? opcodenum c) && (opcodenum c <=? 96))%N;
      [apply decimal_isWord | apply opName_isWord].
Qed.

Lemma splitWords_scriptAsm (script : list chunk) :
  script <> [] ->
  Walker.splitWords (Node.scriptAsm script) = map Node.chunkAsm script /\
  JS.truthy (Node.scriptAsm script) = true.
Proof.
  intros Hne. unfold Node.scriptAsm.
  assert (Hmap : map Node.chunkAsm script <> []) by (destruct script; [congruence | discriminate]).
  assert (Hall : Forall isWord (map Node.chunkAsm script)).
  { apply Forall_map. apply Forall_forall. intros c _. apply chunkAsm_isWord. }
  split; [now apply splitWords_joinWords | now apply joinWords_truthy].
Qed.

End Rendering.

(* --------------------------------------------------------------------- *)
(** ** The envelope and its partials *)
(* --------------------------------------------------------------------- *)

Section Packing.
Import Builder Tx Inscribe.

(** *** Parts *)

Lemma splitParts_concat (rounds : nat) : forall data,
  length data <= rounds -> concat (splitParts rounds data) = data.
Proof.
  induction rounds as [|rounds IH]; intros data Hlen.
  - destruct data; [reflexivity | simpl in Hlen; lia].
  - destruct data as [|x data]; [reflexivity|].
    change (splitParts (S rounds) (x :: data))
      with (take (MAX_CHUNK_LEN `min` length (x :: data)) (x :: data)
            :: splitParts rounds
                 (drop (length (take (MAX_CHUNK_LEN `min` length (x :: data)) (x :: data)))
                    (x :: data))).
    remember (x :: data) as l eqn:El.
    assert (Hpos : 0 < length l) by (subst l; simpl; lia).
    unfold MAX_CHUNK_LEN.
    assert (Hpart : length (take (240 `min` length l) l) = 240 `min` length l)
      by (rewrite length_take; apply Nat.min_l, Nat.le_min_r).
    rewrite Hpart. cbn [concat]. rewrite IH.
    + apply take_drop.
    + rewrite length_drop.
      destruct (Nat.min_spec 240 (length l)) as [[_ ->]|[_ ->]]; lia.
Qed.

Lemma partsOf_concat (data : list byte) : concat (partsOf data) = data.
Proof. apply splitParts_concat. lia. Qed.

Lemma partsOf_nonempty (data : list byte) : data <> [] -> partsOf data <> [].
Proof.
  unfold partsOf. destruct data as [|x data]; [congruence|]. intros _. discriminate.
Qed.

(** *** The envelope as a first chunk and pairs *)

Definition pairs := list (chunk * chunk).

Fixpoint flat (ps : pairs) : list chunk :=
  match ps with
  | [] => []
  | (a, b) :: ps' => a :: b :: flat ps'
  end.

Lemma flat_app (ps qs : pairs) : flat (ps ++ qs) = flat ps ++ flat qs.
Proof. induction ps as [|[a b] ps IH]; [reflexivity|]. simpl. now rewrite IH. Qed.

Lemma flat_nil (ps : pairs) : flat ps = [] -> ps = [].
Proof. destruct ps as [|[a b] ps]; [reflexivity | discriminate]. Qed.

(** The parts with the number of parts that follow each. *)
Fixpoint countdown (parts : list (list byte)) : list (N * list byte) :=
  match parts with
  | [] => []
  | p :: ps => (nlength ps, p) :: countdown ps
  end.

Definition dataPair (mp : N * list byte) : chunk * chunk :=
  (numberToChunk (fst mp), bufferToChunk (snd mp)).

Definition ordChunk : chunk := bufferToChunk (Buf.ofString "ord").

Definition headerPair (contentType : string) (parts : list (list byte)) : chunk * chunk :=
  (numberToChunk (nlength parts), bufferToChunk (Buf.ofString contentType)).

Lemma imap_countdown (l : list (list byte)) : forall (total off : nat),
  total = off + length l ->
  concat (imap (fun n part =>
                  [numberToChunk (N.of_nat total - N.of_nat (off + n) - 1);
                   bufferToChunk part]) l)
  = flat (map dataPair (countdown l)).
Proof.
  induction l as [|p l IH]; intros total off Htot; [reflexivity|].
  rewrite imap_cons. simpl. f_equal.
  - f_equal. unfold nlength. simpl in Htot. lia.
  - f_equal. rewrite <- (IH total (S off)) by (simpl in Htot; lia).
    f_equal. apply imap_ext. intros n x _. simpl.
    now replace (off + S n) with (S off + n) by lia.
Qed.

Lemma envelope_flat (contentType : string) (parts : list (list byte)) :
  envelope contentType parts
  = ordChunk :: flat (headerPair contentType parts :: map dataPair (countdown parts)).
Proof.
  unfold envelope, headerPair. cbn [flat].
  rewrite <- (imap_countdown parts (length parts) 0) by lia.
  reflexivity.
Qed.

(** *** Sizes *)

Lemma scriptSize_app (a b : list chunk) : scriptSize (a ++ b) = scriptSize a + scriptSize b.
Proof. unfold scriptSize, toBuffer. now rewrite map_app, concat_app, length_app. Qed.

Lemma scriptSize_ord : scriptSize [ordChunk] = 4.
Proof. reflexivity. Qed.

Lemma chunkBytes_numberToChunk (n : N) : length (chunkBytes (numberToChunk n)) <= 3.
Proof.
  unfold chunkBytes, numberToChunk, OP_PUSHDATA1; simpl.
  destruct (n <=? 16)%N; [simpl; lia|].
  destruct (n =? 0)%N, (n <? 128)%N; simpl; lia.
Qed.

Lemma chunkBytes_bufferToChunk (b : list byte) :
  length (chunkBytes (bufferToChunk b)) <= length b + 3.
Proof.
  unfold chunkBytes, bufferToChunk, OP_PUSHDATA1, OP_PUSHDATA2; simpl.
  destruct b as [|x b]; [simpl; lia|].
  set (l := x :: b). set (n := nlength l).
  destruct (N.leb_spec n 75) as [H75|H75].
  - destruct (N.ltb_spec n 76) as [_|H]; [simpl; lia | lia].
  - destruct (N.leb_spec n 255) as [H255|H255].
    + simpl. rewrite ?length_app. simpl. lia.
    + simpl. rewrite ?length_app. simpl. lia.
Qed.

(** *** The inner loop and its correction *)

Lemma pop_snoc (l : list chunk) (c : chunk) : pop (l ++ [c]) = Some (l, c).
Proof.
  unfold pop. rewrite reverse_snoc. now rewrite reverse_involutive.
Qed.

(** What [fill] does on whole pairs: it moves a front group [g] of them,
    and stops with the partial within the limit only if no pair is
    left. *)
Lemma fill_pairs (ps : pairs) : forall partial,
  exists g rest,
    ps = g ++ rest /\
    fill partial (flat ps) = Ok (partial ++ flat g, flat rest) /\
    (scriptSize (partial ++ flat g) <= MAX_PAYLOAD_LEN -> rest = []) /\
    (forall g' p, g = g' ++ [p] -> scriptSize (partial ++ flat g') <= MAX_PAYLOAD_LEN).
Proof.
  induction ps as [|[a b] ps IH]; intros partial.
  - exists [], []. simpl. rewrite app_nil_r.
    split; [reflexivity|]. split; [now destruct (_ <=? _)|].
    split; [reflexivity|]. intros g' p E. now destruct g'.
  - simpl. destruct (Nat.leb_spec (scriptSize partial) MAX_PAYLOAD_LEN) as [Hle|Hgt].
    + destruct (IH (partial ++ [a; b])) as (g & rest & Hps & Hfill & Hall & Hlast).
      exists ((a, b) :: g), rest. simpl.
      replace (partial ++ a :: b :: flat g) with ((partial ++ [a; b]) ++ flat g)
        by (now rewrite <- app_assoc).
      split; [now rewrite Hps|]. split; [exact Hfill|]. split; [exact Hall|].
      intros g' p E. destruct g' as [|q g'].
      * simpl. now rewrite app_nil_r.
      * injection E as <- E. simpl.
        replace (partial ++ a :: b :: flat g') with ((partial ++ [a; b]) ++ flat g')
          by (now rewrite <- app_assoc).
        now apply (Hlast g' p).
    + exists [], ((a, b) :: ps). simpl. rewrite app_nil_r.
      split; [reflexivity|]. split; [reflexivity|].
      split; [lia|]. intros g' p E. now destruct g'.
Qed.

Lemma snoc_cases {A} (l : list A) : l = [] \/ exists l' x, l = l' ++ [x].
Proof.
  induction l as [|x l IH] using rev_ind; [now left|]. right. now exists l, x.
Qed.

(** One partial, from chunks that are [pre] followed by whole pairs: it
    takes a front group of the pairs and leaves the others; the group is
    not empty when [pre] with the first pair is within the limit. *)
Lemma nextPartial_pairs (first : bool) (pre : list chunk) (ps : pairs) :
  (if first then pre = [ordChunk] else pre = []) ->
  exists g rest,
    ps = g ++ rest /\
    nextPartial first (pre ++ flat ps) = Ok (pre ++ flat g, flat rest) /\
    (forall p ps', ps = p :: ps' ->
       scriptSize (pre ++ flat [p]) <= MAX_PAYLOAD_LEN -> g <> []) /\
    (scriptSize (pre ++ flat ps) <= MAX_PAYLOAD_LEN -> rest = []) /\
    (MAX_PAYLOAD_LEN < scriptSize (pre ++ flat ps) -> ps <> [] -> rest <> []).
Proof.
  intros Hpre.
  assert (Hsplit : nextPartial first (pre ++ flat ps)
                   = match fill pre (flat ps) with
                     | Ok (partial, rest) => revert partial rest
                     | Throw e => Throw e
                     end).
  { unfold nextPartial. destruct first; subst pre; [reflexivity|].
    simpl. now destruct (flat ps). }
  assert (Hsmall : scriptSize pre <= MAX_PAYLOAD_LEN).
  { destruct first; subst pre; [rewrite scriptSize_ord|]; unfold MAX_PAYLOAD_LEN;
      [lia | unfold scriptSize, toBuffer; simpl; lia]. }
  rewrite Hsplit.
  destruct (fill_pairs ps pre) as (g & rest & Hps & Hfill & Hall & Hlast).
  rewrite Hfill. unfold revert.
  destruct (Nat.ltb_spec MAX_PAYLOAD_LEN (scriptSize (pre ++ flat g))) as [Hbig|Hfit].
  - destruct (snoc_cases g) as [->|(g' & [a b] & ->)].
    { simpl in Hbig. rewrite app_nil_r in Hbig. lia. }
    rewrite flat_app. simpl flat.
    replace (pre ++ flat g' ++ [a; b]) with (((pre ++ flat g') ++ [a]) ++ [b])
      by (now rewrite <- !app_assoc).
    rewrite pop_snoc, pop_snoc.
    exists g', ((a, b) :: rest). split; [now rewrite Hps, <- app_assoc|].
    split; [reflexivity|]. split; [|split].
    + intros p ps' Eps Hp Hg'. subst g'. simpl in Hps.
      rewrite Hps in Eps. injection Eps as <- _.
      cbn [app flat] in Hbig, Hp. lia.
    + intros Hwhole. exfalso. rewrite Hps, flat_app, app_assoc, scriptSize_app in Hwhole.
      lia.
    + intros _ _. discriminate.
  - exists g, rest. split; [exact Hps|]. split; [reflexivity|].
    specialize (Hall Hfit). subst rest. rewrite app_nil_r in Hps. subst g.
    split; [|split].
    + intros p ps' -> _. discriminate.
    + reflexivity.
    + intros Hbig _. lia.
Qed.

End Packing.

(* --------------------------------------------------------------------- *)
(** ** What funding and signing leave of a transaction *)
(* --------------------------------------------------------------------- *)

Section TxShape.
Import Builder Tx Inscribe.
Context `{Bitcore}.

(** The signatures the library makes have the form of signatures. *)
Definition signaturesWellFormed : Prop :=
  (forall tx key lock,
     Node.isSignatureEncoding (sighashSign tx key lock ++ [Buf.toUint8 SIGHASH_ALL]) = true) /\
  (forall tx key n, Node.isSignatureEncoding (inputSignature tx key n) = true).

(** The script of a wallet input: empty, or a signature and a key. *)
Definition quietScript (s : list chunk) : Prop :=
  s = [] \/
  exists sig pk, s = [bufferToChunk sig; bufferToChunk pk] /\
                 Node.isSignatureEncoding sig = true.

Definition quietWallet (i : input) : Prop :=
  kind i = WalletInput /\ quietScript (script i).

(** A transaction whose first input spends [op] and whose other inputs
    are wallet inputs. *)
Definition spendsFirst (op : string * N) (tx : transaction) : Prop :=
  exists i ws,
    inputs tx = i :: ws /\ prevTxId i = fst op /\ outputIndex i = snd op /\
    Forall quietWallet ws.

(** A transaction whose first output is [o], the change output, if any,
    coming later. *)
Definition firstOutput (o : output) (tx : transaction) : Prop :=
  exists outs,
    outputs tx = o :: outs /\
    (changeIndex tx = None \/ exists k, changeIndex tx = Some (S k)).

Hypothesis Hsig : signaturesWellFormed.

Lemma clearSignatures_spendsFirst op tx :
  spendsFirst op tx -> spendsFirst op (clearSignatures tx).
Proof.
  intros (i & ws & Hin & Hp & Ho & Hws). unfold clearSignatures, spendsFirst. simpl.
  rewrite Hin. simpl. eexists _, _. split; [reflexivity|].
  split; [now destruct (kind i)|]. split; [now destruct (kind i)|].
  apply Forall_map. eapply Forall_impl; [exact Hws|].
  intros x [Hk _]. simpl. rewrite Hk. split; [reflexivity | now left].
Qed.

Lemma updateChangeOutput_spendsFirst op tx :
  spendsFirst op tx -> spendsFirst op (updateChangeOutput tx).
Proof.
  intros Hs. unfold updateChangeOutput.
  destruct (changeScript tx) as [a|]; [|exact Hs].
  apply clearSignatures_spendsFirst in Hs.
  set (tx1 := clearSignatures tx) in *. clearbody tx1.
  destruct Hs as (i & ws & Hin & Hp & Ho & Hws).
  destruct (0 <? _)%Z; unfold spendsFirst; cbn [inputs]; rewrite Hin; eauto 10.
Qed.

Lemma updateChangeOutput_firstOutput o tx :
  firstOutput o tx -> firstOutput o (updateChangeOutput tx).
Proof.
  intros (outs & Hout & Hidx). unfold updateChangeOutput.
  destruct (changeScript tx) as [a|]; [|now exists outs].
  assert (Houts : exists outs',
             match changeIndex (clearSignatures tx) with
             | Some i => delete i (outputs (clearSignatures tx))
             | None => outputs (clearSignatures tx)
             end = o :: outs').
  { simpl. rewrite Hout. destruct Hidx as [->|[k ->]]; simpl; eauto. }
  destruct Houts as (outs' & Houts).
  set (tx1 := clearSignatures tx) in *. clearbody tx1. rewrite Houts.
  destruct (0 <? _)%Z; unfold firstOutput; cbn [outputs changeIndex].
  - eexists. split; [reflexivity|]. right. simpl. eauto.
  - eexists. split; [reflexivity|]. now left.
Qed.

Lemma addInput_first i :
  spendsFirst (prevTxId i, outputIndex i) (addInput i newTransaction).
Proof.
  unfold addInput, newTransaction. simpl.
  exists i, []. simpl. repeat split. constructor.
Qed.

Lemma addOutput_spendsFirst op o tx :
  spendsFirst op tx -> spendsFirst op (addOutput o tx).
Proof.
  intros Hs. unfold addOutput. apply updateChangeOutput_spendsFirst.
  destruct Hs as (i & ws & Hin & Hp & Ho & Hws). now exists i, ws.
Qed.

Lemma addOutput_firstOutput_new o tx :
  outputs tx = [] -> changeIndex tx = None -> firstOutput o (addOutput o tx).
Proof.
  intros Hout Hidx. unfold addOutput. apply updateChangeOutput_firstOutput.
  exists []. simpl. rewrite Hout. split; [reflexivity | now left].
Qed.

Lemma change_spendsFirst op a tx :
  spendsFirst op tx -> spendsFirst op (change a tx).
Proof.
  intros Hs. unfold change. apply updateChangeOutput_spendsFirst.
  destruct Hs as (i & ws & Hin & Hp & Ho & Hws). now exists i, ws.
Qed.

Lemma change_firstOutput o a tx :
  firstOutput o tx -> firstOutput o (change a tx).
Proof.
  intros Hf. unfold change. apply updateChangeOutput_firstOutput.
  destruct Hf as (outs & Hout & Hidx). now exists outs.
Qed.

Lemma from_spendsFirst op u tx :
  spendsFirst op tx -> spendsFirst op (from u tx).
Proof.
  intros Hs. unfold from. destruct (existsb _ _); [exact Hs|].
  unfold addInput. apply updateChangeOutput_spendsFirst.
  destruct Hs as (i & ws & Hin & Hp & Ho & Hws).
  exists i, (ws ++ [Input (utxoTxid u) (vout u)
                      (Output (utxoScript u) (utxoSatoshis u)) WalletInput []]).
  simpl. rewrite Hin. split; [reflexivity|]. split; [exact Hp|]. split; [exact Ho|].
  apply Forall_app. split; [exact Hws|]. constructor; [|constructor].
  split; [reflexivity | now left].
Qed.

Lemma from_firstOutput o u tx :
  firstOutput o tx -> firstOutput o (from u tx).
Proof.
  intros Hf. unfold from. destruct (existsb _ _); [exact Hf|].
  unfold addInput. apply updateChangeOutput_firstOutput.
  destruct Hf as (outs & Hout & Hidx). now exists outs.
Qed.

Lemma Forall_imap_wallet {A} (P Q : A -> Prop) (l : list A) : forall f : nat -> A -> A,
  (forall n x, P x -> Q (f n x)) -> Forall P l -> Forall Q (imap f l).
Proof.
  induction l as [|x l IH]; intros f Hf Hall; [constructor|].
  apply Forall_cons in Hall as [Hx Hl]. rewrite imap_cons.
  constructor; [now apply Hf|]. apply IH; [|exact Hl].
  intros n y. apply Hf.
Qed.

Lemma sign_spendsFirst op key tx :
  spendsFirst op tx -> spendsFirst op (sign key tx).
Proof.
  intros (i & ws & Hin & Hp & Ho & Hws). unfold sign, spendsFirst. simpl.
  rewrite Hin, imap_cons. eexists _, _. split; [reflexivity|].
  split; [now destruct (kind i)|]. split; [now destruct (kind i)|].
  eapply Forall_imap_wallet; [|exact Hws].
  intros n x [Hk _]. simpl. rewrite Hk. split; [reflexivity|].
  right. eexists _, _. split; [reflexivity|]. apply (proj2 Hsig).
Qed.

Lemma sign_firstOutput o key tx :
  firstOutput o tx -> firstOutput o (sign key tx).
Proof. intros (outs & Hout & Hidx). now exists outs. Qed.

Lemma fundLoop_spendsFirst op w us : forall tx,
  spendsFirst op tx -> spendsFirst op (fundLoop w us tx).
Proof.
  induction us as [|u us IH]; intros tx Hs; [exact Hs|].
  simpl. destruct (funded tx); [exact Hs|].
  apply IH. now apply sign_spendsFirst, change_spendsFirst, from_spendsFirst.
Qed.

Lemma fundLoop_firstOutput o w us : forall tx,
  firstOutput o tx -> firstOutput o (fundLoop w us tx).
Proof.
  induction us as [|u us IH]; intros tx Hf; [exact Hf|].
  simpl. destruct (funded tx); [exact Hf|].
  apply IH. now apply sign_firstOutput, change_firstOutput, from_firstOutput.
Qed.

Lemma fund_spendsFirst op w tx tx' :
  spendsFirst op tx -> fund w tx = Ok tx' -> spendsFirst op tx'.
Proof.
  intros Hs. unfold fund. destruct (_ <? _)%Z; [discriminate|].
  intros [= <-]. now apply fundLoop_spendsFirst, change_spendsFirst.
Qed.

Lemma fund_firstOutput o w tx tx' :
  firstOutput o tx -> fund w tx = Ok tx' -> firstOutput o tx'.
Proof.
  intros Hf. unfold fund. destruct (_ <? _)%Z; [discriminate|].
  intros [= <-]. now apply fundLoop_firstOutput, change_firstOutput.
Qed.

(** A transaction that spends output 0 of the transaction with hash
    [prev] by the unlock script of [partial]. *)
Definition unlocks (prev : string) (partial : list chunk) (tx : transaction) : Prop :=
  exists i ws sig lockBytes,
    inputs tx = i :: ws /\ prevTxId i = prev /\ outputIndex i = 0%N /\
    script i = partial ++ [bufferToChunk sig; bufferToChunk lockBytes] /\
    Node.isSignatureEncoding sig = true /\
    Forall quietWallet ws.

Lemma setScript0_unlocks prev key partial lock tx :
  spendsFirst (prev, 0%N) tx ->
  unlocks prev partial (setScript0 (unlockFor key tx partial lock) tx).
Proof.
  intros (i & ws & Hin & Hp & Ho & Hws). unfold unlocks, setScript0. simpl.
  rewrite Hin. eexists _, ws, _, _. split; [reflexivity|]. simpl.
  split; [exact Hp|]. split; [exact Ho|]. split; [reflexivity|].
  split; [apply (proj1 Hsig) | exact Hws].
Qed.

Lemma setScript0_firstOutput o unlock tx :
  firstOutput o tx -> firstOutput o (setScript0 unlock tx).
Proof. intros (outs & Hout & Hidx). now exists outs. Qed.

Lemma p2shInputOn_firstOutput o tx :
  firstOutput o tx -> p2shInputOn tx = Some (Input (txHash tx) 0 o ScriptInput []).
Proof. intros (outs & Hout & _). unfold p2shInputOn. now rewrite Hout. Qed.

End TxShape.

(* --------------------------------------------------------------------- *)
(** ** The chain [inscribe] builds *)
(* --------------------------------------------------------------------- *)

Section ChainStructure.
Import Builder Tx Inscribe.
Context `{Bitcore}.
Hypothesis Hsig : signaturesWellFormed.

(** Transactions that each spend output 0 of the one before, the first
    of them that of the transaction with hash [prev], and that carry the
    given partials in this order. *)
Inductive Links : string -> list (list chunk) -> list transaction -> Prop :=
| Links_nil prev : Links prev [] []
| Links_cons prev q qs t ts :
    unlocks prev q t -> Links (txHash t) qs ts -> Links prev (q :: qs) (t :: ts).

Definition lastHash (first : string) (ts : list transaction) : string :=
  default first (txHash <$> last ts).

Lemma lastHash_cons first t ts : lastHash first (t :: ts) = lastHash (txHash t) ts.
Proof.
  unfold lastHash. destruct ts as [|t0 ts]; [reflexivity|].
  change (last (t :: t0 :: ts)) with (last (t0 :: ts)).
  destruct (last (t0 :: ts)) eqn:E; [reflexivity|].
  apply last_None in E. discriminate.
Qed.

Lemma lastHash_snoc first ts t : lastHash first (ts ++ [t]) = txHash t.
Proof. unfold lastHash. now rewrite last_snoc. Qed.

Lemma Links_snoc prev qs ts q t :
  Links prev qs ts -> unlocks (lastHash prev ts) q t -> Links prev (qs ++ [q]) (ts ++ [t]).
Proof.
  induction 1 as [prev|prev q' qs t' ts Hu _ IH]; intros Hq; simpl.
  - constructor; [exact Hq | constructor].
  - constructor; [exact Hu|]. apply IH. now rewrite <- lastHash_cons with (first := prev).
Qed.

Lemma Links_length prev qs ts : Links prev qs ts -> length ts = length qs.
Proof. induction 1; simpl; congruence. Qed.

(** The partial of a group of pairs, and the partials of the groups of an
    envelope, the first of which begins with the chunk [ord]. *)
Definition partialOf (first : bool) (g : pairs) : list chunk :=
  if first then ordChunk :: flat g else flat g.

Fixpoint partials (first : bool) (gs : list pairs) : list (list chunk) :=
  match gs with
  | [] => []
  | g :: gs' => partialOf first g :: partials false gs'
  end.

Definition isNil {A} (l : list A) : bool :=
  match l with
  | [] => true
  | _ => false
  end.

Lemma partials_snoc (gs : list pairs) : forall first g,
  partials first (gs ++ [g]) = partials first gs ++ [partialOf (first && isNil gs) g].
Proof.
  induction gs as [|g' gs IH]; intros first g; simpl.
  - now rewrite andb_true_r.
  - rewrite IH. simpl. now rewrite andb_false_r.
Qed.

Lemma partials_length first gs : length (partials first gs) = length gs.
Proof. revert first. induction gs; intros; simpl; congruence. Qed.

(** *** One round, and the reveal *)

Lemma addInput_inputs_new i : addInput i newTransaction = Transaction [i] [] None None.
Proof. reflexivity. Qed.

Lemma round_first st st' :
  txs st = [] -> p2shInput st = None -> round st = Ok st' ->
  exists partial rest tx o,
    nextPartial true (chunks st) = Ok (partial, rest) /\
    txs st' = [tx] /\ chunks st' = rest /\ lastPartial st' = partial /\
    p2shInput st' = Some (Input (txHash tx) 0 o ScriptInput []).
Proof.
  intros Htxs Hp2sh. unfold round. rewrite Htxs, Hp2sh. simpl.
  destruct (nextPartial true (chunks st)) as [[partial rest]|e]; [|discriminate].
  destruct (fund _ _) as [funded|e] eqn:Hfund; [|discriminate].
  assert (Hout : firstOutput (p2shOutputFor (lockFor (privkey (purse st)) partial)) funded).
  { eapply fund_firstOutput; [|exact Hfund].
    now apply addOutput_firstOutput_new. }
  rewrite (p2shInputOn_firstOutput _ _ Hout). intros [= <-]. simpl.
  eexists _, _, _, _. repeat split.
Qed.

Lemma round_next st st' i :
  txs st <> [] -> p2shInput st = Some i -> outputIndex i = 0%N -> round st = Ok st' ->
  exists partial rest tx o,
    nextPartial false (chunks st) = Ok (partial, rest) /\
    txs st' = txs st ++ [tx] /\ chunks st' = rest /\ lastPartial st' = partial /\
    p2shInput st' = Some (Input (txHash tx) 0 o ScriptInput []) /\
    unlocks (prevTxId i) (lastPartial st) tx.
Proof.
  intros Htxs Hp2sh Hidx. unfold round. rewrite Hp2sh.
  assert (E : (length (txs st) =? 0) = false) by (destruct (txs st); [congruence | reflexivity]).
  rewrite E.
  destruct (nextPartial false (chunks st)) as [[partial rest]|e]; [|discriminate].
  destruct (fund _ _) as [funded|e] eqn:Hfund; [|discriminate].
  set (lock := lockFor (privkey (purse st)) partial) in *.
  assert (Hout : firstOutput (p2shOutputFor lock) funded).
  { eapply fund_firstOutput; [|exact Hfund].
    apply addOutput_firstOutput_new; reflexivity. }
  assert (Hin : spendsFirst (prevTxId i, 0%N) funded).
  { eapply fund_spendsFirst; [exact Hsig| |exact Hfund].
    apply addOutput_spendsFirst. rewrite <- Hidx. apply addInput_first. }
  set (tx := setScript0 _ funded).
  assert (Hout' : firstOutput (p2shOutputFor lock) tx) by now apply setScript0_firstOutput.
  rewrite (p2shInputOn_firstOutput _ _ Hout'). intros [= <-]. simpl.
  eexists _, _, tx, _. repeat split.
  now apply setScript0_unlocks.
Qed.

Lemma reveal_step destination st st' i :
  p2shInput st = Some i -> outputIndex i = 0%N -> reveal destination st = Ok st' ->
  exists tx,
    txs st' = txs st ++ [tx] /\
    unlocks (prevTxId i) (lastPartial st) tx /\
    firstOutput (Output (AddressOut destination) 100000) tx.
Proof.
  intros Hp2sh Hidx. unfold reveal. rewrite Hp2sh.
  destruct (fund _ _) as [funded|e] eqn:Hfund; [|discriminate].
  assert (Hout : firstOutput (Output (AddressOut destination) 100000) funded).
  { eapply fund_firstOutput; [|exact Hfund].
    unfold to. apply addOutput_firstOutput_new; reflexivity. }
  assert (Hin : spendsFirst (prevTxId i, 0%N) funded).
  { eapply fund_spendsFirst; [exact Hsig| |exact Hfund].
    unfold to. apply addOutput_spendsFirst. rewrite <- Hidx. apply addInput_first. }
  intros [= <-]. simpl. eexists. split; [reflexivity|].
  split; [now apply setScript0_unlocks | now apply setScript0_firstOutput].
Qed.

(** *** The rounds *)

Variable ps : pairs.

(** The whole envelope fits one partial. *)
Definition fits : Prop := scriptSize (ordChunk :: flat ps) <= MAX_PAYLOAD_LEN.

Definition firstGroupNonEmpty (gs : list pairs) : Prop :=
  match gs with
  | g :: _ => g <> []
  | [] => False
  end.

(** What holds between the rounds, once the first transaction is made:
    the transactions so far reveal the partials of the groups [gs]; the
    partial of [g] waits for the next transaction; the pairs [rest] are
    still to be packed. *)
Definition between (st : state) : Prop :=
  exists t0 ts gs g rest i,
    txs st = t0 :: ts /\
    Links (txHash t0) (partials true gs) ts /\
    lastPartial st = partialOf (isNil gs) g /\
    p2shInput st = Some i /\ prevTxId i = lastHash (txHash t0) ts /\ outputIndex i = 0%N /\
    concat gs ++ g ++ rest = ps /\
    chunks st = flat rest /\
    firstGroupNonEmpty (gs ++ [g]) /\
    (gs = [] -> (rest = [] <-> fits)) /\
    (gs <> [] -> ~ fits).

Lemma between_round st st' :
  between st -> chunks st <> [] -> round st = Ok st' -> between st'.
Proof.
  intros (t0 & ts & gs & g & rest & i & Htxs & Hlinks & Hlast & Hp2sh & Hprev & Hidx
          & Hps & Hchunks & Hfirst & Hfit1 & Hfit2) Hne Hround.
  destruct (round_next st st' i) as (partial & rest' & tx & o & Hnext & Htxs' & Hchunks'
                                     & Hlast' & Hp2sh' & Hunlock); try assumption.
  { rewrite Htxs. discriminate. }
  destruct (nextPartial_pairs false [] rest eq_refl)
    as (g' & rest'' & Hrest & Hnp & _ & _ & _).
  simpl in Hnp. rewrite Hchunks in Hnext. rewrite Hnp in Hnext.
  injection Hnext as <- <-.
  assert (Hrestne : rest <> []).
  { intros ->. apply Hne. now rewrite Hchunks. }
  exists t0, (ts ++ [tx]), (gs ++ [g]), g', rest'',
    (Input (txHash tx) 0 o ScriptInput []).
  split; [now rewrite Htxs', Htxs|].
  split.
  { rewrite partials_snoc. apply Links_snoc; [exact Hlinks|].
    simpl. rewrite <- Hprev, <- Hlast. exact Hunlock. }
  split.
  { rewrite Hlast'. unfold partialOf.
    assert (E : isNil (gs ++ [g]) = false) by (destruct gs; reflexivity).
    now rewrite E. }
  split; [exact Hp2sh'|]. split; [simpl; now rewrite lastHash_snoc|].
  split; [reflexivity|].
  split.
  { rewrite concat_app. simpl. rewrite app_nil_r, <- Hps, Hrest.
    now rewrite <- !app_assoc. }
  split; [exact Hchunks'|].
  split.
  { destruct gs; simpl in *; exact Hfirst. }
  split.
  { intros E. destruct gs; discriminate. }
  intros _. destruct gs as [|g0 gs].
  - intros Hf. apply Hrestne. now apply Hfit1.
  - apply Hfit2. discriminate.
Qed.

Lemma between_rounds (n : nat) : forall st st',
  between st -> rounds n st = Some (Ok st') -> between st' /\ chunks st' = [].
Proof.
  induction n as [|n IH]; intros st st' Hb Hr.
  - simpl in Hr. destruct (chunks st) eqn:E; [|discriminate].
    injection Hr as <-. now split.
  - simpl in Hr. destruct (chunks st) eqn:E.
    + injection Hr as <-. now split.
    + destruct (round st) as [st1|e] eqn:Hround; [|discriminate].
      apply (IH st1 st'); [|exact Hr].
      apply (between_round st st1 Hb); [|exact Hround]. rewrite E. discriminate.
Qed.

End ChainStructure.

Section InscribeChain.
Import Builder Tx Inscribe.
Context `{Bitcore}.
Hypothesis Hsig : signaturesWellFormed.

(** The pairs of an envelope: the number of parts with the content
    type, then every part with the number of parts after it. *)
Definition envelopePairs (contentType : string) (data : list byte) : pairs :=
  headerPair contentType (partsOf data) :: map dataPair (countdown (partsOf data)).

Lemma header_fits (contentType : string) (parts : list (list byte)) :
  length (Buf.ofString contentType) <= MAX_SCRIPT_ELEMENT_SIZE ->
  scriptSize ([ordChunk] ++ flat [headerPair contentType parts]) <= MAX_PAYLOAD_LEN.
Proof.
  intros Hct. unfold headerPair. cbn [app flat].
  unfold scriptSize, toBuffer. cbn [map concat]. rewrite !length_app.
  pose proof (chunkBytes_numberToChunk (nlength parts)).
  pose proof (chunkBytes_bufferToChunk (Buf.ofString contentType)).
  change (length (chunkBytes ordChunk)) with 4.
  unfold MAX_SCRIPT_ELEMENT_SIZE, MAX_PAYLOAD_LEN in *. cbn [length]. lia.
Qed.

(** What [inscribe] returns, when it returns: a first transaction and,
    after it, one transaction for each partial of the envelope, each
    spending output 0 of the one before and unlocking it with the
    partial; the last of them pays the destination.  There are two
    transactions exactly when the whole envelope fits one partial. *)
Lemma inscribe_structure w destination contentType data txs w' :
  length (Buf.ofString contentType) <= MAX_SCRIPT_ELEMENT_SIZE ->
  inscribe w destination contentType data = Some (Ok (txs, w')) ->
  exists t0 ts gs final,
    txs = t0 :: ts /\
    Links (txHash t0) (partials true gs) ts /\
    concat gs = envelopePairs contentType data /\
    firstGroupNonEmpty gs /\
    (length gs = 1 <-> fits (envelopePairs contentType data)) /\
    last ts = Some final /\
    firstOutput (Output (AddressOut destination) 100000) final.
Proof.
  intros Hct. unfold inscribe.
  set (ps := envelopePairs contentType data).
  set (st0 := initial w contentType data).
  assert (Hchunks0 : chunks st0 = [ordChunk] ++ flat ps) by apply envelope_flat.
  destruct (rounds (length (chunks st0)) st0) as [[st|e]|] eqn:Hrounds; try discriminate.
  destruct (reveal destination st) as [st'|e] eqn:Hreveal; [|discriminate].
  intros [= <- <-].
  (* the first round *)
  rewrite Hchunks0 in Hrounds. cbn [length app] in Hrounds.
  cbn [rounds] in Hrounds. rewrite Hchunks0 in Hrounds. cbn [app] in Hrounds.
  destruct (round st0) as [st1|e] eqn:Hround0; [|discriminate].
  destruct (round_first st0 st1 eq_refl eq_refl Hround0)
    as (partial & rest0 & tx0 & o & Hnext & Htxs1 & Hchunks1 & Hlast1 & Hp2sh1).
  destruct (nextPartial_pairs true [ordChunk] ps eq_refl)
    as (g0 & rest & Hps & Hnp & Hg0 & Hfit & Hnofit).
  rewrite Hchunks0, Hnp in Hnext. injection Hnext as <- <-.
  assert (Hb1 : between ps st1).
  { exists tx0, [], [], g0, rest, (Input (txHash tx0) 0 o ScriptInput []).
    split; [exact Htxs1|]. split; [constructor|].
    split; [now rewrite Hlast1|]. split; [exact Hp2sh1|].
    split; [reflexivity|]. split; [reflexivity|].
    split; [now rewrite Hps|]. split; [exact Hchunks1|].
    split.
    { simpl. apply (Hg0 (headerPair contentType (partsOf data))
                       (map dataPair (countdown (partsOf data))) eq_refl).
      now apply header_fits. }
    split; [|intros E; congruence].
    intros _. unfold fits. split.
    - intros ->. destruct (Nat.le_gt_cases (scriptSize (ordChunk :: flat ps)) MAX_PAYLOAD_LEN)
        as [Hle|Hgt]; [exact Hle|].
      exfalso. apply (Hnofit Hgt); [discriminate | reflexivity].
    - intros Hle. now apply Hfit. }
  destruct (between_rounds Hsig ps _ st1 st Hb1 Hrounds) as [Hb Hdone].
  destruct Hb as (t0 & ts & gs & g & rest' & i & Htxs & Hlinks & Hlast & Hp2sh & Hprev
                  & Hidx & Hcat & Hchunks & Hfirst & Hfit1 & Hfit2).
  rewrite Hchunks in Hdone. apply flat_nil in Hdone. subst rest'.
  rewrite app_nil_r in Hcat.
  destruct (reveal_step Hsig destination st st' i Hp2sh Hidx Hreveal)
    as (tx & Htxs' & Hunlock & Hout).
  exists t0, (ts ++ [tx]), (gs ++ [g]), tx.
  split; [now rewrite Htxs', Htxs|].
  split.
  { rewrite partials_snoc. apply Links_snoc; [exact Hlinks|].
    simpl. rewrite <- Hprev, <- Hlast. exact Hunlock. }
  split; [now rewrite concat_app; simpl; rewrite app_nil_r|].
  split; [exact Hfirst|].
  split; [|split; [apply last_snoc | exact Hout]].
  rewrite length_app. simpl. destruct gs as [|g1 gs].
  - split; [intros _; now apply Hfit1 | reflexivity].
  - split; [simpl; lia|]. intros Hf. exfalso. apply Hfit2; [discriminate | exact Hf].
Qed.

End InscribeChain.

(* --------------------------------------------------------------------- *)
(** ** The rounds of [inscribe] come to an end *)
(* --------------------------------------------------------------------- *)

Section InscribeReturns.
Import Builder Tx Inscribe.
Context `{Bitcore}.

Lemma splitParts_short (rounds : nat) : forall data,
  Forall (fun p => length p <= MAX_CHUNK_LEN) (splitParts rounds data).
Proof.
  induction rounds as [|rounds IH]; intros data; [constructor|].
  destruct data as [|x data]; [constructor|].
  cbn [splitParts]. constructor; [|apply IH].
  rewrite length_take. apply Nat.le_trans with (MAX_CHUNK_LEN `min` length (x :: data)).
  - apply Nat.le_min_l.
  - apply Nat.le_min_l.
Qed.

(** A pair that fits a partial on its own. *)
Definition smallPair (p : chunk * chunk) : Prop :=
  scriptSize (flat [p]) <= MAX_PAYLOAD_LEN.

Lemma dataPair_small (mp : N * list byte) :
  length (snd mp) <= MAX_CHUNK_LEN -> smallPair (dataPair mp).
Proof.
  intros Hlen. unfold smallPair, dataPair, scriptSize, toBuffer. cbn [flat map concat].
  rewrite !length_app. cbn [length].
  pose proof (chunkBytes_numberToChunk (fst mp)).
  pose proof (chunkBytes_bufferToChunk (snd mp)).
  unfold MAX_CHUNK_LEN, MAX_PAYLOAD_LEN in *. lia.
Qed.

Lemma countdown_short (parts : list (list byte)) :
  Forall (fun p => length p <= MAX_CHUNK_LEN) parts ->
  Forall smallPair (map dataPair (countdown parts)).
Proof.
  induction 1 as [|p parts Hp _ IH]; [constructor|].
  cbn [countdown map]. constructor; [now apply dataPair_small | exact IH].
Qed.

Lemma length_flat (ps : pairs) : length (flat ps) = 2 * length ps.
Proof. induction ps as [|[a b] ps IH]; [reflexivity|]. simpl. rewrite IH. lia. Qed.

Lemma round_chunks (st st' : state) :
  round st = Ok st' ->
  exists partial,
    nextPartial (Nat.eqb (length (txs st)) 0) (chunks st) = Ok (partial, chunks st') /\
    txs st' <> [].
Proof.
  unfold round.
  destruct (nextPartial _ (chunks st)) as [[partial rest]|e]; [|discriminate].
  destruct (fund _ _) as [funded|e]; [|discriminate].
  destruct (p2shInputOn _) as [next|]; [|discriminate].
  intros [= <-]. exists partial. split; [reflexivity|]. cbn [txs].
  destruct (txs st); discriminate.
Qed.

(** After the first round every round packs at least one pair, so that
    as many rounds as there are pairs left empty the chunks, unless one
    of them throws. *)
Lemma rounds_return (n : nat) : forall st rest,
  chunks st = flat rest -> Forall smallPair rest -> txs st <> [] ->
  length rest <= n -> rounds n st <> None.
Proof.
  induction n as [|n IH]; intros st rest Hchunks Hsmall Htxs Hlen.
  - destruct rest; [|simpl in Hlen; lia]. simpl. now rewrite Hchunks.
  - cbn [rounds]. destruct (chunks st) as [|c cs] eqn:Hc; [discriminate|].
    destruct (round st) as [st'|e] eqn:Hround; [|discriminate].
    destruct (round_chunks st st' Hround) as (partial & Hnext & Htxs').
    assert (Hfirst : Nat.eqb (length (txs st)) 0 = false)
      by (destruct (txs st); [congruence | reflexivity]).
    rewrite Hfirst, Hc, Hchunks in Hnext.
    destruct (nextPartial_pairs false [] rest eq_refl)
      as (g & rest' & Hrest & Hnp & Hg & _ & _).
    cbn [app] in Hnp. rewrite Hnp in Hnext. injection Hnext as _ Hrest'.
    destruct rest as [|p ps]; [rewrite Hchunks in Hc; discriminate|].
    assert (Hgne : g <> []).
    { apply (Hg p ps eq_refl). apply Forall_cons in Hsmall as [Hp _]. exact Hp. }
    apply (IH st' rest'); [now symmetry | | exact Htxs' |].
    + rewrite Hrest in Hsmall. now apply Forall_app in Hsmall as [_ Hsmall].
    + apply (f_equal (@length _)) in Hrest. rewrite length_app in Hrest.
      destruct g; [congruence|]. simpl in *. lia.
Qed.

(** X13.  The loops of [inscribe] come to an end for a content type of
    at most [MAX_SCRIPT_ELEMENT_SIZE] (520) bytes, which the length
    check of [mint] lets through: the header then fits the first
    partial and every later round packs at least one pair, so that
    [inscribe] returns its transactions or throws, within as many
    rounds as the envelope has chunks. *)
Lemma inscribe_returns w destination contentType data :
  length (Buf.ofString contentType) <= MAX_SCRIPT_ELEMENT_SIZE ->
  inscribe w destination contentType data <> None.
Proof.
  intros Hct. unfold inscribe.
  set (ps := headerPair contentType (partsOf data)
             :: map dataPair (countdown (partsOf data))).
  set (st0 := initial w contentType data).
  assert (Hchunks0 : chunks st0 = [ordChunk] ++ flat ps) by apply envelope_flat.
  assert (Hsmall : Forall smallPair ps).
  { constructor; [|apply countdown_short, splitParts_short].
    pose proof (header_fits contentType (partsOf data) Hct) as Hh.
    rewrite scriptSize_app in Hh. unfold smallPair. lia. }
  assert (Hrounds : rounds (length (chunks st0)) st0 <> None).
  { rewrite Hchunks0. cbn [app length rounds]. rewrite Hchunks0. cbn [app].
    destruct (round st0) as [st1|e] eqn:Hround; [|discriminate].
    destruct (round_chunks st0 st1 Hround) as (partial & Hnext & Htxs1).
    change (Nat.eqb (length (txs st0)) 0) with true in Hnext.
    destruct (nextPartial_pairs true [ordChunk] ps eq_refl)
      as (g & rest & Hps & Hnp & _).
    rewrite Hchunks0, Hnp in Hnext. injection Hnext as _ Hrest.
    apply (rounds_return _ st1 rest); [now symmetry | | exact Htxs1 |].
    - rewrite Hps in Hsmall. now apply Forall_app in Hsmall as [_ Hsmall].
    - rewrite length_flat. apply (f_equal (@length _)) in Hps.
      rewrite length_app in Hps. lia. }
  destruct (rounds (length (chunks st0)) st0) as [[st|e]|]; [| |congruence].
  - now destruct (reveal destination st).
  - discriminate.
Qed.

End InscribeReturns.

Section InscribeReturnsExample.
#[local] Existing Instance Mined.Demo.lib.

Lemma inscribe_returns_witness :
  Inscribe.inscribe Mined.Demo.wallet Mined.Demo.destination "text/plain"
    Mined.Demo.longPayload <> None.
Proof.
  apply (inscribe_returns Mined.Demo.wallet Mined.Demo.destination "text/plain"
           Mined.Demo.longPayload).
  vm_compute; lia.
Defined.

End InscribeReturnsExample.
(* --------------------------------------------------------------------- *)
(** ** The node's answers, and the search for a spender *)
(* --------------------------------------------------------------------- *)

Section FindSpender.
Import Walker.

(** A transaction with an input on output [vout] of [id]. *)
Definition spendsIt (id : string) (vout : N) (t : Node.rawTx) : Prop :=
  exists v, v ∈ Node.rawVin t /\ Node.vinTxid v = id /\ Node.vinVout v = vout.

Lemma existsb_spendsIt (id : string) (vout : N) (t : Node.rawTx) :
  existsb (spendsOutput id vout) (Node.rawVin t) = true <-> spendsIt id vout t.
Proof.
  unfold spendsIt. rewrite existsb_exists. split.
  - intros (v & Hin & Hv). exists v. unfold spendsOutput in Hv.
    apply andb_true_iff in Hv as [Ht Ho].
    apply String.eqb_eq in Ht. apply N.eqb_eq in Ho.
    split; [now apply list_elem_of_In|]. now split.
  - intros (v & Hin & Ht & Ho). exists v. split; [now apply list_elem_of_In|].
    unfold spendsOutput. rewrite Ht, Ho, String.eqb_refl, N.eqb_refl. reflexivity.
Qed.

Lemma spenderIn_Some (id : string) (vout : N) (blk : list Node.rawTx) (t : Node.rawTx) :
  spenderIn id vout blk = Some t ->
  exists pre post,
    blk = pre ++ t :: post /\ spendsIt id vout t /\
    Forall (fun t' => ~ spendsIt id vout t') pre.
Proof.
  induction blk as [|t' blk IH]; [discriminate|]. cbn [spenderIn].
  destruct (existsb (spendsOutput id vout) (Node.rawVin t')) eqn:E.
  - intros [= <-]. exists [], blk. split; [reflexivity|].
    split; [now apply existsb_spendsIt | constructor].
  - intros Hs. destruct (IH Hs) as (pre & post & -> & Ht & Hpre).
    exists (t' :: pre), post. split; [reflexivity|]. split; [exact Ht|].
    constructor; [|exact Hpre]. intros Hsp. apply existsb_spendsIt in Hsp. congruence.
Qed.

Lemma spenderIn_None (id : string) (vout : N) (blk : list Node.rawTx) :
  spenderIn id vout blk = None -> Forall (fun t' => ~ spendsIt id vout t') blk.
Proof.
  induction blk as [|t' blk IH]; [constructor|]. cbn [spenderIn].
  destruct (existsb (spendsOutput id vout) (Node.rawVin t')) eqn:E; [discriminate|].
  intros Hs. constructor; [|now apply IH].
  intros Hsp. apply existsb_spendsIt in Hsp. congruence.
Qed.

Lemma scanHeights_Some (n : Node.node) (id : string) (vout : N) (left : nat) :
  forall h hop,
    scanHeights n id vout left h = Some hop ->
    exists blk t,
      h <= height hop < h + left /\
      Node.blocks n !! height hop = Some blk /\
      spenderIn id vout blk = Some t /\
      nextTxid hop = Node.rawTxid t /\ voutIndex hop = vout /\
      forall h' blk', h <= h' < height hop -> Node.blocks n !! h' = Some blk' ->
                      Forall (fun t' => ~ spendsIt id vout t') blk'.
Proof.
  induction left as [|left IH]; intros h hop; [discriminate|]. cbn [scanHeights].
  destruct (Node.blocks n !! h) as [blk|] eqn:Hblk; [|discriminate].
  destruct (spenderIn id vout blk) as [t|] eqn:Hsp.
  - intros [= <-]. cbn [height nextTxid voutIndex]. exists blk, t.
    split; [lia|]. split; [exact Hblk|]. split; [exact Hsp|].
    split; [reflexivity|]. split; [reflexivity|]. intros h' blk' Hh'. lia.
  - intros Hs. destruct (IH (S h) hop Hs) as (blk1 & t & Hh & Hb & Ht & Hid & Hv & Hbefore).
    exists blk1, t. split; [lia|]. split; [exact Hb|]. split; [exact Ht|].
    split; [exact Hid|]. split; [exact Hv|].
    intros h' blk' Hh' Hb'. destruct (Nat.eq_dec h' h) as [->|Hne].
    + rewrite Hblk in Hb'. injection Hb' as <-. now apply spenderIn_None.
    + apply (Hbefore h' blk'); [lia | exact Hb'].
Qed.

(** The search gives up only when no block it may look at, from the
    start height up to the tip, holds a spender. *)
Lemma scanHeights_None (n : Node.node) (id : string) (vout : N) (left : nat) :
  forall h,
    scanHeights n id vout left h = None ->
    forall h' blk', h <= h' < h + left -> Node.blocks n !! h' = Some blk' ->
                    Forall (fun t' => ~ spendsIt id vout t') blk'.
Proof.
  induction left as [|left IH]; intros h Hs h' blk' Hh' Hb'; [lia|].
  cbn [scanHeights] in Hs.
  destruct (Node.blocks n !! h) as [blk|] eqn:Hblk.
  - destruct (spenderIn id vout blk) as [t|] eqn:Hsp; [discriminate|].
    destruct (Nat.eq_dec h' h) as [->|Hne].
    + rewrite Hblk in Hb'. injection Hb' as <-. now apply spenderIn_None.
    + apply (IH (S h) Hs h' blk'); [lia | exact Hb'].
  - apply lookup_ge_None in Hblk. apply lookup_lt_Some in Hb'. lia.
Qed.

End FindSpender.

Section NodeFacts.
Import Builder Tx Mined.
Context `{Bitcore}.

Lemma find_hasTxid (id : string) (blk : list Node.rawTx) (r : Node.rawTx) :
  find (Node.hasTxid id) blk = Some r -> r ∈ blk /\ Node.rawTxid r = id.
Proof.
  intros Hf. apply find_some in Hf as [Hin Hid]. split; [now apply list_elem_of_In|].
  unfold Node.hasTxid in Hid. now apply String.eqb_eq in Hid.
Qed.

Lemma confirmedFrom_block (id : string) (bs : list (list Node.rawTx)) : forall k r h,
  Node.confirmedFrom k bs id = Some (r, h) ->
  k <= h /\ exists blk, bs !! (h - k) = Some blk /\ r ∈ blk.
Proof.
  induction bs as [|blk bs IH]; intros k r h; [discriminate|]. cbn [Node.confirmedFrom].
  destruct (find (Node.hasTxid id) blk) as [t|] eqn:Hf.
  - intros [= <- <-]. split; [lia|]. exists blk. rewrite Nat.sub_diag.
    split; [reflexivity|]. now apply (find_hasTxid id).
  - intros Hc. destruct (IH (S k) r h Hc) as (Hk & blk' & Hb & Hr). split; [lia|].
    exists blk'. split; [|exact Hr].
    replace (h - k) with (S (h - S k)) by lia. exact Hb.
Qed.

(** A transaction the node reports as confirmed at a height is in the
    block at that height. *)
Lemma minedAt_block (n : Node.node) (tx : transaction) (h : nat) :
  minedAt n tx h -> exists blk, Node.blocks n !! h = Some blk /\ rawOf tx ∈ blk.
Proof.
  unfold minedAt, Node.getrawtransaction. intros Hm.
  destruct (Node.confirmedFrom 0 (Node.blocks n) (txHash tx)) as [[r h']|] eqn:Hc.
  - injection Hm as -> ->. apply confirmedFrom_block in Hc as (_ & blk & Hb & Hr).
    rewrite Nat.sub_0_r in Hb. eauto.
  - destruct (find _ _); discriminate.
Qed.

(** The first input of [tx] is on output 0 of [prev]. *)
Lemma spendsFirstOutput_rawOf (prev : string) (tx : transaction) (i : input) (ws : list input) :
  inputs tx = i :: ws -> prevTxId i = prev -> outputIndex i = 0%N ->
  spendsFirstOutput prev (rawOf tx) = true.
Proof.
  intros Hin Hp Ho. unfold spendsFirstOutput. cbn [Node.rawVin rawOf]. rewrite Hin.
  cbn [map existsb]. unfold Walker.spendsOutput at 1, vinOf.
  cbn [Node.vinTxid Node.vinVout]. now rewrite Hp, Ho, String.eqb_refl.
Qed.

Lemma Forall2_block {P : Node.rawTx -> Prop} (bs : list (list Node.rawTx)) (h : nat)
      (blk : list Node.rawTx) (r : Node.rawTx) :
  Forall (Forall P) bs -> bs !! h = Some blk -> r ∈ blk -> P r.
Proof.
  intros Hall Hb Hr. rewrite Forall_forall in Hall.
  assert (Hblk : Forall P blk) by (apply Hall; eapply list_elem_of_lookup_2; exact Hb).
  rewrite Forall_forall in Hblk. now apply Hblk.
Qed.

(** The search for the next hop, from a transaction of a confirmed
    chain: it finds the transaction that spends its output 0. *)
Lemma findNext_mined (n : Node.node) (depth : nat) (tx next : transaction) (h h' : nat)
      (i : input) (ws : list input) :
  minedAt n tx h -> minedAt n next h' -> h <= h' <= h + depth ->
  onlySpentBy n tx next ->
  inputs next = i :: ws -> prevTxId i = txHash tx -> outputIndex i = 0%N ->
  exists at_,
    Walker.findNextOrdinalTx n (txHash tx) 0 depth
    = Some (Walker.NextHop (txHash next) 0 at_).
Proof.
  intros Hm Hm' Hh Honly Hin Hp Ho. unfold Walker.findNextOrdinalTx.
  unfold minedAt in Hm. rewrite Hm.
  destruct (minedAt_block n next h' Hm') as (blk' & Hb' & Hr').
  pose proof (spendsFirstOutput_rawOf (txHash tx) next i ws Hin Hp Ho) as Hsp.
  destruct (Walker.scanHeights n (txHash tx) 0 (S depth) h) as [hop|] eqn:Hs.
  - apply scanHeights_Some in Hs as (blk & t & _ & Hb & Ht & Hid & Hv & _).
    apply spenderIn_Some in Ht as (pre & post & -> & Hspt & _).
    assert (Hname : Node.rawTxid t = txHash next).
    { apply (Forall2_block (Node.blocks n) (Walker.height hop) (pre ++ t :: post) t
               Honly Hb).
      - apply elem_of_app. right. apply list_elem_of_here.
      - now apply existsb_spendsIt. }
    destruct hop as [nt vo at_]. cbn [Walker.nextTxid Walker.voutIndex] in Hid, Hv.
    exists at_. now rewrite Hid, Hv, Hname.
  - exfalso.
    pose proof (scanHeights_None n (txHash tx) 0 (S depth) h Hs h' blk') as Hnone.
    assert (Hno : Forall (fun t' => ~ spendsIt (txHash tx) 0 t') blk')
      by (apply Hnone; [lia | exact Hb']).
    rewrite Forall_forall in Hno. apply (Hno (rawOf next) Hr').
    now apply existsb_spendsIt.
Qed.


End NodeFacts.

(* --------------------------------------------------------------------- *)
(** ** The parser on the tokens of a partial *)
(* --------------------------------------------------------------------- *)

Section PartialTokens.
Import Builder Envelope.

(** The parts with the number of parts that follow each, [k] more parts
    coming after the last of them. *)
Fixpoint countdownFrom (k : nat) (parts : list (list byte)) : list (N * list byte) :=
  match parts with
  | [] => []
  | p :: ps => (N.of_nat (k + length ps), p) :: countdownFrom k ps
  end.

Lemma countdown_from_0 (parts : list (list byte)) : countdown parts = countdownFrom 0 parts.
Proof. induction parts as [|p ps IH]; [reflexivity|]. simpl. now rewrite IH. Qed.

Lemma countdownFrom_app (la lb : list (list byte)) : forall k,
  countdownFrom k (la ++ lb) = countdownFrom (k + length lb) la ++ countdownFrom k lb.
Proof.
  induction la as [|p la IH]; intros k; [reflexivity|]. simpl.
  rewrite IH, length_app. do 2 f_equal. f_equal. lia.
Qed.

Lemma length_countdownFrom (l : list (list byte)) : forall k,
  length (countdownFrom k l) = length l.
Proof. induction l as [|p l IH]; intros k; [reflexivity|]. simpl. now rewrite IH. Qed.

Lemma countdownFrom_parts (l : list (list byte)) : forall k,
  map snd (countdownFrom k l) = l.
Proof. induction l as [|p l IH]; intros k; [reflexivity|]. simpl. now rewrite IH. Qed.

Lemma countdownFrom_split (k : nat) (l : list (list byte)) (a b : list (N * list byte)) :
  countdownFrom k l = a ++ b ->
  exists la lb, l = la ++ lb /\ a = countdownFrom (k + length lb) la /\ b = countdownFrom k lb.
Proof.
  intros E. exists (take (length a) l), (drop (length a) l).
  assert (Hl : l = take (length a) l ++ drop (length a) l) by now rewrite take_drop.
  split; [exact Hl|].
  rewrite Hl, countdownFrom_app in E at 1.
  assert (Hlen : length a <= length l).
  { apply (f_equal (@length _)) in E. rewrite !length_app, !length_countdownFrom in E.
    rewrite length_take, length_drop in E. lia. }
  apply app_inj_1 in E as [E1 E2]; [now split|].
  rewrite length_countdownFrom, length_take. lia.
Qed.

Lemma countdownFrom_markers (l : list (list byte)) : forall k,
  Forall (fun mp => (N.of_nat k <= fst mp < N.of_nat (k + length l))%N) (countdownFrom k l).
Proof.
  induction l as [|p l IH]; intros k; constructor.
  - simpl. lia.
  - eapply Forall_impl; [apply IH|]. intros mp. simpl. lia.
Qed.

(** The tokens of the data pairs of a partial. *)
Definition groupTokens (cg : list (N * list byte)) : list string :=
  flat_map (fun mp => [JS.decimal (fst mp); Buf.toHex (snd mp)]) cg.

Definition printable (mp : N * list byte) : Prop :=
  (fst mp < 32768)%N /\ plainPush (snd mp) = true.

Lemma chunkAsm_group (cg : list (N * list byte)) :
  Forall printable cg ->
  map Node.chunkAsm (flat (map dataPair cg)) = groupTokens cg.
Proof.
  induction 1 as [|[m p] cg [Hm Hp] _ IH]; [reflexivity|].
  cbn [map flat dataPair fst snd groupTokens flat_map app].
  rewrite chunkAsm_numberToChunk by exact Hm.
  rewrite chunkAsm_plainPush by exact Hp. now rewrite IH.
Qed.

Lemma isZero_marker (m : N) : isZero (parseMarker (JS.decimal m)) = (m =? 0)%N.
Proof. rewrite decimal_parseMarker. now destruct m. Qed.

(** Pairs whose markers are not zero are all taken. *)
Lemma consume_group mt (cg : list (N * list byte)) tail :
  Forall (fun mp => fst mp <> 0%N) cg ->
  forall hex found last, exists last',
    consume mt (groupTokens cg ++ tail) hex found last
    = consume mt tail (hex +:+ Buf.toHex (concat (map snd cg)))%string
        (found + Z.of_nat (length cg))%Z last'.
Proof.
  induction 1 as [|[m p] cg Hm _ IH]; intros hex found last.
  - exists last. simpl. now rewrite append_empty_r, Z.add_0_r.
  - cbn [groupTokens flat_map app fst snd consume].
    rewrite decimal_isIntegerString, isZero_marker.
    simpl in Hm. apply N.eqb_neq in Hm. rewrite Hm.
    destruct (IH (hex +:+ Buf.toHex p)%string (found + 1)%Z (parseMarker (JS.decimal m)))
      as (last' & E).
    exists last'. unfold groupTokens in E. rewrite E.
    cbn [map concat snd length]. rewrite toHex_app, append_assoc. f_equal. lia.
Qed.

(** The pair with the marker zero ends the data. *)
Lemma consume_last mt (p : list byte) tail hex found last :
  consume mt (groupTokens [(0%N, p)] ++ tail) hex found last
  = Parsed (hex +:+ Buf.toHex p)%string mt true (found + 1)%Z (Some 0%Z).
Proof. reflexivity. Qed.

Lemma consume_other mt (token : string) tail hex found last :
  isIntegerString token = false ->
  consume mt (token :: tail) hex found last = Parsed hex mt false found last.
Proof. intros E. simpl. now rewrite E. Qed.

(** The data pairs of a partial, followed by the signature: with more
    parts to come, all of them are taken and the data goes on. *)
Lemma consume_more mt (k : nat) (la : list (list byte)) (sig : list byte) tail hex found last :
  0 < k -> Node.isSignatureEncoding sig = true ->
  exists found' last',
    consume mt (groupTokens (countdownFrom k la) ++ Node.chunkAsm (bufferToChunk sig) :: tail)
      hex found last
    = Parsed (hex +:+ Buf.toHex (concat la))%string mt false found' last'.
Proof.
  intros Hk Hsig.
  destruct (consume_group mt (countdownFrom k la)
              (Node.chunkAsm (bufferToChunk sig) :: tail)) with (hex := hex)
    (found := found) (last := last) as (last' & E).
  { eapply Forall_impl; [apply countdownFrom_markers|]. intros mp. simpl. lia. }
  rewrite E, countdownFrom_parts.
  rewrite consume_other by now apply signature_not_integer. eauto.
Qed.

(** With no part to come, the last pair ends the data. *)
Lemma consume_end mt (la : list (list byte)) tail hex found last :
  la <> [] ->
  exists found',
    consume mt (groupTokens (countdownFrom 0 la) ++ tail) hex found last
    = Parsed (hex +:+ Buf.toHex (concat la))%string mt true found' (Some 0%Z).
Proof.
  intros Hne. destruct (snoc_cases la) as [->|(la' & p & ->)]; [congruence|].
  rewrite countdownFrom_app. cbn [countdownFrom length]. rewrite Nat.add_0_r.
  unfold groupTokens. rewrite flat_map_app, <- app_assoc.
  destruct (consume_group mt (countdownFrom (0 + 1) la')
              (flat_map (fun mp => [JS.decimal (fst mp); Buf.toHex (snd mp)]) [(N.of_nat 0, p)]
               ++ tail)) with (hex := hex) (found := found) (last := last) as (last' & E).
  { eapply Forall_impl; [apply countdownFrom_markers|]. intros mp. simpl. lia. }
  unfold groupTokens in E. rewrite E, countdownFrom_parts.
  change (flat_map _ [(N.of_nat 0, p)]) with (groupTokens [(0%N, p)]).
  rewrite consume_last, append_assoc, <- toHex_app.
  rewrite concat_app. cbn [concat]. rewrite app_nil_r. eauto.
Qed.

(** Groups of data pairs are groups of parts with their markers. *)
Lemma groups_of_pairs (dgs : list pairs) : forall c : list (N * list byte),
  concat dgs = map dataPair c ->
  exists cgs, dgs = map (map dataPair) cgs /\ concat cgs = c.
Proof.
  induction dgs as [|g dgs IH]; intros c E; simpl in E.
  - exists []. split; [reflexivity|]. symmetry in E. now apply map_eq_nil in E.
  - symmetry in E. apply map_eq_app in E as (c1 & c2 & -> & E1 & E2).
    destruct (IH c2 (eq_sym E2)) as (cgs & -> & <-).
    exists (c1 :: cgs). now rewrite <- E1.
Qed.

Lemma printable_countdownFrom (l : list (list byte)) : forall k,
  Forall (fun p => plainPush p = true) l -> (N.of_nat (k + length l) <= 32768)%N ->
  Forall printable (countdownFrom k l).
Proof.
  induction l as [|p l IH]; intros k Hl Hk; [constructor|].
  apply Forall_cons in Hl as [Hp Hl]. simpl in Hk. constructor.
  - split; [simpl; lia | exact Hp].
  - apply IH; [exact Hl | lia].
Qed.

End PartialTokens.

(* --------------------------------------------------------------------- *)
(** ** The walk along a confirmed chain *)
(* --------------------------------------------------------------------- *)

Section DecodeChain.
Import Builder Tx Mined.
Context `{Bitcore}.
Variable clock : nat -> string.
Variable key : string.

Lemma walk_same (w : Walker.walk) :
  Walker.isGenesis w = false ->
  Walker.Walk (Walker.dataHex w +:+ EmptyString)%string (Walker.mimeType w) false
    (Walker.txid w) (Walker.processedTxids w) (Walker.voutIndex' w)
    (Walker.endOfData w || false) (Walker.track w) = w.
Proof. destruct w; simpl; intros ->. now rewrite append_empty_r, orb_false_r. Qed.

(** The inputs the wallet adds after the first one carry no data. *)
Lemma processVin_quiet (w : Walker.walk) (i : input) :
  quietWallet i -> Walker.isGenesis w = false ->
  Walker.processVin clock key w (vinOf i) = Ok w.
Proof.
  intros [_ [Hs|(sig & pk & Hs & Hsig)]] Hg;
    unfold Walker.processVin, vinOf; cbn [Node.asm]; rewrite Hs.
  - reflexivity.
  - destruct (splitWords_scriptAsm [bufferToChunk sig; bufferToChunk pk]) as [Hw Ht];
      [discriminate|].
    rewrite Ht, Hw, Hg. cbn [negb map].
    unfold Envelope.processSubsequentAsm.
    rewrite consume_other by now apply signature_not_integer.
    cbn [Envelope.dataHex Envelope.endOfData Envelope.chunksFound Z.eqb].
    now rewrite walk_same.
Qed.

Lemma processVins_quiet (ws : list input) : forall w,
  Forall quietWallet ws -> Walker.isGenesis w = false ->
  Walker.processVins clock key w (map vinOf ws) = (w, None).
Proof.
  induction ws as [|i ws IH]; intros w Hws Hg; [reflexivity|].
  apply Forall_cons in Hws as [Hi Hws]. cbn [map Walker.processVins].
  rewrite processVin_quiet by assumption. now apply IH.
Qed.

Lemma consume_partial mt (k : nat) (la : list (list byte)) (sig : list byte)
      tail hex found last :
  Node.isSignatureEncoding sig = true -> (k = 0 -> la <> []) ->
  exists found' last',
    Envelope.consume mt
      (groupTokens (countdownFrom k la) ++ Node.chunkAsm (bufferToChunk sig) :: tail)
      hex found last
    = Envelope.Parsed (hex +:+ Buf.toHex (concat la))%string mt (k =? 0) found' last'.
Proof.
  intros Hsig Hk. destruct k as [|k].
  - destruct (consume_end mt la (Node.chunkAsm (bufferToChunk sig) :: tail) hex found last)
      as (found' & E); [now apply Hk|]. eauto.
  - apply consume_more; [lia | exact Hsig].
Qed.

Lemma tail_not_nil {A} (l : list A) (a b : A) : l ++ [a; b] <> [].
Proof. destruct l; discriminate. Qed.

(** The first input of a later transaction of the chain. *)
Lemma processVin_data (w : Walker.walk) (i : input) (k : nat) la sig lockBytes :
  script i = flat (map dataPair (countdownFrom k la))
             ++ [bufferToChunk sig; bufferToChunk lockBytes] ->
  Node.isSignatureEncoding sig = true ->
  Forall printable (countdownFrom k la) ->
  (k = 0 -> la <> []) ->
  Walker.isGenesis w = false -> Walker.endOfData w = false ->
  exists tr,
    Walker.processVin clock key w (vinOf i)
    = Ok (Walker.Walk (Walker.dataHex w +:+ Buf.toHex (concat la))%string
            (Walker.mimeType w) false (Walker.txid w) (Walker.processedTxids w)
            (Walker.voutIndex' w) (k =? 0) tr).
Proof.
  intros Hs Hsig Hp Hk Hg He. unfold Walker.processVin, vinOf; cbn [Node.asm]. rewrite Hs.
  destruct (splitWords_scriptAsm
              (flat (map dataPair (countdownFrom k la))
               ++ [bufferToChunk sig; bufferToChunk lockBytes])) as [Hw Ht];
    [apply tail_not_nil|].
  rewrite Ht, Hw, Hg, map_app, chunkAsm_group by exact Hp. cbn [negb map].
  unfold Envelope.processSubsequentAsm.
  destruct (consume_partial None k la sig [Node.chunkAsm (bufferToChunk lockBytes)]
              EmptyString 0%Z None Hsig Hk) as (found' & last' & ->).
  cbn [Envelope.dataHex Envelope.endOfData Envelope.chunksFound Envelope.lastNumChunks].
  rewrite append_nil_l, He. cbn [orb]. eauto.
Qed.

(** The first input of the transaction that reveals the head of the
    envelope. *)
Lemma processVin_genesis (w : Walker.walk) (i : input) (n : N) (ct : list byte)
      (k : nat) la sig lockBytes :
  script i = ordChunk
             :: flat ((numberToChunk n, bufferToChunk ct)
                      :: map dataPair (countdownFrom k la))
             ++ [bufferToChunk sig; bufferToChunk lockBytes] ->
  Node.isSignatureEncoding sig = true ->
  Forall printable (countdownFrom k la) ->
  (k = 0 -> la <> []) ->
  Walker.isGenesis w = true ->
  exists tr,
    Walker.processVin clock key w (vinOf i)
    = Ok (Walker.Walk (Walker.dataHex w +:+ Buf.toHex (concat la))%string
            (Some (JS.orElse (Envelope.hexToAscii (Node.chunkAsm (bufferToChunk ct)))
                     Envelope.DEFAULT_MIME))
            false (Walker.txid w) (Walker.processedTxids w)
            (Walker.voutIndex' w) (k =? 0) tr).
Proof.
  intros Hs Hsig Hp Hk Hg. unfold Walker.processVin, vinOf; cbn [Node.asm]. rewrite Hs.
  match goal with |- context [Node.scriptAsm ?s] =>
    destruct (splitWords_scriptAsm s) as [Hw Ht]; [discriminate|] end.
  rewrite Ht, Hw, Hg. cbn [negb map flat app].
  rewrite map_app, chunkAsm_group by exact Hp.
  change (Node.chunkAsm ordChunk) with "6582895"%string. cbn [String.eqb Ascii.eqb].
  unfold Envelope.processGenesisAsm. cbn [map].
  match goal with |- context [Envelope.consume ?mt _ _ _ ?l] =>
    destruct (consume_partial mt k la sig [Node.chunkAsm (bufferToChunk lockBytes)]
                EmptyString 0%Z l Hsig Hk) as (found' & last' & ->) end.
  cbn [Envelope.dataHex Envelope.endOfData Envelope.chunksFound Envelope.lastNumChunks
       Envelope.mimeType].
  rewrite append_nil_l. eauto.
Qed.

End DecodeChain.

(* --------------------------------------------------------------------- *)
(** ** The hops of the walk *)
(* --------------------------------------------------------------------- *)

Section Hops.
Import Builder Tx Mined.
Context `{Bitcore}.
Variable clock : nat -> string.
Variable key : string.
Variable depth : nat.

(** The walk as it enters a transaction it has not seen. *)
Definition visit (w : Walker.walk) : Walker.walk :=
  Walker.Walk (Walker.dataHex w) (Walker.mimeType w) (Walker.isGenesis w) (Walker.txid w)
    ({[Walker.txid w]} ∪ Walker.processedTxids w) (Walker.voutIndex' w)
    (Walker.endOfData w) (Walker.track w).

(** The walk after the inputs of a transaction: it ends with the data,
    or goes on from the transaction that spends the output. *)
Definition onward (n : Node.node) (fuel : nat) (w : Walker.walk) : Walker.stopped :=
  if Walker.endOfData w then (w, None)
  else match Walker.findNextOrdinalTx n (Walker.txid w) (Walker.voutIndex' w) depth with
       | Some next => Walker.hops clock n depth key fuel (Walker.moveTo next w)
       | None => (w, None)
       end.

Lemma hops_S (n : Node.node) (fuel : nat) (w : Walker.walk) :
  Walker.hops clock n depth key (S fuel) w
  = if Walker.endOfData w then (w, None)
    else if decide (Walker.txid w ∈ Walker.processedTxids w) then
      match Walker.findNextOrdinalTx n (Walker.txid w) (Walker.voutIndex' w) depth with
      | Some next => Walker.hops clock n depth key fuel (Walker.moveTo next w)
      | None => (w, None)
      end
    else
      match Node.getrawtransaction n (Walker.txid w) with
      | Throw e => (visit w, Some e)
      | Ok (rawTx, _) =>
          match Walker.processVins clock key (visit w) (Node.rawVin rawTx) with
          | (w2, Some e) => (w2, Some e)
          | (w2, None) => onward n fuel w2
          end
      end.
Proof. reflexivity. Qed.

Lemma hops_visit (n : Node.node) tx oh fuel (w w2 : Walker.walk) i ws :
  Node.getrawtransaction n (txHash tx) = Ok (rawOf tx, oh) ->
  inputs tx = i :: ws -> Forall quietWallet ws ->
  Walker.txid w = txHash tx -> Walker.endOfData w = false ->
  Walker.txid w ∉ Walker.processedTxids w ->
  Walker.processVin clock key (visit w) (vinOf i) = Ok w2 ->
  Walker.isGenesis w2 = false ->
  Walker.hops clock n depth key (S fuel) w = onward n fuel w2.
Proof.
  intros Hraw Hin Hws Htx Heod Hnew Hvin Hg. rewrite hops_S, Heod.
  destruct (decide _) as [Hold|_]; [contradiction|].
  rewrite Htx, Hraw.
  cbn [Node.rawVin rawOf]. rewrite Hin. cbn [map Walker.processVins]. rewrite Hvin.
  rewrite (processVins_quiet clock key ws w2 Hws Hg). reflexivity.
Qed.

(** A transaction whose inputs hold the data to its end: the walk
    reads it and stops. *)
Lemma hops_single (n : Node.node) (r : Node.rawTx) (oh : option nat) fuel
      (w w2 : Walker.walk) :
  Node.getrawtransaction n (Walker.txid w) = Ok (r, oh) ->
  Walker.endOfData w = false ->
  Walker.txid w ∉ Walker.processedTxids w ->
  Walker.processVins clock key (visit w) (Node.rawVin r) = (w2, None) ->
  Walker.endOfData w2 = true ->
  Walker.hops clock n depth key (S fuel) w = (w2, None).
Proof.
  intros Hraw Heod Hnew Hvins Hend. rewrite hops_S, Heod.
  destruct (decide _) as [Hold|_]; [contradiction|].
  rewrite Hraw, Hvins. unfold onward. now rewrite Hend.
Qed.

Lemma NoDup_hashes tx ts :
  NoDup (map txHash (tx :: ts)) ->
  Forall (fun t => txHash tx <> txHash t) ts /\ NoDup (map txHash ts).
Proof.
  intros Hd. cbn [map] in Hd. apply NoDup_cons in Hd as [Hn Hd]. split; [|exact Hd].
  apply Forall_forall. intros t Ht E. apply Hn. rewrite E.
  now apply list_elem_of_In, in_map, list_elem_of_In.
Qed.

(** From a transaction of the chain whose inputs have been read to the
    end of the data: the parts [lb] still to come are read from the
    transactions [ts] that follow, wherever in the blocks they are. *)
Lemma onward_chain (n : Node.node) : forall ts tx cgs lb w fuel,
  Links (txHash tx) (map flat (map (map dataPair) cgs)) ts ->
  concat cgs = countdownFrom 0 lb ->
  Forall (fun p => plainPush p = true) lb -> (N.of_nat (length lb) <= 32768)%N ->
  minedChain n depth (tx :: ts) ->
  NoDup (map txHash (tx :: ts)) ->
  Walker.txid w = txHash tx -> Walker.isGenesis w = false -> Walker.voutIndex' w = 0%N ->
  Walker.endOfData w = (length lb =? 0) ->
  Forall (fun t => txHash t ∉ Walker.processedTxids w) ts ->
  length ts <= fuel ->
  exists wf,
    onward n fuel w = (wf, None) /\
    Walker.dataHex wf = (Walker.dataHex w +:+ Buf.toHex (concat lb))%string /\
    Walker.mimeType wf = Walker.mimeType w.
Proof.
  induction ts as [|t ts IH];
    intros tx cgs lb w fuel HL Hcat Hplain Hlen Hmined Hdup Htx Hg Hv He Hnew Hfuel.
  - inversion HL as [prev Hp Hq|]; subst.
    destruct cgs; [|discriminate]. destruct lb; [|discriminate].
    exists w. unfold onward. rewrite He. simpl. now rewrite append_empty_r.
  - destruct cgs as [|cg cgs]; [inversion HL|]. cbn [map] in HL.
    inversion HL as [|prev q qs t' ts' Hu HL']; subst. clear HL.
    cbn [concat] in Hcat. symmetry in Hcat.
    apply countdownFrom_split in Hcat as (la & lb' & -> & -> & Hcat).
    destruct Hu as (i & ws & sig & lockBytes & Hin & Hp & Ho & Hs & Hsig & Hws).
    inversion Hmined as [| |tx0 h next h' ts0 Hm Hm' Hh Honly Hrest]; subst.
    apply NoDup_hashes in Hdup as [Hnotin Hdup].
    apply Forall_cons in Hnotin as [Hne Hnotin].
    apply Forall_cons in Hnew as [Hnewt Hnew].
    apply Forall_app in Hplain as [Hpa Hpb]. rewrite length_app in Hlen.
    destruct fuel as [|fuel]; [simpl in Hfuel; lia|]. simpl in Hfuel.
    destruct (length (la ++ lb') =? 0) eqn:Hz.
    { apply Nat.eqb_eq in Hz. apply length_zero_iff_nil in Hz. rewrite Hz.
      exists w. unfold onward. rewrite He. simpl. now rewrite append_empty_r. }
    apply Nat.eqb_neq in Hz.
    unfold onward. rewrite He, Htx, Hv.
    destruct (findNext_mined n depth tx t h h' i ws Hm Hm' Hh Honly Hin Hp Ho)
      as (at_ & ->).
    set (w1 := Walker.moveTo _ w).
    destruct (processVin_data clock key (visit w1) i (0 + length lb') la sig lockBytes)
      as (tr & Hvin).
    { exact Hs. }
    { exact Hsig. }
    { apply printable_countdownFrom; [exact Hpa | lia]. }
    { intros Hk Hla. subst la. rewrite length_app in Hz. simpl in *. lia. }
    { exact Hg. }
    { exact He. }
    rewrite (hops_visit n t (Some h') fuel w1 _ i ws Hm' Hin Hws eq_refl He Hnewt Hvin
               eq_refl).
    destruct (NoDup_hashes _ _ Hdup) as [Hnotin' _].
    set (w2 := Walker.Walk _ _ _ _ _ _ _ tr).
    assert (Hnew2 : Forall (fun t2 => txHash t2 ∉ Walker.processedTxids w2) ts).
    { apply Forall_forall. intros t2 Ht2. cbn.
      apply not_elem_of_union. split.
      - apply not_elem_of_singleton. intros E. symmetry in E. revert E.
        eapply Forall_forall in Hnotin'; [exact Hnotin' | exact Ht2].
      - eapply Forall_forall in Hnew; [exact Hnew | exact Ht2]. }
    destruct (IH t cgs lb' w2 fuel HL' Hcat Hpb)
      as (wf & Hrun & Hhex & Hmime);
      [lia | exact Hrest | exact Hdup
       | reflexivity | reflexivity | reflexivity | reflexivity | exact Hnew2 | lia |].
    exists wf. split; [exact Hrun|]. rewrite Hhex, Hmime. cbn. split; [|reflexivity].
    now rewrite append_assoc, <- toHex_app, <- concat_app.
Qed.

End Hops.

(* --------------------------------------------------------------------- *)
(** ** Inscribing and decoding *)
(* --------------------------------------------------------------------- *)

Section RoundTrip.
Import Builder Tx Inscribe Mined.
Context `{Bitcore}.
Variable clock : nat -> string.
Variable key : string.

(** Every part of the payload is printed in hex by the node. *)
Definition printedInHex (data : list byte) : Prop :=
  Forall (fun p => plainPush p = true) (partsOf data).

Lemma partials_false (gs : list pairs) : partials false gs = map flat gs.
Proof. induction gs as [|g gs IH]; [reflexivity|]. simpl. now rewrite IH. Qed.

(** The content type the decoder reads from the head of the envelope. *)
Definition mimeRead (contentType : string) : string :=
  JS.orElse (Envelope.hexToAscii (Node.chunkAsm (bufferToChunk (Buf.ofString contentType))))
    Envelope.DEFAULT_MIME.

Lemma mimeRead_plain (contentType : string) :
  plainPush (Buf.ofString contentType) = true ->
  mimeRead contentType = contentType /\ JS.truthy contentType = true.
Proof.
  intros Hp. unfold mimeRead. rewrite chunkAsm_plainPush by exact Hp.
  unfold Envelope.hexToAscii. rewrite fromHex_toHex.
  unfold Buf.toUtf8, Buf.ofString. rewrite string_of_list_byte_of_string.
  assert (Ht : JS.truthy contentType = true).
  { destruct contentType; [|reflexivity]. discriminate. }
  unfold JS.orElse. now rewrite Ht.
Qed.

Lemma minedChain_head (n : Node.node) (depth : nat) (tx : transaction)
      (ts : list transaction) :
  minedChain n depth (tx :: ts) -> exists h, minedAt n tx h.
Proof. inversion 1; eauto. Qed.

(** The walk from the second transaction of a chain [inscribe] has
    built reads the payload and the content type. *)
Lemma walk_chain w destination contentType data txs w' (n : Node.node) depth maxHops :
  signaturesWellFormed ->
  inscribe w destination contentType data = Some (Ok (txs, w')) ->
  data <> [] ->
  length (Buf.ofString contentType) <= MAX_SCRIPT_ELEMENT_SIZE ->
  printedInHex data ->
  (nlength (partsOf data) <= 32768)%N ->
  length txs <= S maxHops ->
  NoDup (map txHash (tail txs)) ->
  minedChain n depth (tail txs) ->
  exists commit reveal rest,
    txs = commit :: reveal :: rest /\
    forall tr, exists wf,
      Walker.hops clock n depth key maxHops
        (Walker.Walk EmptyString None true (txHash reveal) ∅ 0 false tr) = (wf, None) /\
      Walker.dataHex wf = Buf.toHex data /\
      Walker.mimeType wf = Some (mimeRead contentType).
Proof.
  intros Hsig Hins Hdata Hct Hplain Hcount Hlen Hdup Hmined.
  destruct (inscribe_structure Hsig w destination contentType data txs w' Hct Hins)
    as (t0 & ts & gs & final & -> & HL & Hcat & Hfirst & _).
  unfold envelopePairs in Hcat.
  destruct gs as [|g0 gs]; [contradiction|]. simpl in Hfirst.
  destruct g0 as [|hd g0]; [congruence|]. cbn [concat app] in Hcat.
  injection Hcat as -> Hcat.
  change (g0 ++ concat gs) with (concat (g0 :: gs)) in Hcat.
  apply groups_of_pairs in Hcat as (cgs & Hgs & Hcgs).
  destruct cgs as [|cg0 cgs]; [discriminate|]. cbn [map] in Hgs. injection Hgs as -> ->.
  rewrite countdown_from_0 in Hcgs. cbn [concat] in Hcgs. symmetry in Hcgs.
  apply countdownFrom_split in Hcgs as (la & lb & Hparts & -> & Hcgs).
  cbn [partials partialOf] in HL. rewrite partials_false in HL.
  inversion HL as [|prev q qs t1 ts' Hu HL']; subst. clear HL.
  exists t0, t1, ts'. split; [reflexivity|]. intros tr.
  destruct Hu as (i & ws & sig & lockBytes & Hin & Hp & Ho & Hs & Hsg & Hws).
  unfold printedInHex in Hplain. rewrite Hparts in Hplain, Hcount.
  apply Forall_app in Hplain as [Hpa Hpb].
  unfold nlength in Hcount. rewrite length_app in Hcount.
  cbn [tail] in Hdup, Hmined.
  destruct (minedChain_head n depth t1 ts' Hmined) as (h1 & Hm1).
  destruct maxHops as [|fuel]; [simpl in Hlen; lia|]. simpl in Hlen.
  set (w0 := Walker.Walk EmptyString None true (txHash t1) ∅ 0 false tr).
  destruct (processVin_genesis clock key (visit w0) i (nlength (partsOf data))
              (Buf.ofString contentType) (0 + length lb) la sig lockBytes)
    as (tr' & Hvin).
  { exact Hs. }
  { exact Hsg. }
  { apply printable_countdownFrom; [exact Hpa | lia]. }
  { intros Hk Hla. subst la. destruct lb; [|discriminate].
    apply (partsOf_nonempty data Hdata). exact Hparts. }
  { reflexivity. }
  assert (Hnew : Walker.txid w0 ∉ Walker.processedTxids w0) by apply not_elem_of_empty.
  rewrite (hops_visit clock key depth n t1 (Some h1) fuel w0 _ i ws Hm1 Hin Hws
             eq_refl eq_refl Hnew Hvin eq_refl).
  set (w2 := Walker.Walk _ _ _ _ _ _ _ tr').
  destruct (NoDup_hashes _ _ Hdup) as [Hne1 _].
  destruct (onward_chain clock key depth n ts' t1 cgs lb w2 fuel
              HL' Hcgs Hpb) as (wf & Hrun & Hhex & Hmime).
  - lia.
  - exact Hmined.
  - exact Hdup.
  - reflexivity.
  - reflexivity.
  - reflexivity.
  - reflexivity.
  - apply Forall_forall. intros t2 Ht2. cbn.
    apply not_elem_of_union. split; [|apply not_elem_of_empty].
    apply not_elem_of_singleton. intros E. symmetry in E. revert E.
    eapply Forall_forall in Hne1; [exact Hne1 | exact Ht2].
  - lia.
  - exists wf. split; [exact Hrun|]. rewrite Hhex, Hmime. cbn. split; [|reflexivity].
    rewrite append_nil_l, <- toHex_app, <- concat_app, <- Hparts.
    now rewrite partsOf_concat.
Qed.

End RoundTrip.

(** C1 (amended).  Let [inscribe] return the transactions [txs] for a
    payload [data] that is not empty and a content type of at most 520
    bytes, with signatures of the form the node recognises.  Let the node
    print every part of the payload in hex (each 240-byte slice of it,
    the last one included, has more than four bytes and not the form of a
    signature), and let there be at most 32768 parts and at most 20001
    transactions.  Let the transactions after the first have different
    hashes and be confirmed: each is in a block, among whatever other
    transactions, the next one in the same block or at most 5000 blocks
    above, and no other transaction of a block spends the output 0 that
    the next one spends; the blocks around them and the mempool are
    arbitrary.  Then the decode that starts at the second transaction
    returns exactly the payload, with or without the padding of a hex
    text of odd length, and the content type when the node prints it in
    hex as well. *)
Theorem inscribe_decode_roundtrip `{Tx.Bitcore} (clock : nat -> string)
        (w : Tx.wallet) (destination : Tx.address) (contentType : string)
        (data : list byte) (txs : list Tx.transaction) (w' : Tx.wallet)
        (n : Node.node) (key : string) (skipOddHexPad : bool)
        (tr : Walker.tracker) :
  signaturesWellFormed ->
  Inscribe.inscribe w destination contentType data = Some (Ok (txs, w')) ->
  data <> [] ->
  length (Buf.ofString contentType) <= Builder.MAX_SCRIPT_ELEMENT_SIZE ->
  printedInHex data ->
  (Builder.nlength (Inscribe.partsOf data) <= 32768)%N ->
  length txs <= S Walker.defaultMaxHops ->
  NoDup (map Tx.txHash (tail txs)) ->
  Mined.minedChain n Walker.decodeDepth (tail txs) ->
  exists commit reveal rest mime,
    txs = commit :: reveal :: rest /\
    Walker.reconstructedBuffer clock n (Tx.txHash reveal) key skipOddHexPad tr
    = Ok (data, mime) /\
    (plainPush (Buf.ofString contentType) = true -> mime = contentType).
Proof.
  intros Hsig Hins Hdata Hct Hplain Hcount Hlen Hdup Hmined.
  destruct (walk_chain clock key w destination contentType data txs w' n
              Walker.decodeDepth Walker.defaultMaxHops
              Hsig Hins Hdata Hct Hplain Hcount Hlen Hdup Hmined)
    as (commit & reveal & rest & -> & Hwalk).
  destruct (Hwalk (Walker.startTracking clock key tr)) as (wf & Hrun & Hhex & Hmime).
  exists commit, reveal, rest.
  unfold Walker.reconstructedBuffer, Walker.decodeDoginalsChain. rewrite Hrun, Hhex, Hmime.
  destruct (Buf.toHex data) as [|c r] eqn:E; [now apply toHex_nonempty in E|].
  cbn [fst Walker.decodedHex Walker.decodedMime]. rewrite <- E.
  assert (Hpad : Walker.padOddHex skipOddHexPad (Buf.toHex data) = Buf.toHex data).
  { unfold Walker.padOddHex. rewrite length_toHex, Nat.even_mul. cbn [Nat.even orb negb].
    now rewrite andb_false_r. }
  rewrite Hpad, fromHex_toHex. eexists. split; [reflexivity|]. split; [reflexivity|].
  intros Hp. destruct (mimeRead_plain contentType Hp) as [-> Ht].
  unfold JS.orElse. now rewrite Ht.
Qed.

Section RoundTripExamples.
#[local] Existing Instance Mined.Demo.lib.

(** The chain of three transactions for a payload of seven parts, in a
    node whose blocks hold other transactions as well, with blocks
    between those of the chain and a mempool that is not empty. *)
Lemma inscribe_decode_roundtrip_witness :
  exists commit reveal rest mime,
    Mined.Demo.longChain = commit :: reveal :: rest /\
    Walker.reconstructedBuffer Mined.Demo.clock (Mined.Demo.busyNode Mined.Demo.longChain)
      (Tx.txHash reveal) "long" false Mined.Demo.idle = Ok (Mined.Demo.longPayload, mime) /\
    (plainPush (Buf.ofString "text/plain") = true -> mime = "text/plain"%string).
Proof.
  apply (inscribe_decode_roundtrip Mined.Demo.clock Mined.Demo.wallet Mined.Demo.destination
           "text/plain" Mined.Demo.longPayload Mined.Demo.longChain Mined.Demo.longWallet
           (Mined.Demo.busyNode Mined.Demo.longChain) "long" false Mined.Demo.idle).
  - split; intros; vm_compute; reflexivity.
  - vm_compute; reflexivity.
  - discriminate.
  - vm_compute; lia.
  - apply Forall_forall. intros p Hp.
    apply (Forall_forall (fun p => plainPush p = true)
             (Inscribe.partsOf Mined.Demo.longPayload)); [|exact Hp].
    vm_compute. repeat constructor.
  - vm_compute. discriminate.
  - apply Nat.leb_le. vm_compute. reflexivity.
  - apply (bool_decide_unpack _). vm_compute. exact I.
  - unfold Mined.Demo.longChain. cbn [tail].
    eapply (Mined.minedNext _ _ _ 3 _ 6).
    + vm_compute. reflexivity.
    + vm_compute. reflexivity.
    + split; [lia|]. apply Nat.leb_le. vm_compute. reflexivity.
    + repeat constructor; vm_compute; intros E; first [discriminate E | reflexivity].
    + apply (Mined.minedLast _ _ _ 6). vm_compute. reflexivity.
Defined.

(** C1, as stated, fails: the payload of the single byte 0x20 makes a
    chain of two transactions whose decode is the single byte 0x32, on
    whatever node knows the second transaction.  The node prints the
    push of one byte as the number 32, and the decoder reads the two
    digits as hex; the text has an even length, so that no padding takes
    place. *)
Lemma short_payload_not_recovered :
  exists txs w' reveal,
    Inscribe.inscribe Mined.Demo.wallet Mined.Demo.destination "text/plain" [x20]
    = Some (Ok (txs, w')) /\
    txs !! 1 = Some reveal /\
    forall (n : Node.node) (at_ : option nat) (skipOddHexPad : bool),
      Node.getrawtransaction n (Tx.txHash reveal) = Ok (Mined.rawOf reveal, at_) ->
      Walker.reconstructedBuffer Mined.Demo.clock n (Tx.txHash reveal) "space"
        skipOddHexPad Mined.Demo.idle
      = Ok ([x32], "text/plain"%string).
Proof.
  eexists _, _, _. split; [vm_compute; reflexivity|]. split; [reflexivity|].
  intros n at_ skipOddHexPad Hraw.
  unfold Walker.reconstructedBuffer, Walker.decodeDoginalsChain.
  assert (Hhops : 0 < Walker.defaultMaxHops) by (apply Nat.ltb_lt; vm_compute; reflexivity).
  destruct Walker.defaultMaxHops as [|fuel]; [lia|].
  match type of Hraw with
  | Node.getrawtransaction _ (Tx.txHash ?reveal) = _ =>
      match goal with
      | |- context [Walker.hops ?c _ _ ?k (S fuel) ?w0] =>
          set (w := w0);
          set (w2 := fst (Walker.processVins c k (visit w)
                            (Node.rawVin (Mined.rawOf reveal))))
      end
  end.
  rewrite (hops_single Mined.Demo.clock "space" Walker.decodeDepth n _ at_ fuel w w2 Hraw);
    [| reflexivity | apply not_elem_of_empty | vm_compute; reflexivity
     | vm_compute; reflexivity].
  destruct skipOddHexPad; vm_compute; reflexivity.
Qed.

End RoundTripExamples.

(* --------------------------------------------------------------------- *)
(** ** The inscription txid the broadcaster reports *)
(* --------------------------------------------------------------------- *)

Section ReportedTxid.
Import Builder Tx Inscribe Broadcast.
Context `{Bitcore}.

(** When the loop is through, the journal is gone and the report is
    that of all the transactions. *)
Lemma broadcastFrom_returned txs retry r wend : forall rest i w,
  broadcastFrom txs i rest retry w = Returned r wend ->
  r = reportOf txs /\ pending wend = None.
Proof.
  induction rest as [|tx rest IH]; intros i w Hrun; simpl in Hrun.
  - injection Hrun as <- <-. now split.
  - destruct (broadcast tx retry w) as [w1|e w1|]; [now apply IH in Hrun| |discriminate].
    destruct (alreadySent (errorMessage e)); [now apply IH in Hrun | discriminate].
Qed.

Lemma last_in_tail (t : transaction) (ts : list transaction) (final : transaction) :
  ts <> [] -> last (t :: ts) = Some final -> final ∈ ts.
Proof.
  intros Hne Hlast. destruct ts as [|t' ts]; [congruence|].
  change (last (t :: t' :: ts)) with (last (t' :: ts)) in Hlast.
  destruct (snoc_cases (t' :: ts)) as [E|(l & x & E)]; [discriminate|].
  rewrite E in Hlast |- *. rewrite last_snoc in Hlast. injection Hlast as ->.
  apply list_elem_of_In, in_or_app. right. now left.
Qed.

(** C2 (amended).  For a chain that [inscribe] has built and
    [broadcastAll] has broadcast to its end, the journal is removed and
    the reported inscription txid is the hash of the second transaction,
    the one whose first input reveals the head of the envelope.  The
    last transaction of the chain pays the destination; the second
    transaction is the last one exactly when the whole envelope fits one
    partial, and with different hashes the reported txid is the hash of
    the last transaction in that case only. *)
Theorem reported_txid_is_second (w : wallet) (destination : address) (contentType : string)
        (data : list byte) (txs : list transaction) (w' : wallet)
        (retry : bool) (net : world) (r : report) (wend : world) :
  signaturesWellFormed ->
  length (Buf.ofString contentType) <= MAX_SCRIPT_ELEMENT_SIZE ->
  inscribe w destination contentType data = Some (Ok (txs, w')) ->
  NoDup (map txHash txs) ->
  broadcastAll txs retry net = Returned r wend ->
  exists commit second rest final head,
    txs = commit :: second :: rest /\
    pending wend = None /\
    inscriptionTxid r = Some (txHash second) /\
    unlocks (txHash commit) (ordChunk :: flat (headerPair contentType (partsOf data) :: head))
      second /\
    last txs = Some final /\
    firstOutput (Output (AddressOut destination) 100000) final /\
    (rest = [] <-> fits (envelopePairs contentType data)) /\
    (rest = [] -> final = second) /\
    (txHash second = txHash final -> rest = []).
Proof.
  intros Hsig Hct Hins Hdup Hrun.
  destruct (inscribe_structure Hsig w destination contentType data txs w' Hct Hins)
    as (t0 & ts & gs & final & -> & HL & Hcat & Hfirst & Hfits & Hlast & Hpays).
  apply broadcastFrom_returned in Hrun as [-> Hpending].
  destruct gs as [|g0 gs]; [contradiction|]. simpl in Hfirst.
  destruct g0 as [|hd g0]; [congruence|].
  unfold envelopePairs in Hcat. cbn [concat app] in Hcat. injection Hcat as -> _.
  cbn [partials partialOf] in HL.
  inversion HL as [|prev q qs t1 ts' Hu HL']; subst. clear HL.
  apply Links_length in HL'. rewrite partials_length in HL'.
  exists t0, t1, ts', final, g0.
  split; [reflexivity|]. split; [exact Hpending|]. split; [reflexivity|].
  split; [exact Hu|].
  split; [exact Hlast|]. split; [exact Hpays|].
  assert (Hrest : ts' = [] <-> fits (envelopePairs contentType data)).
  { rewrite <- Hfits. cbn [length]. rewrite <- HL'. split.
    - now intros ->.
    - intros E. destruct ts'; [reflexivity | discriminate]. }
  split; [exact Hrest|]. split.
  - intros ->. simpl in Hlast. congruence.
  - intros Heq. destruct ts' as [|t2 ts']; [reflexivity|]. exfalso.
    apply NoDup_hashes in Hdup as [_ Hdup]. apply NoDup_hashes in Hdup as [Hne _].
    eapply Forall_forall in Hne; [exact (Hne Heq)|].
    now apply (last_in_tail t1 (t2 :: ts') final).
Qed.

End ReportedTxid.

Section ReportedTxidExamples.
#[local] Existing Instance Mined.Demo.lib.

Lemma reported_txid_is_second_witness :
  exists commit second rest final head,
    Mined.Demo.helloChain = commit :: second :: rest /\
    Broadcast.pending (Broadcast.World [] None None) = None /\
    Broadcast.inscriptionTxid (Broadcast.reportOf Mined.Demo.helloChain)
    = Some (Tx.txHash second) /\
    unlocks (Tx.txHash commit)
      (ordChunk
       :: flat (headerPair "text/plain" (Inscribe.partsOf Mined.Demo.hello) :: head)) second /\
    last Mined.Demo.helloChain = Some final /\
    firstOutput (Tx.Output (Tx.AddressOut Mined.Demo.destination) 100000) final /\
    (rest = [] <-> fits (envelopePairs "text/plain" Mined.Demo.hello)) /\
    (rest = [] -> final = second) /\
    (Tx.txHash second = Tx.txHash final -> rest = []).
Proof.
  apply (reported_txid_is_second Mined.Demo.wallet Mined.Demo.destination "text/plain"
           Mined.Demo.hello Mined.Demo.helloChain Mined.Demo.helloWallet false
           (Mined.Demo.accepting 2) (Broadcast.reportOf Mined.Demo.helloChain)
           (Broadcast.World [] None None)).
  - split; intros; vm_compute; reflexivity.
  - vm_compute; lia.
  - vm_compute; reflexivity.
  - apply (bool_decide_unpack _). vm_compute. exact I.
  - vm_compute; reflexivity.
Defined.

(** C2, as stated, fails: a payload of 1680 bytes makes a chain of three
    transactions.  The reported inscription txid is the hash of the
    second one, which pays nothing to the destination; the transaction
    that does is the third, with another hash. *)
Lemma reported_txid_not_final :
  exists txs w' r wend second final rest,
    Inscribe.inscribe Mined.Demo.wallet Mined.Demo.destination "text/plain"
      Mined.Demo.longPayload = Some (Ok (txs, w')) /\
    Broadcast.broadcastAll txs false (Mined.Demo.accepting 3) = Broadcast.Returned r wend /\
    txs !! 1 = Some second /\
    last txs = Some final /\
    Tx.outputs final = Tx.Output (Tx.AddressOut Mined.Demo.destination) 100000 :: rest /\
    Forall (fun o => Tx.outputScript o <> Tx.AddressOut Mined.Demo.destination)
      (Tx.outputs second) /\
    Broadcast.inscriptionTxid r = Some (Tx.txHash second) /\
    Tx.txHash second <> Tx.txHash final.
Proof.
  eexists _, _, _, _, _, _, _. split; [vm_compute; reflexivity|].
  split; [vm_compute; reflexivity|]. split; [reflexivity|]. split; [reflexivity|].
  split; [reflexivity|]. split; [repeat constructor; discriminate|].
  split; [vm_compute; reflexivity|]. vm_compute. discriminate.
Qed.

End ReportedTxidExamples.

(* --------------------------------------------------------------------- *)
(** ** The bulk mint loop under the monitor *)
(* --------------------------------------------------------------------- *)

Section ControllerSteps.
Import Controller.

(** A piece of the loop body run from [s]: [Q] holds where it goes on,
    [E] where it leaves the body. *)
Definition triple {A} (s : state) (c : M A)
           (Q : A -> state -> Prop) (E : ending -> state -> Prop) : Prop :=
  match c s with
  | Go a s' => Q a s'
  | Stop e s' => E e s'
  end.

Lemma triple_bind {A B} (s : state) (c : M A) (k : A -> M B) Q E :
  triple s c (fun a s' => triple s' (k a) Q E) E -> triple s (bind c k) Q E.
Proof. unfold triple, bind. now destruct (c s). Qed.

Lemma triple_weaken {A} (s : state) (c : M A) (Q Q' : A -> state -> Prop)
      (E E' : ending -> state -> Prop) :
  triple s c Q E -> (forall a s', Q a s' -> Q' a s') -> (forall e s', E e s' -> E' e s') ->
  triple s c Q' E'.
Proof. unfold triple. destruct (c s); auto. Qed.

Lemma triple_get (s : state) Q E : Q s s -> triple s get Q E.
Proof. exact (fun H => H). Qed.

Lemma triple_leave {A} (s : state) (e : ending) (Q : A -> state -> Prop) E :
  E e s -> triple s (leave e) Q E.
Proof. exact (fun H => H). Qed.

(** The lenient monitor has let the events of [s] pass and stands in
    phase [p], with the txids [k] known. *)
Definition At (p : phase) (k : list string) (s : state) : Prop :=
  verdict false (trace s) = Some (Monitor p k).

Lemma verdict_snoc (strict : bool) (es : list event) (e : event) :
  verdict strict (es ++ [e]) = verdict strict es ≫= fun m => advance strict m e.
Proof. unfold verdict, from. now rewrite foldl_app. Qed.


(** What a step leaves as it is: the variables, and that the txids to
    come are present. *)
Definition frame (s s' : state) : Prop :=
  allTxids s' = allTxids s /\
  lastSuccessfulTxid s' = lastSuccessfulTxid s /\
  (txidsPresent (world s) -> txidsPresent (world s')).




(** The phases in which the monitor expects nothing right away: all
    but the one just after a test wave. *)
Definition settled (p : phase) : bool :=
  match p with
  | Tested _ => false
  | _ => true
  end.

(** A step that ends the job, or waits for something that does not
    come. *)
Definition Ended (e : ending) (s : state) : Prop :=
  match e with
  | Return => exists k, At Over k s
  | Hang => exists p k, At p k s /\ settled p = true
  | _ => False
  end.


Ltac run_step :=
  unfold triple, bind, get, leave, ret, emit, awaited;
  cbn [trace world awaits completed allTxids lastSuccessfulTxid].

Lemma At_snoc (s : state) (p p' : phase) (k k' : list string) (e : event) :
  At p k s -> advance false (Monitor p k) e = Some (Monitor p' k') ->
  verdict false (trace s ++ [e]) = Some (Monitor p' k').
Proof. intros Hat Hadv. rewrite verdict_snoc, Hat. exact Hadv. Qed.

Lemma emit_ok (s : state) (p p' : phase) (k k' : list string) (e : event) :
  At p k s -> advance false (Monitor p k) e = Some (Monitor p' k') ->
  triple s (emit e) (fun _ s' => At p' k' s' /\ frame s s') Ended.
Proof.
  intros Hat Hadv. run_step. split; [now apply (At_snoc s p p' k k')|].
  unfold frame. simpl. auto.
Qed.



























End ControllerSteps.

(* --------------------------------------------------------------------- *)
(** ** What the monitor lets pass *)
(* --------------------------------------------------------------------- *)

Section MonitorFacts.
Import Controller.











End MonitorFacts.

(* --------------------------------------------------------------------- *)
(** ** The chain-limit path of the bulk mint loop *)
(* --------------------------------------------------------------------- *)

Section ChainLimitPath.
Import Controller.









End ChainLimitPath.

Section ChainLimitClaim.
Import Controller.





End ChainLimitClaim.
(* --------------------------------------------------------------------- *)
(** ** Reading an inscription back with [extract] *)
(* --------------------------------------------------------------------- *)

Section PartsFacts.
Import Builder Tx Inscribe.

Lemma splitParts_nonempty (rounds : nat) : forall data,
  Forall (fun p => p <> []) (splitParts rounds data).
Proof.
  induction rounds as [|rounds IH]; intros data; [constructor|].
  destruct data as [|x data]; [constructor|].
  cbn [splitParts]. constructor; [|apply IH].
  unfold MAX_CHUNK_LEN. cbn [length Nat.min take]. discriminate.
Qed.

Lemma splitParts_count (rounds : nat) : forall data k,
  length data <= MAX_CHUNK_LEN * k -> length (splitParts rounds data) <= k.
Proof.
  induction rounds as [|rounds IH]; intros data k Hk; [simpl; lia|].
  destruct data as [|x data]; [simpl; lia|].
  cbn [splitParts]. remember (x :: data) as l eqn:El.
  assert (Hpos : 0 < length l) by (subst l; simpl; lia).
  destruct k as [|k]; [lia|]. cbn [length]. apply le_n_S, IH.
  rewrite length_drop, length_take. unfold MAX_CHUNK_LEN in *. lia.
Qed.

Lemma length_chunkBytes_push (b : list byte) :
  length b <= length (chunkBytes (bufferToChunk b)).
Proof.
  unfold chunkBytes, bufferToChunk, OP_PUSHDATA1, OP_PUSHDATA2; simpl.
  destruct b as [|x b]; [simpl; lia|].
  set (l := x :: b). set (n := nlength l).
  destruct (N.leb_spec n 75) as [H75|H75].
  - destruct (N.ltb_spec n 76) as [_|Hn]; [simpl; lia | lia].
  - destruct (N.leb_spec n 255) as [H255|H255]; simpl; rewrite ?length_app; simpl; lia.
Qed.

Lemma scriptSize_cons (c : chunk) (cs : list chunk) :
  scriptSize (c :: cs) = length (chunkBytes c) + scriptSize cs.
Proof. unfold scriptSize, toBuffer. cbn [map concat]. now rewrite length_app. Qed.

(** A script of data pairs is at least as long as the parts it pushes. *)
Lemma scriptSize_dataPairs (l : list (N * list byte)) :
  length (concat (map snd l)) <= scriptSize (flat (map dataPair l)).
Proof.
  induction l as [|[m p] l IH]; [simpl; lia|].
  cbn [map snd concat flat dataPair fst]. rewrite length_app, !scriptSize_cons.
  pose proof (length_chunkBytes_push p). lia.
Qed.

(** An envelope that fits one partial has few parts. *)
Lemma fits_few_parts (contentType : string) (data : list byte) :
  scriptSize (ordChunk :: flat (headerPair contentType (partsOf data)
                                :: map dataPair (countdown (partsOf data))))
  <= MAX_PAYLOAD_LEN ->
  length (partsOf data) <= 7.
Proof.
  intros Hfit. unfold headerPair in Hfit. cbn [flat] in Hfit.
  rewrite !scriptSize_cons in Hfit.
  pose proof (scriptSize_dataPairs (countdown (partsOf data))) as Hsize.
  rewrite countdown_from_0 in Hsize, Hfit.
  rewrite countdownFrom_parts, partsOf_concat in Hsize.
  apply splitParts_count. unfold MAX_CHUNK_LEN, MAX_PAYLOAD_LEN in *. lia.
Qed.

End PartsFacts.

Section ExtractLoop.
Import Builder Tx Inscribe Extractor.

Variable n : node.
Variable requested : string.
Variable transaction : verbose.

(** The loop on the data pairs of a whole envelope: every marker is the
    number of parts still to come less one, so that every part is
    appended. *)
Lemma loop_pairs (tail : list chunk) : forall (parts : list (list byte)) fuel data,
  Forall (fun p => p <> []) parts ->
  length parts <= 255 -> length parts <= fuel ->
  loop n requested fuel transaction (flat (map dataPair (countdown parts)) ++ tail) data
    (nlength parts)
  = Some (Ok (data ++ concat parts)).
Proof.
  induction parts as [|p parts IH]; intros fuel data Hne Hcount Hfuel.
  - cbn [countdown map flat app concat]. rewrite app_nil_r.
    destruct tail, fuel; reflexivity.
  - apply Forall_cons in Hne as [Hp Hne]. cbn [length] in Hcount, Hfuel.
    destruct fuel as [|fuel]; [lia|].
    cbn [countdown map flat dataPair fst snd app loop].
    assert (Hrem : (nlength (p :: parts) =? 0)%N = false)
      by (apply N.eqb_neq; unfold nlength; cbn [length]; lia).
    rewrite Hrem.
    rewrite chunkToNumber_numberToChunk_low by (unfold nlength; lia).
    assert (Hacc : accepts (nlength (p :: parts)) (Num (nlength parts)) = true)
      by (unfold accepts, nlength; cbn [length]; apply Z.eqb_eq; lia).
    rewrite Hacc.
    assert (Hbuf : buf (bufferToChunk p) = Some p) by (destruct p; [congruence | reflexivity]).
    rewrite Hbuf.
    replace (nlength (p :: parts) - 1)%N with (nlength parts)
      by (unfold nlength; cbn [length]; lia).
    rewrite IH by (try assumption; lia).
    cbn [concat]. now rewrite app_assoc.
Qed.

End ExtractLoop.

Section ExtractSingle.
Import Builder Tx Inscribe Extractor.
Context `{Bitcore}.

Lemma toUtf8_ofString (s : string) : Buf.toUtf8 (Buf.ofString s) = s.
Proof. unfold Buf.toUtf8, Buf.ofString. apply string_of_list_byte_of_string. Qed.

Lemma ofString_nonempty (s : string) : s <> EmptyString -> Buf.ofString s <> [].
Proof. destruct s; [congruence | discriminate]. Qed.

(** X1.  [extract] undoes [inscribe] for an envelope that fits one
    partial: when the content type is not empty and has at most 520
    bytes, and the serialised envelope has at most [MAX_PAYLOAD_LEN]
    bytes, [inscribe] makes two transactions, and [extract], called with
    the txid of the second, returns the content type and the payload,
    byte for byte, after as many rounds of its loop as the payload has
    parts, whatever the node reports as spent. *)
Theorem extract_inscribed (w : wallet) (destination : address) (contentType : string)
        (data : list byte) (txs : list transaction) (w' : wallet) :
  signaturesWellFormed ->
  inscribe w destination contentType data = Some (Ok (txs, w')) ->
  contentType <> EmptyString ->
  length (Buf.ofString contentType) <= MAX_SCRIPT_ELEMENT_SIZE ->
  fits (envelopePairs contentType data) ->
  exists commit reveal,
    txs = [commit; reveal] /\
    forall (n : node) (spent : option string) (fuel : nat),
      n (txHash reveal) = Ok (viewOf spent reveal) ->
      length (partsOf data) <= fuel ->
      extract n fuel (txHash reveal) = Some (Ok (contentType, data)).
Proof.
  intros Hsig Hins Hne Hct Hfit.
  destruct (inscribe_structure Hsig w destination contentType data txs w' Hct Hins)
    as (t0 & ts & gs & final & -> & HL & Hcat & _ & Hfits & _).
  apply Hfits in Hfit as Hone.
  destruct gs as [|g [|g' gs]]; try discriminate. clear Hone.
  cbn [concat] in Hcat. rewrite app_nil_r in Hcat. subst g.
  cbn [partials partialOf] in HL.
  inversion HL as [|prev q qs t1 ts' Hu HL']; subst. inversion HL'; subst. clear HL HL'.
  exists t0, t1. split; [reflexivity|]. intros n spent fuel Hn Hfuel.
  destruct Hu as (i & ws & sig & lockBytes & Hin & _ & _ & Hs & _ & _).
  pose proof (fits_few_parts contentType data Hfit) as Hfew.
  unfold extract. rewrite Hn. unfold viewOf. rewrite Hin. cbn [scriptSig0].
  rewrite Hs. unfold envelopePairs, headerPair. cbn [flat app].
  change (buf ordChunk) with (Some (Buf.ofString "ord")). cbv beta iota.
  rewrite toUtf8_ofString. cbn [String.eqb Ascii.eqb Bool.eqb negb].
  rewrite chunkToNumber_numberToChunk_low by (unfold nlength; lia).
  assert (Hbuf : buf (bufferToChunk (Buf.ofString contentType))
                 = Some (Buf.ofString contentType)).
  { pose proof (ofString_nonempty contentType Hne).
    destruct (Buf.ofString contentType); [congruence | reflexivity]. }
  rewrite Hbuf, toUtf8_ofString. cbv beta iota zeta.
  rewrite (loop_pairs n (txHash t1) _ _ (partsOf data) fuel []); try lia.
  - cbn [app]. now rewrite partsOf_concat.
  - apply splitParts_nonempty.
Qed.

End ExtractSingle.

Section ExtractExamples.
#[local] Existing Instance Mined.Demo.lib.

Lemma extract_inscribed_witness :
  exists commit reveal,
    Mined.Demo.helloChain = [commit; reveal] /\
    forall (n : Extractor.node) (spent : option string) (fuel : nat),
      n (Tx.txHash reveal) = Ok (Extractor.viewOf spent reveal) ->
      length (Inscribe.partsOf Mined.Demo.hello) <= fuel ->
      Extractor.extract n fuel (Tx.txHash reveal)
      = Some (Ok ("text/plain"%string, Mined.Demo.hello)).
Proof.
  apply (extract_inscribed Mined.Demo.wallet Mined.Demo.destination "text/plain"
           Mined.Demo.hello Mined.Demo.helloChain Mined.Demo.helloWallet).
  - split; intros; vm_compute; reflexivity.
  - vm_compute; reflexivity.
  - discriminate.
  - vm_compute; lia.
  - apply Nat.leb_le. vm_compute. reflexivity.
Defined.

End ExtractExamples.

(* --------------------------------------------------------------------- *)
(** ** The size of a partial *)
(* --------------------------------------------------------------------- *)

Section PartialSizes.
Import Builder Tx Inscribe.
Context `{Bitcore}.
Hypothesis Hsig : signaturesWellFormed.

Definition small (partial : list chunk) : Prop := scriptSize partial <= MAX_PAYLOAD_LEN.

Lemma fill_eq (partial chunks : list chunk) :
  fill partial chunks
  = if scriptSize partial <=? MAX_PAYLOAD_LEN then
      match chunks with
      | [] => Ok (partial, [])
      | [_] => Throw "TypeError"
      | a :: b :: rest => fill (partial ++ [a; b]) rest
      end
    else Ok (partial, chunks).
Proof. destruct chunks; reflexivity. Qed.

(** The inner loop leaves a partial within the limit, or one that the
    last pair has taken beyond it. *)
Lemma fill_size (k : nat) : forall chunks partial p rest,
  length chunks <= k -> small partial ->
  fill partial chunks = Ok (p, rest) ->
  small p \/ exists p0 a b, p = p0 ++ [a; b] /\ small p0.
Proof.
  induction k as [|k IH]; intros chunks partial p rest Hlen Hsmall Hfill;
    rewrite fill_eq in Hfill;
    (destruct (Nat.leb_spec (scriptSize partial) MAX_PAYLOAD_LEN) as [_|Hgt];
     [|unfold small in Hsmall; lia]).
  - destruct chunks; [|simpl in Hlen; lia]. injection Hfill as <- _. now left.
  - destruct chunks as [|a [|b chunks]]; [injection Hfill as <- _; now left | discriminate |].
    destruct (Nat.le_gt_cases (scriptSize (partial ++ [a; b])) MAX_PAYLOAD_LEN) as [Hle|Hgt].
    + apply (IH chunks (partial ++ [a; b]) p rest); [simpl in Hlen; lia | exact Hle | exact Hfill].
    + rewrite fill_eq in Hfill.
      destruct (Nat.leb_spec (scriptSize (partial ++ [a; b])) MAX_PAYLOAD_LEN); [lia|].
      injection Hfill as <- _. right. now exists partial, a, b.
Qed.

Lemma revert_size (p rest p' rest' : list chunk) :
  small p \/ (exists p0 a b, p = p0 ++ [a; b] /\ small p0) ->
  revert p rest = Ok (p', rest') -> small p'.
Proof.
  intros Hp. unfold revert.
  destruct (Nat.ltb_spec MAX_PAYLOAD_LEN (scriptSize p)) as [Hbig|Hfit].
  - destruct Hp as [Hp|(p0 & a & b & -> & Hp0)]; [unfold small in Hp; lia|].
    replace (p0 ++ [a; b]) with ((p0 ++ [a]) ++ [b]) by now rewrite <- app_assoc.
    rewrite pop_snoc, pop_snoc. now intros [= <- _].
  - now intros [= <- _].
Qed.

(** Every partial is within [MAX_PAYLOAD_LEN], the first one when the
    chunk it starts with is. *)
Lemma nextPartial_size (first : bool) (chunks p rest : list chunk) :
  (first = true -> forall c cs, chunks = c :: cs -> small [c]) ->
  nextPartial first chunks = Ok (p, rest) -> small p.
Proof.
  intros Hfirst. unfold nextPartial.
  set (start := match first, chunks with
                | true, c :: rest0 => ([c], rest0)
                | _, _ => ([], chunks)
                end).
  assert (Hstart : small (fst start)).
  { subst start. destruct first; [|unfold small, scriptSize; simpl; lia].
    destruct chunks as [|c cs]; [unfold small, scriptSize; simpl; lia|].
    now apply (Hfirst eq_refl c cs). }
  destruct start as [partial0 chunks0]. cbn [fst] in Hstart.
  destruct (fill partial0 chunks0) as [[partial rest0]|e] eqn:Hfill; [|discriminate].
  apply revert_size. now apply (fill_size (length chunks0) chunks0 partial0 partial rest0).
Qed.

(** The partial a transaction reveals: the script of its first input
    without the signature and the lock that end it. *)
Definition partialIn (tx : transaction) : list chunk :=
  match inputs tx with
  | i :: _ => take (length (script i) - 2) (script i)
  | [] => []
  end.

Lemma unlocks_partialIn prev q tx : unlocks prev q tx -> partialIn tx = q.
Proof.
  intros (i & ws & sig & lockBytes & Hin & _ & _ & Hs & _). unfold partialIn.
  rewrite Hin, Hs, length_app. cbn [length].
  replace (length q + 2 - 2) with (length q) by lia.
  now rewrite take_app_length.
Qed.

Lemma Links_partialIn prev qs ts : Links prev qs ts -> map partialIn ts = qs.
Proof.
  induction 1 as [prev|prev q qs t ts Hu _ IH]; [reflexivity|].
  cbn [map]. now rewrite (unlocks_partialIn _ _ _ Hu), IH.
Qed.

(** Between the rounds: the partial that waits, and those revealed so
    far, are within the limit. *)
Definition sized (st : state) : Prop :=
  exists i,
    txs st <> [] /\ p2shInput st = Some i /\ outputIndex i = 0%N /\
    small (lastPartial st) /\
    Forall (fun t => small (partialIn t)) (tail (txs st)).

Lemma tail_snoc {A} (l : list A) (x : A) : l <> [] -> tail (l ++ [x]) = tail l ++ [x].
Proof. destruct l; [congruence | reflexivity]. Qed.

Lemma sized_round st st' : sized st -> round st = Ok st' -> sized st'.
Proof.
  intros (i & Htxs & Hp2sh & Hidx & Hlast & Hall) Hround.
  destruct (round_next Hsig st st' i Htxs Hp2sh Hidx Hround)
    as (partial & rest & tx & o & Hnext & Htxs' & _ & Hlast' & Hp2sh' & Hunlock).
  exists (Input (txHash tx) 0 o ScriptInput []).
  split; [rewrite Htxs'; now destruct (txs st)|].
  split; [exact Hp2sh'|]. split; [reflexivity|].
  split.
  - rewrite Hlast'. apply (nextPartial_size false (chunks st) partial rest); [discriminate|].
    exact Hnext.
  - rewrite Htxs', tail_snoc by exact Htxs. apply Forall_app. split; [exact Hall|].
    constructor; [|constructor]. now rewrite (unlocks_partialIn _ _ _ Hunlock).
Qed.

Lemma sized_rounds (n : nat) : forall st st',
  sized st -> rounds n st = Some (Ok st') -> sized st'.
Proof.
  induction n as [|n IH]; intros st st' Hs Hr; simpl in Hr.
  - destruct (chunks st); [|discriminate]. now injection Hr as <-.
  - destruct (chunks st); [now injection Hr as <-|].
    destruct (round st) as [st1|e] eqn:Hround; [|discriminate].
    apply (IH st1 st'); [|exact Hr]. now apply (sized_round st).
Qed.

(** The partials of the chain [inscribe] returns are within the
    limit. *)
Lemma inscribe_sizes w destination contentType data txs w' :
  inscribe w destination contentType data = Some (Ok (txs, w')) ->
  Forall (fun t => small (partialIn t)) (tail txs).
Proof.
  unfold inscribe. set (st0 := initial w contentType data).
  assert (Hchunks0 : chunks st0
                     = [ordChunk]
                       ++ flat (headerPair contentType (partsOf data)
                                :: map dataPair (countdown (partsOf data))))
    by apply envelope_flat.
  destruct (rounds (length (chunks st0)) st0) as [[st|e]|] eqn:Hrounds; try discriminate.
  destruct (reveal destination st) as [st'|e] eqn:Hreveal; [|discriminate].
  intros [= <- _].
  rewrite Hchunks0 in Hrounds. cbn [length app flat rounds] in Hrounds.
  rewrite Hchunks0 in Hrounds. cbn [app flat] in Hrounds.
  destruct (round st0) as [st1|e] eqn:Hround0; [|discriminate].
  destruct (round_first st0 st1 eq_refl eq_refl Hround0)
    as (partial & rest0 & tx0 & o & Hnext & Htxs1 & _ & Hlast1 & Hp2sh1).
  assert (Hs1 : sized st1).
  { exists (Input (txHash tx0) 0 o ScriptInput []).
    split; [now rewrite Htxs1|]. split; [exact Hp2sh1|]. split; [reflexivity|].
    split; [|rewrite Htxs1; constructor].
    rewrite Hlast1. apply (nextPartial_size true (chunks st0) partial rest0); [|exact Hnext].
    intros _ c cs Hc. rewrite Hchunks0 in Hc. injection Hc as <- _.
    unfold small. rewrite scriptSize_ord. unfold MAX_PAYLOAD_LEN. lia. }
  apply (sized_rounds _ st1 st Hs1) in Hrounds.
  destruct Hrounds as (i & Htxs & Hp2sh & Hidx & Hlast & Hall).
  destruct (reveal_step Hsig destination st st' i Hp2sh Hidx Hreveal)
    as (tx & Htxs' & Hunlock & _).
  rewrite Htxs', tail_snoc by exact Htxs. apply Forall_app. split; [exact Hall|].
  constructor; [|constructor]. now rewrite (unlocks_partialIn _ _ _ Hunlock).
Qed.

End PartialSizes.

Section PartialsWithinLimit.
Import Builder Tx Inscribe.
Context `{Bitcore}.

(** X2.  No partial is longer than [MAX_PAYLOAD_LEN]: the transactions
    [inscribe] returns for a content type of at most 520 bytes are a
    first one and, after it, one for each partial of the envelope, each
    spending output 0 of the one before and revealing its partial in
    its first input; the partials together are the envelope, and the
    serialised form of each has at most 1500 bytes. *)
Theorem partials_within_limit (w : wallet) (destination : address) (contentType : string)
        (data : list byte) (txs : list transaction) (w' : wallet) :
  signaturesWellFormed ->
  length (Buf.ofString contentType) <= MAX_SCRIPT_ELEMENT_SIZE ->
  inscribe w destination contentType data = Some (Ok (txs, w')) ->
  exists commit ts gs,
    txs = commit :: ts /\
    Links (txHash commit) (partials true gs) ts /\
    concat gs = envelopePairs contentType data /\
    Forall (fun q => scriptSize q <= MAX_PAYLOAD_LEN) (partials true gs).
Proof.
  intros Hsig Hct Hins.
  pose proof (inscribe_sizes Hsig w destination contentType data txs w' Hins) as Hsizes.
  destruct (inscribe_structure Hsig w destination contentType data txs w' Hct Hins)
    as (t0 & ts & gs & final & -> & HL & Hcat & _).
  exists t0, ts, gs. split; [reflexivity|]. split; [exact HL|]. split; [exact Hcat|].
  cbn [tail] in Hsizes. rewrite <- (Links_partialIn _ _ _ HL).
  apply Forall_map. exact Hsizes.
Qed.

End PartialsWithinLimit.

Section PartialsWithinLimitExample.
#[local] Existing Instance Mined.Demo.lib.

Lemma partials_within_limit_witness :
  exists commit ts gs,
    Mined.Demo.helloChain = commit :: ts /\
    Links (Tx.txHash commit) (partials true gs) ts /\
    concat gs = envelopePairs "text/plain" Mined.Demo.hello /\
    Forall (fun q => Inscribe.scriptSize q <= Builder.MAX_PAYLOAD_LEN) (partials true gs).
Proof.
  apply (partials_within_limit Mined.Demo.wallet Mined.Demo.destination "text/plain"
           Mined.Demo.hello Mined.Demo.helloChain Mined.Demo.helloWallet).
  - split; intros; vm_compute; reflexivity.
  - vm_compute; lia.
  - vm_compute; reflexivity.
Defined.

End PartialsWithinLimitExample.

(* --------------------------------------------------------------------- *)
(** ** [extract] on a chain of more than two transactions *)
(* --------------------------------------------------------------------- *)

Section ExtractFollows.
Import Builder Tx Inscribe Extractor.

(** What [chunkToNumber] reads from the chunk of a number. *)
Definition readBack (m : N) : N :=
  if (m <=? 255)%N then m else ((m / 256) mod 256 * 255 + m mod 256)%N.

Lemma chunkToNumber_readBack (m : N) : chunkToNumber (numberToChunk m) = Num (readBack m).
Proof.
  unfold readBack. destruct (N.leb_spec m 255) as [Hle|Hgt].
  - now apply chunkToNumber_numberToChunk_low.
  - apply chunkToNumber_numberToChunk_high. lia.
Qed.

Lemma readBack_positive (m : N) : (1 <= m < 65536)%N -> readBack m <> 0%N.
Proof.
  intros Hm. unfold readBack. destruct (N.leb_spec m 255) as [Hle|Hgt]; [lia|].
  assert (Hq : (m / 256 < 256)%N) by (apply N.Div0.div_lt_upper_bound; lia).
  rewrite (N.mod_small (m / 256) 256) by exact Hq.
  assert (Hpos : (0 < m / 256)%N) by (apply N.div_str_pos; lia).
  generalize dependent (m / 256)%N. generalize (m mod 256)%N. intros; lia.
Qed.

Lemma signature_length (sig : list byte) :
  Node.isSignatureEncoding sig = true -> 9 <= length sig <= 73.
Proof.
  unfold Node.isSignatureEncoding.
  destruct (Nat.leb_spec 9 (length sig)) as [H9|H9]; [|cbn [andb]; discriminate].
  destruct (Nat.leb_spec (length sig) 73) as [H73|H73]; [lia | cbn [andb]; discriminate].
Qed.

Lemma chunkToNumber_signature (sig : list byte) :
  Node.isSignatureEncoding sig = true -> chunkToNumber (bufferToChunk sig) = NotANumber.
Proof.
  intros Hs. apply signature_length in Hs.
  unfold chunkToNumber, bufferToChunk. cbn [opcodenum buf].
  assert (H75 : (nlength sig <=? 75)%N = true) by (apply N.leb_le; unfold nlength; lia).
  rewrite H75.
  assert (E0 : (nlength sig =? 0)%N = false) by (apply N.eqb_neq; unfold nlength; lia).
  assert (E1 : (nlength sig =? 1)%N = false) by (apply N.eqb_neq; unfold nlength; lia).
  assert (E2 : (nlength sig =? 2)%N = false) by (apply N.eqb_neq; unfold nlength; lia).
  assert (E3 : ((80 <? nlength sig) && (nlength sig <=? 96))%N = false).
  { apply andb_false_iff. left. apply N.ltb_ge. unfold nlength. lia. }
  now rewrite E0, E1, E2, E3.
Qed.

Variable n : node.
Variable requested : string.
Variable transaction : verbose.
Variable script0 : list chunk.
Hypothesis Hanswer : n requested = Ok transaction.
Hypothesis Hscript : scriptSig0 transaction = Ok (ordChunk :: script0).

(** Once the loop has gone back to the start of the script it goes
    back for ever, the chunk [ord] being no number; it throws instead
    when the node reports no spending transaction. *)
Lemma loop_stuck (fuel : nat) : forall data remaining r,
  remaining <> 0%N ->
  loop n requested fuel transaction (ordChunk :: script0) data remaining <> Some (Ok r).
Proof.
  induction fuel as [|fuel IH]; intros data remaining r Hrem; cbn [loop];
    (destruct (N.eqb_spec remaining 0) as [E|_]; [congruence|]); [discriminate|].
  change (chunkToNumber ordChunk) with NotANumber. cbn [accepts].
  destruct (spent0 transaction); [|discriminate].
  rewrite Hanswer, Hscript. now apply IH.
Qed.

(** The loop on the pairs of a partial that is not the last: it reaches
    the signature with parts still to come, or meets a marker it does
    not accept before; either way it goes back to the start. *)
Lemma loop_follows (sig : list byte) (tail : list chunk) :
  Node.isSignatureEncoding sig = true ->
  forall (ms : list (N * list byte)) fuel data remaining r,
    remaining <> 0%N ->
    Forall (fun mp => (1 <= fst mp < 65536)%N /\ snd mp <> []) ms ->
    loop n requested fuel transaction
      (flat (map dataPair ms) ++ bufferToChunk sig :: tail) data remaining
    <> Some (Ok r).
Proof.
  intros Hsig. induction ms as [|[m p] ms IH]; intros fuel data remaining r Hrem Hms.
  - cbn [map flat app]. destruct fuel as [|fuel]; cbn [loop];
      (destruct (N.eqb_spec remaining 0) as [E|_]; [congruence|]); [discriminate|].
    rewrite (chunkToNumber_signature sig Hsig). cbn [accepts].
    destruct (spent0 transaction); [|discriminate].
    rewrite Hanswer, Hscript. now apply loop_stuck.
  - apply Forall_cons in Hms as [[Hm Hp] Hms]. cbn [fst snd] in Hm, Hp.
    cbn [map flat dataPair fst snd app].
    destruct fuel as [|fuel]; cbn [loop];
      (destruct (N.eqb_spec remaining 0) as [E|_]; [congruence|]); [discriminate|].
    rewrite chunkToNumber_readBack.
    destruct (accepts remaining (Num (readBack m))) eqn:Hacc.
    + assert (Hbuf : buf (bufferToChunk p) = Some p)
        by (destruct p; [congruence | reflexivity]).
      rewrite Hbuf. apply IH; [|exact Hms].
      unfold accepts in Hacc. apply Z.eqb_eq in Hacc.
      pose proof (readBack_positive m Hm). lia.
    + destruct (spent0 transaction); [|discriminate].
      rewrite Hanswer, Hscript. now apply loop_stuck.
Qed.

End ExtractFollows.

Section ExtractChain.
Import Builder Tx Inscribe Extractor.
Context `{Bitcore}.

Lemma Forall_countdownFrom (P : N -> list byte -> Prop) (l : list (list byte)) : forall k,
  (forall (j : nat) p, p ∈ l -> k <= j < k + length l -> P (N.of_nat j) p) ->
  Forall (fun mp => P (fst mp) (snd mp)) (countdownFrom k l).
Proof.
  induction l as [|p l IH]; intros k HP; [constructor|].
  cbn [countdownFrom]. constructor.
  - cbn [fst snd]. apply HP; [apply list_elem_of_here | simpl; lia].
  - apply IH. intros j q Hq Hj. apply HP; [now apply list_elem_of_further | simpl; lia].
Qed.

(** X3.  [extract] does not read an inscription of more than two
    transactions.  When the envelope does not fit one partial (and has
    fewer than 65536 parts), [inscribe] makes at least three
    transactions, and [extract], called with the txid of the second, the
    one the broadcaster reports, returns no content: after any number of
    rounds of its loop the call is still running or has thrown.  Where
    the partial ends it means to follow the chain, but it posts the
    request for the same txid again and starts over. *)
Theorem extract_chain_never_returns (w : wallet) (destination : address)
        (contentType : string) (data : list byte) (txs : list transaction) (w' : wallet) :
  signaturesWellFormed ->
  inscribe w destination contentType data = Some (Ok (txs, w')) ->
  length (Buf.ofString contentType) <= MAX_SCRIPT_ELEMENT_SIZE ->
  ~ fits (envelopePairs contentType data) ->
  (nlength (partsOf data) < 65536)%N ->
  exists commit second rest,
    txs = commit :: second :: rest /\ rest <> [] /\
    forall (n : node) (spent : option string) (fuel : nat) r,
      n (txHash second) = Ok (viewOf spent second) ->
      extract n fuel (txHash second) <> Some (Ok r).
Proof.
  intros Hsig Hins Hct Hnofit Hcount.
  pose proof (inscribe_sizes Hsig w destination contentType data txs w' Hins) as Hsizes.
  destruct (inscribe_structure Hsig w destination contentType data txs w' Hct Hins)
    as (t0 & ts & gs & final & -> & HL & Hcat & Hfirst & Hfits & _).
  cbn [tail] in Hsizes. rewrite <- Forall_map, (Links_partialIn _ _ _ HL) in Hsizes.
  pose proof (Links_length _ _ _ HL) as Hlen. rewrite partials_length in Hlen.
  unfold envelopePairs in Hcat.
  destruct gs as [|g0 gs]; [contradiction|]. simpl in Hfirst.
  destruct g0 as [|hd g0]; [congruence|]. cbn [concat app] in Hcat.
  injection Hcat as -> Hcat.
  change (g0 ++ concat gs) with (concat (g0 :: gs)) in Hcat.
  apply groups_of_pairs in Hcat as (cgs & Hgs & Hcgs).
  destruct cgs as [|cg0 cgs]; [discriminate|]. cbn [map] in Hgs. injection Hgs as -> ->.
  rewrite countdown_from_0 in Hcgs. cbn [concat] in Hcgs. symmetry in Hcgs.
  apply countdownFrom_split in Hcgs as (la & lb & Hparts & -> & Hcgs).
  cbn [partials partialOf] in HL, Hsizes.
  apply Forall_cons in Hsizes as [Hsize0 _].
  inversion HL as [|prev q qs t1 ts' Hu HL']; subst q qs prev ts. clear HL.
  assert (Hlb : lb <> []).
  { intros ->. rewrite app_nil_r in Hparts. apply Hnofit. unfold fits, envelopePairs.
    rewrite countdown_from_0. rewrite <- Hparts in Hsize0. exact Hsize0. }
  assert (Hrest : ts' <> []).
  { intros ->. cbn [length] in Hlen. apply Hnofit, Hfits.
    destruct cgs; [reflexivity | discriminate]. }
  exists t0, t1, ts'. split; [reflexivity|]. split; [exact Hrest|].
  intros n spent fuel r Hn.
  destruct Hu as (i & ws & sig & lockBytes & Hin & _ & _ & Hs & Hsg & _).
  assert (Hview : scriptSig0 (viewOf spent t1) = Ok (script i))
    by (unfold viewOf; now rewrite Hin).
  unfold extract. rewrite Hn, Hview, Hs. cbn [flat app].
  change (buf ordChunk) with (Some (Buf.ofString "ord")). cbv beta iota.
  rewrite toUtf8_ofString. cbn [String.eqb Ascii.eqb Bool.eqb negb].
  unfold headerPair. rewrite chunkToNumber_readBack.
  destruct (buf (bufferToChunk (Buf.ofString contentType))); [|discriminate].
  cbv beta iota zeta.
  assert (HN : nlength (partsOf data) = N.of_nat (length la + length lb))
    by (unfold nlength; now rewrite Hparts, length_app).
  assert (Hlbpos : 0 < length lb) by (destruct lb; [congruence | simpl; lia]).
  rewrite HN in Hcount |- *.
  assert (Hloop : forall d0,
            loop n (txHash t1) fuel (viewOf spent t1)
              (flat (map dataPair (countdownFrom (0 + length lb) la))
               ++ [bufferToChunk sig; bufferToChunk lockBytes]) []
              (readBack (N.of_nat (length la + length lb)))
            <> Some (Ok d0)).
  { intros d. eapply (loop_follows n (txHash t1) (viewOf spent t1)); try eassumption.
    - rewrite Hview, Hs. reflexivity.
    - apply readBack_positive. lia.
    - apply (Forall_countdownFrom (fun m p => (1 <= m < 65536)%N /\ p <> [])).
      intros j p Hp Hj. split.
      + lia.
      + pose proof (splitParts_nonempty (length data) data) as Hne.
        fold (partsOf data) in Hne. rewrite Hparts in Hne.
        apply Forall_app in Hne as [Hne _].
        eapply Forall_forall in Hne; [exact Hne | exact Hp]. }
  destruct (loop _ _ _ _ _ _ _) as [[d|e]|] eqn:E; try discriminate.
  exfalso. exact (Hloop d eq_refl).
Qed.

End ExtractChain.

Section ExtractChainExample.
#[local] Existing Instance Mined.Demo.lib.

Lemma extract_chain_never_returns_witness :
  exists commit second rest,
    fst (Mined.Demo.run "text/plain" Mined.Demo.longPayload) = commit :: second :: rest /\
    rest <> [] /\
    forall (n : Extractor.node) (spent : option string) (fuel : nat) r,
      n (Tx.txHash second) = Ok (Extractor.viewOf spent second) ->
      Extractor.extract n fuel (Tx.txHash second) <> Some (Ok r).
Proof.
  apply (extract_chain_never_returns Mined.Demo.wallet Mined.Demo.destination "text/plain"
           Mined.Demo.longPayload _
           (snd (Mined.Demo.run "text/plain" Mined.Demo.longPayload))).
  - split; intros; vm_compute; reflexivity.
  - vm_compute; reflexivity.
  - vm_compute; lia.
  - intros Hfit. apply Nat.leb_le in Hfit. vm_compute in Hfit. discriminate.
  - vm_compute; reflexivity.
Defined.

End ExtractChainExample.

(* --------------------------------------------------------------------- *)
(** ** The parts of a payload *)
(* --------------------------------------------------------------------- *)

Section PayloadParts.
Import Builder Inscribe.

Lemma splitParts_nil (rounds : nat) : splitParts rounds [] = [].
Proof. now destruct rounds. Qed.

Lemma splitParts_step (rounds : nat) (data : list byte) :
  data <> [] ->
  splitParts (S rounds) data
  = take MAX_CHUNK_LEN data :: splitParts rounds (drop MAX_CHUNK_LEN data).
Proof.
  intros Hne. destruct data as [|x data]; [congruence|].
  cbn [splitParts]. remember (x :: data) as l eqn:El. clear El Hne.
  destruct (Nat.le_gt_cases MAX_CHUNK_LEN (length l)) as [Hle|Hgt].
  - rewrite Nat.min_l by exact Hle. f_equal. f_equal.
    rewrite length_take. f_equal. lia.
  - rewrite Nat.min_r by lia. rewrite !firstn_all.
    rewrite (take_ge l MAX_CHUNK_LEN) by lia. f_equal.
    rewrite !drop_ge by lia. reflexivity.
Qed.

Lemma splitParts_all_but_last (rounds : nat) : forall data front p,
  length data <= rounds -> splitParts rounds data = front ++ [p] ->
  Forall (fun q => length q = MAX_CHUNK_LEN) front.
Proof.
  induction rounds as [|rounds IH]; intros data front p Hlen E.
  - destruct front; discriminate.
  - destruct data as [|x data]; [destruct front; discriminate|].
    rewrite splitParts_step in E by discriminate.
    remember (x :: data) as l eqn:El.
    assert (Hpos : 0 < length l) by (subst l; simpl; lia).
    destruct front as [|q front]; [constructor|].
    injection E as <- E. constructor.
    + destruct (Nat.le_gt_cases MAX_CHUNK_LEN (length l)) as [Hle|Hgt].
      * rewrite length_take. lia.
      * rewrite drop_ge, splitParts_nil in E by lia. destruct front; discriminate.
    + apply (IH (drop MAX_CHUNK_LEN l) front p); [|exact E].
      rewrite length_drop. unfold MAX_CHUNK_LEN. lia.
Qed.

Lemma splitParts_length (rounds : nat) : forall data,
  length data <= rounds ->
  length (splitParts rounds data) = (length data + 239) / MAX_CHUNK_LEN.
Proof.
  unfold MAX_CHUNK_LEN.
  induction rounds as [|rounds IH]; intros data Hlen.
  - destruct data; [reflexivity | simpl in Hlen; lia].
  - destruct data as [|x data]; [reflexivity|].
    rewrite splitParts_step by discriminate. unfold MAX_CHUNK_LEN.
    remember (x :: data) as l eqn:El.
    assert (Hpos : 0 < length l) by (subst l; simpl; lia).
    cbn [length]. rewrite IH by (rewrite length_drop; lia). rewrite length_drop.
    destruct (Nat.le_gt_cases 240 (length l)) as [Hle|Hgt].
    + replace (length l + 239) with (length l - 240 + 239 + 1 * 240) by lia.
      rewrite Nat.div_add by lia. lia.
    + replace (length l - 240 + 239) with 239 by lia.
      rewrite (Nat.div_small 239 240) by lia.
      apply (Nat.div_unique _ _ 1 (length l - 1)); lia.
Qed.

(** X4.  The first loop of [inscribe] cuts a payload into its parts in
    order: glued together the parts are the payload; no part is empty
    and none has more than [MAX_CHUNK_LEN] (240) bytes; every part
    before the last has exactly 240; and there are
    [ceil(length / 240)] of them, none for the empty payload. *)
Theorem partsOf_slices (data : list byte) :
  concat (partsOf data) = data /\
  Forall (fun p => 0 < length p <= MAX_CHUNK_LEN) (partsOf data) /\
  (forall front p, partsOf data = front ++ [p] ->
     Forall (fun q => length q = MAX_CHUNK_LEN) front) /\
  length (partsOf data) = (length data + 239) / MAX_CHUNK_LEN.
Proof.
  split; [apply partsOf_concat|]. split; [|split].
  - pose proof (splitParts_short (length data) data) as Hshort.
    pose proof (splitParts_nonempty (length data) data) as Hne.
    unfold partsOf. apply Forall_forall. intros p Hp.
    eapply Forall_forall in Hshort; [|exact Hp].
    eapply Forall_forall in Hne; [|exact Hp].
    split; [destruct p; [congruence | simpl; lia] | exact Hshort].
  - intros front p E. now apply (splitParts_all_but_last (length data) data front p).
  - now apply splitParts_length.
Qed.

End PayloadParts.

(* --------------------------------------------------------------------- *)
(** ** The wallet file after [mint] *)
(* --------------------------------------------------------------------- *)

Section WalletFile.
Import Builder Tx Inscribe Broadcast Mint.
Context `{Bitcore}.

(** The unspent output [updateWallet] records for output [n] of [tx]. *)
Definition gainedUtxo (tx : transaction) (n : nat) (o : output) : utxo :=
  Utxo (txHash tx) (N.of_nat n) (outputScript o) (satoshis o).

Lemma updateWallet_address (w : wallet) (tx : transaction) :
  walletAddress (updateWallet w tx) = walletAddress w.
Proof. reflexivity. Qed.

Lemma updateWallet_gained (w : wallet) (tx : transaction) (n : nat) (o : output) :
  outputs tx !! n = Some o -> paysTo (walletAddress w) o = true ->
  exists kept gained,
    utxos (updateWallet w tx) = kept ++ gained /\
    kept = filter (fun u => existsb (spends u) (inputs tx) = false) (utxos w) /\
    gainedUtxo tx n o ∈ gained.
Proof.
  intros Ho Hp. unfold updateWallet. cbn [utxos].
  eexists _, _. split; [reflexivity|]. split; [reflexivity|].
  apply list_elem_of_omap. exists (n, o). split.
  - now apply (elem_of_lookup_imap_2 (fun n o => (n, o))).
  - cbn. now rewrite Hp.
Qed.

Lemma updateWallet_keeps (w : wallet) (tx : transaction) (u : utxo) :
  u ∈ utxos w -> existsb (spends u) (inputs tx) = false ->
  u ∈ filter (fun u => existsb (spends u) (inputs tx) = false) (utxos w).
Proof. intros Hu Hs. apply list_elem_of_filter. now split. Qed.

Lemma foldl_updateWallet_address (ts : list transaction) : forall w,
  walletAddress (foldl updateWallet w ts) = walletAddress w.
Proof. induction ts as [|t ts IH]; intros w; [reflexivity|]. simpl. now rewrite IH. Qed.

Lemma foldl_updateWallet_keeps (u : utxo) (ts : list transaction) : forall w,
  u ∈ utxos w ->
  Forall (fun t => existsb (spends u) (inputs t) = false) ts ->
  u ∈ utxos (foldl updateWallet w ts).
Proof.
  induction ts as [|t ts IH]; intros w Hu Hts; [exact Hu|].
  apply Forall_cons in Hts as [Ht Hts]. simpl. apply IH; [|exact Hts].
  unfold updateWallet. cbn [utxos]. apply elem_of_app. left.
  now apply updateWallet_keeps.
Qed.

(** An output of a transaction that no input of [t] spends. *)
Lemma not_spent (final t : transaction) (n : nat) (o : output) :
  Forall (fun i => prevTxId i <> txHash final) (inputs t) ->
  existsb (spends (gainedUtxo final n o)) (inputs t) = false.
Proof.
  induction 1 as [|i is' Hi _ IH]; [reflexivity|]. cbn [existsb]. rewrite IH.
  unfold spends, gainedUtxo. cbn [utxoTxid].
  destruct (String.eqb_spec (prevTxId i) (txHash final)); [congruence | reflexivity].
Qed.

(** With every transaction accepted, [broadcastAll] applies each of
    them to the wallet file in turn. *)
Lemma broadcastFrom_accepted txs retry later p : forall rest i w0,
  broadcastFrom txs i rest retry (World (repeat Accepted (length rest) ++ later) p (Some w0))
  = Returned (reportOf txs) (World later None (Some (foldl updateWallet w0 rest))).
Proof.
  induction rest as [|tx rest IH]; intros i w0; [reflexivity|].
  cbn [length repeat app broadcastFrom]. unfold broadcast.
  cbn [replies send pending walletFile]. apply IH.
Qed.

(** The wallet [inscribe] leaves has had its last transaction applied
    last, and the address it started with. *)
Lemma round_purse st st' :
  Inscribe.round st = Ok st' -> walletAddress (purse st') = walletAddress (purse st).
Proof.
  unfold Inscribe.round.
  destruct (nextPartial _ _) as [[partial rest]|e]; [|discriminate].
  destruct (fund _ _) as [funded|e]; [|discriminate].
  destruct (p2shInputOn _) as [next|]; [|discriminate].
  now intros [= <-].
Qed.

Lemma rounds_purse (n : nat) : forall st st',
  rounds n st = Some (Ok st') -> walletAddress (purse st') = walletAddress (purse st).
Proof.
  induction n as [|n IH]; intros st st' Hr; simpl in Hr.
  - destruct (chunks st); [|discriminate]. now injection Hr as <-.
  - destruct (chunks st); [now injection Hr as <-|].
    destruct (Inscribe.round st) as [st1|e] eqn:Hround; [|discriminate].
    rewrite (IH st1 st' Hr). now apply round_purse.
Qed.

Lemma inscribe_last_applied w destination contentType data txs w' :
  inscribe w destination contentType data = Some (Ok (txs, w')) ->
  exists front final before,
    txs = front ++ [final] /\ w' = updateWallet before final /\
    walletAddress before = walletAddress w.
Proof.
  unfold inscribe. set (st0 := initial w contentType data).
  destruct (rounds (length (chunks st0)) st0) as [[st|e]|] eqn:Hrounds; try discriminate.
  unfold reveal. destruct (p2shInput st) as [i|]; [|discriminate].
  destruct (fund _ _) as [funded|e]; [|discriminate].
  intros [= <- <-]. eexists (Inscribe.txs st), _, (purse st).
  split; [reflexivity|]. split; [reflexivity|].
  now rewrite (rounds_purse _ st0 st Hrounds).
Qed.

End WalletFile.

Section MintTwice.
Import Builder Tx Inscribe Broadcast Mint.
Context `{Bitcore}.

(** X5.  [mint] lists the change of its last transaction twice.
    [inscribe] applies every transaction it makes to the wallet and
    writes the wallet file; [broadcast] reads the file and applies the
    transaction again once the node has accepted it.  When the node
    accepts every transaction of the chain, and no transaction of the
    chain spends an output of the last one, the wallet file that [mint]
    leaves holds every output of the last transaction that pays the
    wallet's address two times over: once among the entries kept from
    the file that [inscribe] wrote, and once among those added on
    broadcast. *)
Theorem mint_lists_change_twice (destination : address) (src : source) (w : world)
        (contentType : string) (data : list byte) (wallet wallet' : Tx.wallet)
        (txs : list transaction) (final : transaction) (later : list reply) :
  content src = Ok (contentType, data) ->
  data <> [] ->
  utf16Length contentType <= MAX_SCRIPT_ELEMENT_SIZE ->
  walletFile w = Some wallet ->
  inscribe wallet destination contentType data = Some (Ok (txs, wallet')) ->
  replies w = repeat Accepted (length txs) ++ later ->
  last txs = Some final ->
  Forall (fun t => Forall (fun i => prevTxId i <> txHash final) (inputs t)) txs ->
  exists wend wf,
    mint destination src w = Ran (Returned (reportOf txs) wend) /\
    walletFile wend = Some wf /\
    forall n o,
      outputs final !! n = Some o -> paysTo (walletAddress wallet) o = true ->
      exists kept added,
        utxos wf = kept ++ added /\
        gainedUtxo final n o ∈ kept /\ gainedUtxo final n o ∈ added.
Proof.
  intros Hsrc Hdata Hct Hfile Hins Hreplies Hlast Hfresh.
  destruct (inscribe_last_applied wallet destination contentType data txs wallet' Hins)
    as (front & final' & before & Htxs & Hw' & Haddr).
  assert (final' = final) as ->.
  { rewrite Htxs, last_snoc in Hlast. congruence. }
  exists (World later None (Some (foldl updateWallet wallet' txs))),
    (foldl updateWallet wallet' txs).
  split; [|split; [reflexivity|]].
  - unfold mint. rewrite Hsrc.
    assert (E0 : (length data =? 0) = false) by (destruct data; [congruence | reflexivity]).
    rewrite E0.
    assert (E1 : (MAX_SCRIPT_ELEMENT_SIZE <? utf16Length contentType) = false)
      by (apply Nat.ltb_ge; exact Hct).
    rewrite E1, Hfile, Hins, Hreplies. f_equal. apply broadcastFrom_accepted.
  - intros n o Ho Hp. rewrite Htxs, foldl_snoc.
    set (u := gainedUtxo final n o).
    set (X := foldl updateWallet wallet' front).
    assert (HaddrX : walletAddress X = walletAddress wallet).
    { unfold X. now rewrite foldl_updateWallet_address, Hw', updateWallet_address. }
    rewrite Htxs in Hfresh. apply Forall_app in Hfresh as [Hfront Hfinal].
    apply Forall_cons in Hfinal as [Hfinal _].
    assert (HuX : u ∈ utxos X).
    { apply foldl_updateWallet_keeps.
      - rewrite <- Haddr in Hp.
        destruct (updateWallet_gained before final n o Ho Hp) as (kept & gained & E & _ & Hg).
        rewrite Hw', E. apply elem_of_app. now right.
      - eapply Forall_impl; [exact Hfront|]. intros t Ht. now apply not_spent. }
    rewrite <- HaddrX in Hp.
    destruct (updateWallet_gained X final n o Ho Hp) as (kept & gained & E & Hkept & Hg).
    exists kept, gained. split; [exact E|]. split; [|exact Hg].
    rewrite Hkept. apply updateWallet_keeps; [exact HuX|]. now apply not_spent.
Qed.

End MintTwice.

Section MintTwiceExample.
#[local] Existing Instance Mined.Demo.lib.

Definition helloFinal : Tx.transaction :=
  default Tx.newTransaction (last Mined.Demo.helloChain).

Lemma mint_lists_change_twice_witness :
  exists wend wf,
    Mint.mint Mined.Demo.destination (Mint.Hex "text/plain" (Some "68656c6c6f"%string))
      (Broadcast.World [Broadcast.Accepted; Broadcast.Accepted] None (Some Mined.Demo.wallet))
    = Mint.Ran (Broadcast.Returned (Broadcast.reportOf Mined.Demo.helloChain) wend) /\
    Broadcast.walletFile wend = Some wf /\
    forall n o,
      Tx.outputs helloFinal !! n = Some o ->
      Tx.paysTo (Tx.walletAddress Mined.Demo.wallet) o = true ->
      exists kept added,
        Tx.utxos wf = kept ++ added /\
        gainedUtxo helloFinal n o ∈ kept /\
        gainedUtxo helloFinal n o ∈ added.
Proof.
  apply (mint_lists_change_twice Mined.Demo.destination
           (Mint.Hex "text/plain" (Some "68656c6c6f"%string))
           (Broadcast.World [Broadcast.Accepted; Broadcast.Accepted] None
              (Some Mined.Demo.wallet))
           "text/plain" Mined.Demo.hello Mined.Demo.wallet Mined.Demo.helloWallet
           Mined.Demo.helloChain helloFinal []).
  - vm_compute; reflexivity.
  - discriminate.
  - vm_compute; lia.
  - reflexivity.
  - vm_compute; reflexivity.
  - reflexivity.
  - reflexivity.
  - unfold Mined.Demo.helloChain.
    repeat constructor; intros E; vm_compute in E; discriminate.
Defined.

End MintTwiceExample.

(* --------------------------------------------------------------------- *)
(** ** Retrying a broadcast *)
(* --------------------------------------------------------------------- *)

Section BroadcastRetry.
Import Tx Broadcast.
Context `{Bitcore}.

(** A rejection whose message mentions the limit on chains of
    unconfirmed transactions. *)
Definition chainLimited (r : reply) : Prop :=
  match r with
  | Accepted => False
  | Rejected e => JS.includes (errorMessage e) "too-long-mempool-chain" = true
  end.

Lemma send_retry_skips (limited rs : list reply) :
  Forall chainLimited limited -> send true (limited ++ rs) = send true rs.
Proof.
  induction 1 as [|r limited Hr _ IH]; [reflexivity|].
  destruct r as [|e]; [contradiction|]. cbn [app send andb].
  cbn [chainLimited] in Hr. now rewrite Hr.
Qed.

Lemma send_retry_error (rs : list reply) : forall e rs',
  send true rs = Some (Some e, rs') ->
  JS.includes (errorMessage e) "too-long-mempool-chain" = false.
Proof.
  induction rs as [|r rs IH]; intros e rs' Hs; [discriminate|].
  destruct r as [|e0]; [discriminate|]. cbn [send andb] in Hs.
  destruct (JS.includes (errorMessage e0) "too-long-mempool-chain") eqn:E.
  - now apply (IH e rs').
  - injection Hs as <- _. exact E.
Qed.

(** X6.  [broadcast] with [retry] set does not give up on the limit on
    chains of unconfirmed transactions: rejections that mention
    [too-long-mempool-chain] are each followed by another request, so
    that the call ends as it would have without them, and the error it
    throws, if it throws, never mentions the limit.  However the call
    fails, the wallet file and the journal are as before; the wallet
    file is updated, by [updateWallet], only when the node has accepted
    the transaction. *)
Theorem broadcast_retries_chain_limit (tx : transaction) (limited rs : list reply)
        (journal : option (list string)) (file : option wallet) :
  Forall chainLimited limited ->
  broadcast tx true (World (limited ++ rs) journal file)
  = broadcast tx true (World rs journal file) /\
  (forall retry e w',
     broadcast tx retry (World rs journal file) = Failed e w' ->
     (retry = true -> JS.includes (errorMessage e) "too-long-mempool-chain" = false) /\
     pending w' = journal /\ walletFile w' = file) /\
  (forall retry w',
     broadcast tx retry (World rs journal file) = Sent w' ->
     pending w' = journal /\
     walletFile w' = (fun wal => updateWallet wal tx) <$> file).
Proof.
  intros Hlim. split; [|split].
  - unfold broadcast. cbn [replies]. now rewrite (send_retry_skips limited rs Hlim).
  - intros retry e w'. unfold broadcast. cbn [replies pending walletFile].
    destruct (send retry rs) as [[[e'|] rs']|] eqn:Hs; try discriminate.
    intros [= <- <-]. split; [|now split].
    intros ->. now apply (send_retry_error rs e' rs').
  - intros retry w'. unfold broadcast. cbn [replies pending walletFile].
    destruct (send retry rs) as [[[e'|] rs']|] eqn:Hs; try discriminate.
    intros [= <-]. split; [reflexivity|]. now destruct file.
Qed.

End BroadcastRetry.

Section BroadcastRetryExample.
#[local] Existing Instance Mined.Demo.lib.

Definition chainLimitError : Broadcast.rpcError :=
  Broadcast.RpcError (Some "64: too-long-mempool-chain") (Some "Request failed").

Lemma broadcast_retries_chain_limit_witness :
  let tx := Tx.newTransaction in
  let limited := [Broadcast.Rejected chainLimitError; Broadcast.Rejected chainLimitError] in
  let rs := [Broadcast.Accepted] in
  Broadcast.broadcast tx true (Broadcast.World (limited ++ rs) None (Some Mined.Demo.wallet))
  = Broadcast.broadcast tx true (Broadcast.World rs None (Some Mined.Demo.wallet)) /\
  (forall retry e w',
     Broadcast.broadcast tx retry (Broadcast.World rs None (Some Mined.Demo.wallet))
     = Broadcast.Failed e w' ->
     (retry = true ->
      JS.includes (Broadcast.errorMessage e) "too-long-mempool-chain" = false) /\
     Broadcast.pending w' = None /\ Broadcast.walletFile w' = Some Mined.Demo.wallet) /\
  (forall retry w',
     Broadcast.broadcast tx retry (Broadcast.World rs None (Some Mined.Demo.wallet))
     = Broadcast.Sent w' ->
     Broadcast.pending w' = None /\
     Broadcast.walletFile w'
     = (fun wal => Tx.updateWallet wal tx) <$> Some Mined.Demo.wallet).
Proof.
  apply (broadcast_retries_chain_limit Tx.newTransaction
           [Broadcast.Rejected chainLimitError; Broadcast.Rejected chainLimitError]
           [Broadcast.Accepted] None (Some Mined.Demo.wallet)).
  repeat constructor.
Defined.

End BroadcastRetryExample.

(* --------------------------------------------------------------------- *)
(** ** Entries of the master index, and the server's atomic writes *)
(* --------------------------------------------------------------------- *)

Section MasterEntries.
Import Store.

Lemma files_saveMaster master s p :
  p <> MASTER_PATH -> files (saveMaster master s) !! p = files s !! p.
Proof.
  intros Hp. unfold saveMaster, saveMasterOps. rewrite exec_app.
  cbn [writeFileSyncOps exec foldl step files].
  rewrite !lookup_insert_ne by congruence.
  now rewrite (files_exec_mkdirs s _ (ensureContentDirOps_mkdirs s)).
Qed.

(** X7.  [upsertMasterEntry] writes one entry and touches nothing else.
    Without an inscription id, or with the empty one, it leaves the
    file system as it is.  With an id, the index read back afterwards
    has an entry under the id in which every field that the given
    object has replaces the old one and every other field is kept; the
    entries under all other ids are those read before, and so is every
    file other than [master.json].  An index that cannot be read is
    thereby replaced: when [master.json] is blank or not JSON, the index
    saved holds the new entry alone. *)
Theorem upsertMasterEntry_entry (m : meta) (now : string) (s : fs) :
  ((inscriptionId m = None \/ inscriptionId m = Some EmptyString) ->
   upsertMasterEntry m now s = s) /\
  (forall id, inscriptionId m = Some id -> id <> EmptyString ->
     let old := loadMaster s !! id in
     let s' := upsertMasterEntry m now s in
     (exists e,
        loadMaster s' !! id = Some e /\
        inscriptionId e = Some id /\
        txid e = over (txid m) (old ≫= txid) /\
        filename e = over (filename m) (old ≫= filename) /\
        mimeType e = over (mimeType m) (old ≫= mimeType) /\
        ext e = over (ext m) (old ≫= ext) /\
        size e = over (size m) (old ≫= size)) /\
     (forall id', id' <> id -> loadMaster s' !! id' = loadMaster s !! id') /\
     (forall p, p <> MASTER_PATH -> files s' !! p = files s !! p) /\
     (files s !! MASTER_PATH = Some TornText ->
      dom (loadMaster s') = {[id]})).
Proof.
  split.
  - unfold upsertMasterEntry. now intros [-> | ->].
  - intros id Hid Hne old s'.
    assert (Ht : JS.truthy id = true) by (destruct id; [congruence | reflexivity]).
    assert (Hload : loadMaster s' = upserted m id now (loadMaster s))
      by now apply loadMaster_upsert.
    split; [|split; [|split]].
    + rewrite Hload. unfold upserted. rewrite lookup_insert_eq.
      eexists. split; [reflexivity|]. unfold merge. cbn.
      subst old. rewrite Hid. destruct (loadMaster s !! id); cbn; repeat split;
        match goal with |- context [over ?x _] => destruct x; reflexivity end.
    + intros id' Hne'. rewrite Hload. unfold upserted. now rewrite lookup_insert_ne.
    + intros p Hp. subst s'. unfold upsertMasterEntry. rewrite Hid, Ht.
      now apply files_saveMaster.
    + intros Htorn. rewrite Hload. unfold upserted, loadMaster. rewrite Htorn.
      rewrite dom_insert_L, dom_empty_L. apply union_empty_r_L.
Qed.

End MasterEntries.

Section AtomicWrites.
Import Store.

Lemma tmp_differs (path : string) : (path +:+ ".tmp")%string <> path.
Proof.
  intros E. apply (f_equal String.length) in E. rewrite length_append in E.
  simpl in E. lia.
Qed.

(** X8.  The server's [atomicWriteJson] is all or nothing for the file it
    writes: interrupted after any number of its steps, it leaves under
    [filePath] what was there before or the whole new text; run to its
    end it leaves the new text there and no temporary file; and it
    changes no file other than these two. *)
Theorem atomicWriteJson_all_or_nothing (s : fs) (filePath : string) (data : content) :
  (forall k,
     let s' := interrupted k s (atomicWriteJsonOps filePath data) in
     files s' !! filePath = files s !! filePath \/ files s' !! filePath = Some data) /\
  (let s' := exec s (atomicWriteJsonOps filePath data) in
   files s' !! filePath = Some data /\
   files s' !! (filePath +:+ ".tmp")%string = None /\
   forall p, p <> filePath -> p <> (filePath +:+ ".tmp")%string ->
             files s' !! p = files s !! p).
Proof.
  pose proof (tmp_differs filePath) as Hne.
  split.
  - intros k. now apply atomicWriteJson_never_tears.
  - unfold atomicWriteJsonOps, writeFileSyncOps.
    cbn [app exec foldl step files]. rewrite lookup_insert_eq. cbn [files].
    split; [apply lookup_insert_eq|]. split.
    + rewrite lookup_insert_ne by congruence. apply lookup_delete_eq.
    + intros p Hp Htmp. rewrite lookup_insert_ne by congruence.
      rewrite lookup_delete_ne by congruence.
      now rewrite !lookup_insert_ne by congruence.
Qed.

End AtomicWrites.

(* --------------------------------------------------------------------- *)
(** ** What a progress snapshot shows *)
(* --------------------------------------------------------------------- *)

Section SnapshotFacts.
Import Progress Snapshot.

(** An update that reports a number of chunks still to come which is
    not negative, or that reports none and adds no chunks. *)
Definition reporting (o : op) : Prop :=
  match o with
  | Update _ n (Some k) => (0 <= k)%Z
  | Update _ n None => (n <= 0)%Z
  | _ => True
  end.

(** The chunks found do not exceed the total shown. *)
Definition inStep (p : entry) : Prop := (chunksFound p <= totalOf p)%Z.

Lemma inStep_base (key now : string) : inStep (baseProgressObject key now).
Proof. unfold inStep, totalOf. simpl. lia. Qed.

Lemma run_inStep (key now : string) (o : op) (m : gmap string entry) :
  reporting o ->
  (forall p, m !! key = Some p -> inStep p) ->
  forall p', run key now o m !! key = Some p' -> inStep p'.
Proof.
  intros Hrep Hm p'. destruct o as [lbl n r| t | |]; cbn [run].
  - unfold updateProgress. rewrite lookup_insert_eq. intros [= <-].
    assert (Hp : inStep (default (baseProgressObject key now) (m !! key))).
    { destruct (m !! key) as [p|] eqn:E; [now apply Hm | apply inStep_base]. }
    revert Hp. generalize (default (baseProgressObject key now) (m !! key)). intros p Hp.
    unfold inStep, totalOf in *. cbn [chunksFound estimatedTotal].
    cbn [reporting] in Hrep.
    destruct r as [k|]; [unfold growsTotal|];
      destruct (estimatedTotal p) as [t|];
      repeat (match goal with
              | |- context [(?a =? ?b)%Z] => destruct (Z.eqb_spec a b)
              | |- context [(?a <? ?b)%Z] => destruct (Z.ltb_spec a b)
              end; cbn [orb]); lia.
  - unfold setDependencyPlan.
    destruct (negb (JS.truthy key) || (t <=? 0)%Z); [apply Hm|].
    rewrite lookup_insert_eq. intros [= <-].
    destruct (m !! key) as [p|] eqn:E; [apply (Hm p eq_refl) | apply inStep_base].
  - unfold incrementDependencyDone.
    destruct (negb (JS.truthy key)); [apply Hm|].
    destruct (m !! key) as [p|] eqn:E; [|rewrite E; discriminate].
    rewrite lookup_insert_eq. intros [= <-]. apply (Hm p eq_refl).
  - unfold completeProgress.
    destruct (m !! key) as [p|] eqn:E; [|rewrite E; discriminate].
    rewrite lookup_insert_eq. intros [= <-]. apply (Hm p eq_refl).
Qed.

(** The markers the parsers accept are numbers that are not negative. *)
Lemma readDigits_nonneg (s : string) : forall acc, (0 <= acc)%Z -> (0 <= JS.readDigits acc s)%Z.
Proof.
  induction s as [|c s IH]; intros acc Hacc; [exact Hacc|]. cbn [JS.readDigits].
  destruct (JS.isDigit c) eqn:Hc; [|exact Hacc]. apply IH.
  unfold JS.isDigit in Hc. apply andb_true_iff in Hc as [Hlo _].
  apply N.leb_le in Hlo. unfold JS.digitVal. lia.
Qed.

Lemma parseInt_digits (c : ascii) (r : string) :
  JS.isDigit c = true -> JS.parseInt (String c r) = Some (JS.readDigits 0 (String c r)).
Proof.
  intros Hc. destruct (isDigit_not_sign c Hc) as [Hm Hp]. unfold JS.parseInt.
  assert (Hskip : JS.skipAsciiSpace (String c r) = String c r)
    by (simpl; now rewrite (isDigit_not_space c Hc)).
  rewrite Hskip.
  assert (Hsign : match String c r with
                  | String "-" u => (true, u)
                  | String "+" u => (false, u)
                  | _ => (false, String c r)
                  end = (false, String c r)).
  { destruct c as [[] [] [] [] [] [] [] []]; try reflexivity; congruence. }
  rewrite Hsign. cbn [JS.startsWithDigit]. now rewrite Hc.
Qed.

Lemma parseMarker_integer (token : string) :
  Envelope.isIntegerString token = true ->
  exists k, Envelope.parseMarker token = Some k /\ (0 <= k)%Z.
Proof.
  intros Hint. unfold Envelope.parseMarker.
  assert (Hdigits : forall c r, JS.allDigits (String c r) = true ->
                      exists k, JS.parseInt (String c r) = Some k /\ (0 <= k)%Z).
  { intros c r Hd. cbn [JS.allDigits] in Hd. apply andb_true_iff in Hd as [Hc _].
    rewrite (parseInt_digits c r Hc). eexists. split; [reflexivity|].
    now apply readDigits_nonneg. }
  destruct token as [|c r]; [discriminate|].
  destruct (Ascii.eqb_spec c "-"%char) as [->|Hc].
  - change (JS.stripMinus (String "-" r)) with r.
    change (Envelope.isIntegerString (String "-" r)) with (JS.isDigits r) in Hint.
    destruct r as [|c' r']; [discriminate|]. now apply Hdigits.
  - rewrite isIntegerString_not_minus in Hint by exact Hc.
    assert (Hstrip : JS.stripMinus (String c r) = String c r).
    { destruct c as [[] [] [] [] [] [] [] []]; try reflexivity; congruence. }
    rewrite Hstrip. now apply Hdigits.
Qed.

(** What the loop of the parsers reports: nothing new, or more chunks
    and the marker of the last of them. *)
Lemma consume_reports (mt : option string) (n : nat) : forall tokens hex found last,
  length tokens <= n ->
  let r := Envelope.consume mt tokens hex found last in
  (Envelope.chunksFound r = found /\ Envelope.lastNumChunks r = last) \/
  ((found < Envelope.chunksFound r)%Z /\
   exists k, Envelope.lastNumChunks r = Some k /\ (0 <= k)%Z).
Proof.
  induction n as [|n IH]; intros tokens hex found last Hlen r; subst r.
  - destruct tokens; [|simpl in Hlen; lia]. left. now split.
  - destruct tokens as [|token rest]; [left; now split|]. cbn [Envelope.consume].
    destruct (Envelope.isIntegerString token) eqn:Hint; [|left; now split].
    destruct rest as [|dataChunk rest']; [left; now split|].
    destruct (parseMarker_integer token Hint) as (k & Hk & Hk0).
    destruct (Envelope.isZero (Envelope.parseMarker token)).
    + right. cbn. split; [lia|]. now exists k.
    + destruct (IH rest' (hex +:+ dataChunk)%string (found + 1)%Z
                  (Envelope.parseMarker token)) as [[Hf Hl]|[Hf Hl]].
      { simpl in Hlen. lia. }
      * right. rewrite Hf, Hl. split; [lia|]. now exists k.
      * right. split; [lia | exact Hl].
Qed.

(** The tracker after the calls [os], made at the times [nows]. *)
Fixpoint runAll (key : string) (os : list (string * op)) (m : gmap string entry)
  : gmap string entry :=
  match os with
  | [] => m
  | (now, o) :: os' => runAll key os' (run key now o m)
  end.

(** What [processGenesisAsm] takes for the number of parts: the second
    token of the script, which it does not test. *)
Definition headerCount (asmData : list string) : option Z :=
  match asmData with
  | _ :: t1 :: _ => Envelope.parseMarker t1
  | _ => None
  end.

(** X9.  The snapshot of a key never shows a negative [remaining], and
    never a negative [depRemaining], as long as every update either
    reports a number of chunks still to come that is not negative, or
    reports none and adds no chunks.  This holds from a tracker without
    the key, or with an entry in which it holds, through any sequence
    of [updateProgress], [setDependencyPlan], [incrementDependencyDone]
    and [completeProgress].  The update the chain walk makes from what
    [processSubsequentAsm] returns is of this kind, whatever the tokens;
    the one it makes from what [processGenesisAsm] returns is of this
    kind when the number of parts the script begins with, if it is a
    number, is not negative. *)
Theorem snapshot_remaining_not_negative (key : string) (os : list (string * op))
        (m : gmap string entry) :
  Forall (fun o => reporting (snd o)) os ->
  (forall p, m !! key = Some p -> inStep p) ->
  (forall snap,
     Snapshot.getProgress key (runAll key os m) = Some snap ->
     (0 <= remaining snap)%Z /\
     (forall d, depRemaining snap = Some d -> (0 <= d)%Z)) /\
  (forall asmData lbl,
     let r := Envelope.processSubsequentAsm asmData in
     reporting (Update lbl (Envelope.chunksFound r) (Envelope.lastNumChunks r))) /\
  (forall asmData r lbl,
     Envelope.processGenesisAsm asmData = Ok r ->
     (forall k, headerCount asmData = Some k -> (0 <= k)%Z) ->
     reporting (Update lbl (Envelope.chunksFound r) (Envelope.lastNumChunks r))).
Proof.
  intros Hos Hm. split; [|split].
  - assert (Hend : forall p, runAll key os m !! key = Some p -> inStep p).
    { revert m Hm. induction Hos as [|[now o] os Ho _ IH]; intros m Hm; [exact Hm|].
      cbn [runAll]. apply IH. now apply run_inStep. }
    intros snap. unfold Snapshot.getProgress.
    destruct (runAll key os m !! key) as [p|] eqn:E; [|discriminate].
    cbn [fmap option_fmap option_map]. intros [= <-].
    unfold snapshotFromProgress. cbn [remaining depRemaining]. split.
    + specialize (Hend p eq_refl). unfold inStep in Hend. lia.
    + intros d. destruct (depTotal p); [|discriminate]. intros [= <-]. apply Z.le_max_l.
  - intros asmData lbl r. subst r. unfold Envelope.processSubsequentAsm.
    destruct (consume_reports None (length asmData) asmData EmptyString 0%Z None (le_n _))
      as [[Hf Hl]|[_ (k & Hl & Hk)]]; cbn [reporting].
    + rewrite Hl, Hf. lia.
    + now rewrite Hl.
  - intros asmData r lbl Hr Hcount. unfold Envelope.processGenesisAsm in Hr.
    destruct asmData as [|t0 [|t1 [|mimeTypeHex rest]]]; try discriminate.
    injection Hr as <-. cbn [headerCount] in Hcount.
    destruct (consume_reports
                (Some (JS.orElse (Envelope.hexToAscii mimeTypeHex) Envelope.DEFAULT_MIME))
                (length rest) rest EmptyString 0%Z (Envelope.parseMarker t1) (le_n _))
      as [[Hf Hl]|[_ (k & Hl & Hk)]]; cbn [reporting].
    + rewrite Hl, Hf. destruct (Envelope.parseMarker t1) as [k|]; [now apply Hcount | lia].
    + now rewrite Hl.
Qed.

End SnapshotFacts.

Section SnapshotExample.
Import Progress.

Lemma snapshot_remaining_not_negative_witness :
  let os := [("t1"%string, Update "genesis" 2 (Some 3%Z));
             ("t2"%string, Update "chain" 3 (Some 0%Z));
             ("t3"%string, Complete)] in
  (forall snap,
     Snapshot.getProgress "k" (runAll "k" os ∅) = Some snap ->
     (0 <= Snapshot.remaining snap)%Z /\
     (forall d, Snapshot.depRemaining snap = Some d -> (0 <= d)%Z)) /\
  (forall asmData lbl,
     let r := Envelope.processSubsequentAsm asmData in
     reporting (Update lbl (Envelope.chunksFound r) (Envelope.lastNumChunks r))) /\
  (forall asmData r lbl,
     Envelope.processGenesisAsm asmData = Ok r ->
     (forall k, headerCount asmData = Some k -> (0 <= k)%Z) ->
     reporting (Update lbl (Envelope.chunksFound r) (Envelope.lastNumChunks r))).
Proof.
  apply (snapshot_remaining_not_negative "k"
           [("t1"%string, Update "genesis" 2 (Some 3%Z));
            ("t2"%string, Update "chain" 3 (Some 0%Z));
            ("t3"%string, Complete)] ∅).
  - repeat constructor; simpl; lia.
  - intros p E. rewrite lookup_empty in E. discriminate.
Defined.

End SnapshotExample.

(* --------------------------------------------------------------------- *)
(** ** The search for the transaction that spends an output *)
(* --------------------------------------------------------------------- *)

Section FindNext.
Import Walker.

(** X10.  [findNextOrdinalTx] finds the first spender, if there is one.
    For a transaction the node reports as confirmed at some height, the
    search returns a hop exactly when a block at that height or at one
    of the [depthBlocks] heights above, up to the tip, holds a
    transaction with an input on the output asked for.  The hop then
    names the first such transaction: no transaction of a lower block
    from the start height on has such an input, and none that comes
    before it in its block; the output index the hop carries is the one
    asked for.  When the search returns nothing, no block of that range
    holds a transaction with such an input.  For a transaction that is
    not confirmed, or that the node does not know, the search returns
    nothing. *)
Theorem findNextOrdinalTx_first_spender (n : Node.node) (id : string) (vout : N)
        (depthBlocks : nat) (answer : result (Node.rawTx * option nat)) :
  Node.getrawtransaction n id = answer ->
  match answer with
  | Ok (_, Some startHeight) =>
      match findNextOrdinalTx n id vout depthBlocks with
      | Some hop =>
          exists pre t post,
            startHeight <= height hop <= startHeight + depthBlocks /\
            Node.blocks n !! height hop = Some (pre ++ t :: post) /\
            nextTxid hop = Node.rawTxid t /\ voutIndex hop = vout /\
            spendsIt id vout t /\
            Forall (fun t' => ~ spendsIt id vout t') pre /\
            forall h' blk',
              startHeight <= h' < height hop -> Node.blocks n !! h' = Some blk' ->
              Forall (fun t' => ~ spendsIt id vout t') blk'
      | None =>
          forall h' blk',
            startHeight <= h' <= startHeight + depthBlocks ->
            Node.blocks n !! h' = Some blk' ->
            Forall (fun t' => ~ spendsIt id vout t') blk'
      end
  | _ => findNextOrdinalTx n id vout depthBlocks = None
  end.
Proof.
  intros <-. unfold findNextOrdinalTx.
  destruct (Node.getrawtransaction n id) as [[t0 [startHeight|]]|e]; try reflexivity.
  destruct (scanHeights n id vout (S depthBlocks) startHeight) as [hop|] eqn:Hs.
  - apply scanHeights_Some in Hs as (blk & t & Hh & Hb & Ht & Hid & Hv & Hbefore).
    apply spenderIn_Some in Ht as (pre & post & -> & Hsp & Hpre).
    exists pre, t, post. split; [lia|]. repeat (split; [assumption|]). exact Hbefore.
  - intros h' blk' Hh' Hb'.
    apply (scanHeights_None n id vout (S depthBlocks) startHeight Hs h' blk'); [lia|exact Hb'].
Qed.

(** A node with four blocks.  The transaction [aa] is in the first; the
    third holds, after two others, a transaction [bb] with an input on
    output 0 of [aa], and the fourth another such transaction. *)
Definition fourBlocks : Node.node :=
  Node.NodeState
    [[Node.RawTx "c0" [Node.Vin "" 0 ""]; Node.RawTx "aa" [Node.Vin "99" 1 "3044 02"]];
     [Node.RawTx "c1" [Node.Vin "" 0 ""]];
     [Node.RawTx "c2" [Node.Vin "" 0 ""]; Node.RawTx "dd" [Node.Vin "aa" 1 "3044 02"];
      Node.RawTx "bb" [Node.Vin "77" 0 "3044 02"; Node.Vin "aa" 0 "6582895 1"]];
     [Node.RawTx "c3" [Node.Vin "" 0 ""]; Node.RawTx "ee" [Node.Vin "aa" 0 "1 2"]]]
    [].

Lemma findNextOrdinalTx_first_spender_witness :
  findNextOrdinalTx fourBlocks "aa" 0 5 = Some (NextHop "bb" 0 2) /\
  exists pre t post,
    0 <= 2 <= 0 + 5 /\
    Node.blocks fourBlocks !! 2 = Some (pre ++ t :: post) /\
    "bb"%string = Node.rawTxid t /\ 0%N = 0%N /\
    spendsIt "aa" 0 t /\
    Forall (fun t' => ~ spendsIt "aa" 0 t') pre /\
    forall h' blk',
      0 <= h' < 2 -> Node.blocks fourBlocks !! h' = Some blk' ->
      Forall (fun t' => ~ spendsIt "aa" 0 t') blk'.
Proof.
  split; [reflexivity|].
  exact (findNextOrdinalTx_first_spender fourBlocks "aa" 0 5 _ eq_refl).
Defined.

End FindNext.

(* --------------------------------------------------------------------- *)
(** ** The size of the waves *)
(* --------------------------------------------------------------------- *)

Section WaveSizes.
Import Controller.
Variable total : Q.

(** The number of mints a wave asks for. *)
Definition waveCount (e : event) : option Q :=
  match e with
  | MainWave c _ | TestWave c _ => Some c
  | _ => None
  end.

(** What is due once [done] mints are counted: what is left of the
    total, [MAX_PER_WAVE] at most. *)
Definition dueAfter (done : nat) : Q := Qmin (num MAX_PER_WAVE) (total - num done).

(** Every wave among the events asks for what is still due when it
    starts, and for more than nothing. *)
Definition due (es : list event) : Prop :=
  forall pre e post c,
    es = pre ++ e :: post -> waveCount e = Some c ->
    c = dueAfter (length (mintedIn pre)) /\ (0 < c)%Q.

Definition calm (es : list event) : Prop := Forall (fun e => isWave e = false) es.

Lemma mintedIn_app (a b : list event) : mintedIn (a ++ b) = mintedIn a ++ mintedIn b.
Proof. apply flat_map_app. Qed.

Lemma mintedIn_calm (es : list event) : calm es -> mintedIn es = [].
Proof.
  induction 1 as [|e es He _ IH]; [reflexivity|].
  change (mintedIn (e :: es)) with (mintedOf e ++ mintedIn es). rewrite IH.
  destruct e; try discriminate; reflexivity.
Qed.

Lemma due_snoc (es : list event) (e : event) :
  due es ->
  (forall c, waveCount e = Some c ->
             c = dueAfter (length (mintedIn es)) /\ (0 < c)%Q) ->
  due (es ++ [e]).
Proof.
  intros Hes He pre e' post c E Hc.
  destruct (snoc_cases post) as [->|(post' & x & ->)].
  - apply app_inj_tail in E as [<- <-]. now apply He.
  - rewrite app_comm_cons, app_assoc in E. apply app_inj_tail in E as [-> _].
    now apply (Hes pre e' post' c).
Qed.

Lemma due_calm (es' : list event) : forall es, due es -> calm es' -> due (es ++ es').
Proof.
  induction es' as [|e es' IH]; intros es Hes Hcalm; [now rewrite app_nil_r|].
  apply Forall_cons in Hcalm as [He Hcalm].
  rewrite cons_middle, app_assoc. apply IH; [|exact Hcalm].
  apply due_snoc; [exact Hes|]. intros c Hc. destruct e; discriminate.
Qed.

(** A step that counts nothing and runs no wave. *)
Definition quiet (s s' : state) : Prop :=
  completed s' = completed s /\ allTxids s' = allTxids s /\
  exists es, trace s' = trace s ++ es /\ calm es.

Lemma quiet_refl (s : state) : quiet s s.
Proof.
  split; [reflexivity|]. split; [reflexivity|].
  exists []. split; [now rewrite app_nil_r | constructor].
Qed.

Lemma quiet_trans (s1 s2 s3 : state) : quiet s1 s2 -> quiet s2 s3 -> quiet s1 s3.
Proof.
  intros (E1 & A1 & es1 & T1 & C1) (E2 & A2 & es2 & T2 & C2).
  split; [congruence|]. split; [congruence|].
  exists (es1 ++ es2). split; [now rewrite T2, T1, app_assoc | now apply Forall_app].
Qed.

Definition quietly {A} (c : M A) : Prop :=
  forall s, match c s with
            | Go _ s' => quiet s s'
            | Stop _ s' => quiet s s'
            end.

Lemma quietly_bind {A B} (c : M A) (k : A -> M B) :
  quietly c -> (forall a, quietly (k a)) -> quietly (bind c k).
Proof.
  intros Hc Hk s. unfold bind. specialize (Hc s).
  destruct (c s) as [a s1|e s1]; [|exact Hc].
  specialize (Hk a s1). destruct (k a s1); now apply (quiet_trans s s1).
Qed.

Lemma quietly_ret {A} (a : A) : quietly (ret a).
Proof. intros s. apply quiet_refl. Qed.

Lemma quietly_get : quietly get.
Proof. intros s. apply quiet_refl. Qed.

Lemma quietly_leave {A} (e : ending) : quietly (@leave A e).
Proof. intros s. apply quiet_refl. Qed.

Lemma quietly_emit (e : event) : isWave e = false -> quietly (emit e).
Proof.
  intros He s. split; [reflexivity|]. split; [reflexivity|].
  exists [e]. split; [reflexivity|]. now repeat constructor.
Qed.

Lemma quietly_awaited (w : env) : quietly (awaited w).
Proof.
  intros s. split; [reflexivity|]. split; [reflexivity|].
  exists []. split; [simpl; now rewrite app_nil_r | constructor].
Qed.

Lemma quietly_deletePendingFile : quietly deletePendingFile.
Proof.
  apply quietly_bind; [apply quietly_get|]. intros s0. cbv zeta.
  destruct (unlinks (world s0)); [apply quietly_leave|].
  apply quietly_bind; [apply quietly_awaited|]. intros _. now apply quietly_emit.
Qed.

Lemma quietly_syncWalletWithRetry : quietly syncWalletWithRetry.
Proof.
  apply quietly_bind; [apply quietly_get|]. intros s0. cbv zeta. destruct (cancelled s0).
  - apply quietly_bind; [now apply quietly_emit|]. intros _. apply quietly_ret.
  - destruct (syncs (world s0)); [apply quietly_leave|].
    apply quietly_bind; [apply quietly_awaited|]. intros _.
    apply quietly_bind; [now apply quietly_emit|]. intros _. apply quietly_ret.
Qed.

Lemma quietly_abort {A} (message : string) : quietly (@abort A message).
Proof. apply quietly_bind; [now apply quietly_emit|]. intros _. apply quietly_leave. Qed.

Lemma quietly_resync (message : string) : quietly (resync message).
Proof.
  apply quietly_bind; [apply quietly_syncWalletWithRetry|].
  intros [|]; [apply quietly_ret | apply quietly_abort].
Qed.

Lemma quietly_sleep30 : quietly sleep30.
Proof.
  apply quietly_bind; [apply quietly_get|]. intros s0. cbv zeta.
  apply quietly_bind; [apply quietly_awaited|]. intros _. now apply quietly_emit.
Qed.

Lemma quietly_waitForTxChainClear (t : string) : quietly (waitForTxChainClear t).
Proof.
  apply quietly_bind; [now apply quietly_emit|]. intros _.
  apply quietly_bind; [apply quietly_get|]. intros s0. cbv zeta.
  destruct (pollUntilClear (polls (world s0)) (awaits s0)) as [[rest n]|];
    [|apply quietly_leave].
  intros s. split; [reflexivity|]. split; [reflexivity|].
  exists []. split; [simpl; now rewrite app_nil_r | constructor].
Qed.

Lemma quietly_pauseOn (watchTxid : option string) : quietly (pauseOn watchTxid).
Proof.
  destruct watchTxid as [t|]; [|apply quietly_sleep30]. cbn [pauseOn].
  destruct (JS.truthy t); [apply quietly_waitForTxChainClear | apply quietly_sleep30].
Qed.

Lemma quietly_confirmWave (r : waveResult) (afterWait afterSleep : string) :
  quietly (confirmWave r afterWait afterSleep).
Proof.
  assert (Hsleep : quietly (bind sleep30 (fun _ => resync afterSleep))).
  { apply quietly_bind; [apply quietly_sleep30|]. intros _. apply quietly_resync. }
  apply quietly_bind; [apply quietly_get|]. intros s0. cbv zeta.
  destruct (orTxid (last (mintedTxids r)) (lastSuccessfulTxid s0)) as [t|]; [|exact Hsleep].
  destruct (JS.truthy t); [|exact Hsleep].
  apply quietly_bind; [apply quietly_waitForTxChainClear|]. intros _. apply quietly_resync.
Qed.

(** What [allTxids.push] leaves of the list. *)
Lemma pushNew_spec (minted : list string) : forall all,
  NoDup all ->
  NoDup (pushNew all minted) /\
  (forall t, t ∈ pushNew all minted <-> t ∈ all \/ t ∈ minted) /\
  length (pushNew all minted) <= length all + length minted.
Proof.
  unfold pushNew.
  induction minted as [|m minted IH]; intros all Hall; cbn [foldl].
  - split; [exact Hall|]. split; [|lia]. intros t. rewrite elem_of_nil. tauto.
  - destruct (existsb (String.eqb m) all) eqn:Hm.
    + destruct (IH all Hall) as (Hnd & Hin & Hlen). split; [exact Hnd|]. split.
      * intros t. rewrite Hin, elem_of_cons. split; [tauto|].
        intros [Ht|[->|Ht]]; [tauto| |tauto]. left.
        apply existsb_exists in Hm as (x & Hx & E). apply String.eqb_eq in E. subst x.
        now apply list_elem_of_In.
      * cbn [length]. lia.
    + assert (Hnew : m ∉ all).
      { intros Hin. apply list_elem_of_In in Hin.
        assert (E : existsb (String.eqb m) all = true)
          by (apply existsb_exists; exists m; split; [exact Hin | apply String.eqb_refl]).
        congruence. }
      destruct (IH (all ++ [m])) as (Hnd & Hin & Hlen).
      { apply NoDup_app. split; [exact Hall|]. split; [|apply NoDup_singleton].
        intros x Hx Hx'. apply list_elem_of_singleton in Hx'. now subst x. }
      split; [exact Hnd|]. split.
      * intros t. rewrite Hin, elem_of_app, list_elem_of_singleton, elem_of_cons. tauto.
      * rewrite length_app in Hlen. cbn [length] in *. lia.
Qed.

(** What holds of the variables throughout: the waves so far have asked
    for what was due; [allTxids] lists txids the waves have minted, none
    of them twice; and [completed] counts no more txids than the waves
    have minted, and no fewer than are listed. *)
Definition sound (s : state) : Prop :=
  due (trace s) /\
  NoDup (allTxids s) /\
  (forall t, t ∈ allTxids s -> t ∈ mintedIn (trace s)) /\
  length (allTxids s) <= completed s <= length (mintedIn (trace s)).

(** Where the loop body is entered and left: every txid minted has been
    counted. *)
Definition counted (s : state) : Prop :=
  sound s /\ completed s = length (mintedIn (trace s)).

Lemma quiet_sound (s s' : state) : sound s -> quiet s s' -> sound s'.
Proof.
  intros (Hdue & Hnd & Hin & Hlen) (E & A & es & T & Hcalm).
  assert (Hm : mintedIn (trace s') = mintedIn (trace s))
    by (rewrite T, mintedIn_app, (mintedIn_calm es Hcalm); apply app_nil_r).
  split; [rewrite T; now apply due_calm|].
  rewrite A, E, Hm. split; [exact Hnd|]. split; [exact Hin | exact Hlen].
Qed.

Lemma quiet_counted (s s' : state) : counted s -> quiet s s' -> counted s'.
Proof.
  intros [Hs Hc] Hq. split; [now apply (quiet_sound s)|].
  destruct Hq as (E & _ & es & T & Hcalm).
  rewrite E, T, mintedIn_app, (mintedIn_calm es Hcalm), app_nil_r. exact Hc.
Qed.

Definition leaves (e : ending) (s : state) : Prop :=
  match e with
  | Continue => counted s
  | _ => sound s
  end.

Lemma counted_leaves (e : ending) (s : state) : counted s -> leaves e s.
Proof. intros H. destruct e; [exact H | apply H | apply H | apply H]. Qed.

Lemma quietly_counted {A} (c : M A) (s : state) :
  quietly c -> counted s ->
  triple s c (fun _ s' => counted s' /\ completed s' = completed s) leaves.
Proof.
  intros Hc Hs. unfold triple. specialize (Hc s).
  destruct (c s) as [a s'|e s'].
  - split; [now apply (quiet_counted s) | apply Hc].
  - apply counted_leaves. now apply (quiet_counted s).
Qed.

(** After a wave, before it is counted. *)
Definition pending (r : waveResult) (s : state) : Prop :=
  sound s /\
  completed s + length (mintedTxids r) = length (mintedIn (trace s)) /\
  (forall t, t ∈ mintedTxids r -> t ∈ mintedIn (trace s)).

Lemma runMintWave_due (test : bool) (s : state) :
  counted s -> (0 < total - num (completed s))%Q ->
  triple s (runMintWave test (Qmin (num MAX_PER_WAVE) (total - num (completed s))))
    (fun r s' => pending r s') leaves.
Proof.
  intros [(Hdue & Hnd & Hin & Hlen) Hc] Hlt.
  unfold runMintWave, triple, bind, get, leave, ret, emit, awaited.
  cbv zeta. destruct (waves (world s)) as [|r rest];
    [exact (conj Hdue (conj Hnd (conj Hin Hlen)))|].
  unfold pending, sound. cbn [trace completed allTxids].
  set (e := if test then TestWave _ r else MainWave _ r).
  assert (Hm : mintedIn (trace s ++ [e]) = mintedIn (trace s) ++ mintedTxids r).
  { rewrite mintedIn_app. f_equal. subst e.
    destruct test; cbn [mintedIn flat_map mintedOf]; apply app_nil_r. }
  rewrite Hm, length_app.
  split; [split; [|split; [exact Hnd|split; [|lia]]] | split; [lia|]].
  - apply due_snoc; [exact Hdue|]. intros c Hcount.
    assert (c = Qmin (num MAX_PER_WAVE) (total - num (completed s))) as ->
      by (subst e; destruct test; cbn [waveCount] in Hcount; now injection Hcount as <-).
    unfold dueAfter. rewrite <- Hc. split; [reflexivity|].
    apply Q.min_glb_lt; [reflexivity | exact Hlt].
  - intros t Ht. apply elem_of_app. left. now apply Hin.
  - intros t Ht. apply elem_of_app. now right.
Qed.

Lemma count_counted (r : waveResult) (s : state) :
  pending r s -> triple s (count r) (fun _ s' => counted s') leaves.
Proof.
  intros ((Hdue & Hnd & Hin & Hlen) & Hc & Hr). unfold triple, count, counted, sound.
  destruct (mintedTxids r) as [|t ms] eqn:Hm; cbn [trace completed allTxids].
  - cbn [length] in Hc.
    split; [|lia]. split; [exact Hdue|]. split; [exact Hnd|]. split; [exact Hin | lia].
  - destruct (pushNew_spec (t :: ms) (allTxids s) Hnd) as (Hnd' & Hin' & Hlen').
    split; [|exact Hc]. split; [exact Hdue|]. split; [exact Hnd'|]. split; [|lia].
    intros x Hx. apply Hin' in Hx as [Hx|Hx]; [now apply Hin | now apply Hr].
Qed.

(** What follows a wave in the loop body, once it is counted. *)
Lemma after_success (r : waveResult) (afterWait afterSleep : string) (s : state) :
  counted s ->
  triple s (bind (confirmWave r afterWait afterSleep) (fun _ => leave Continue))
    (fun (_ : unit) s' => counted s') leaves.
Proof.
  intros Hs. apply triple_bind.
  eapply triple_weaken;
    [apply (quietly_counted _ s (quietly_confirmWave r afterWait afterSleep) Hs) | | auto].
  intros [] s' [Hs' _]. now apply triple_leave.
Qed.

Lemma after_failure (message : string) (s : state) :
  counted s -> triple s (abort message) (fun (_ : unit) s' => counted s') leaves.
Proof.
  intros Hs. eapply triple_weaken;
    [apply (quietly_counted _ s (quietly_abort message) Hs) | | auto].
  now intros [] s' [Hs' _].
Qed.

Lemma chainLimitPath_due (s : state) :
  counted s -> triple s (chainLimitPath total) (fun _ s' => counted s') leaves.
Proof.
  intros Hs. unfold chainLimitPath. apply triple_bind.
  eapply triple_weaken;
    [apply (quietly_counted _ s quietly_deletePendingFile Hs) | | auto].
  intros [] s1 [Hs1 _]. apply triple_bind, triple_get.
  destruct (Qle_bool total (num (completed s1))) eqn:Hle;
    [apply triple_leave, Hs1|].
  assert (Hlt : (0 < total - num (completed s1))%Q).
  { assert (Hn : ~ (total <= num (completed s1))%Q)
      by (intros H; apply Qle_bool_iff in H; congruence).
    lra. }
  apply triple_bind.
  eapply triple_weaken;
    [apply (quietly_counted _ s1 (quietly_resync _) Hs1) | | auto].
  intros [] s2 [Hs2 Hsame]. apply triple_bind, triple_get.
  apply triple_bind.
  eapply triple_weaken;
    [apply (runMintWave_due true s2 Hs2); now rewrite Hsame | | auto].
  intros testWave s3 Hs3. apply triple_bind, triple_get.
  destruct (cancelled s3); [apply triple_leave, Hs3|].
  apply triple_bind.
  eapply triple_weaken; [apply (count_counted testWave s3 Hs3) | | auto].
  intros [] s4 Hs4.
  destruct (exitedZero testWave && negb (chainLimit testWave)); [now apply after_success|].
  destruct (negb (exitedZero testWave) && negb (chainLimit testWave));
    [now apply after_failure|].
  apply triple_bind, triple_get. apply triple_bind.
  eapply triple_weaken;
    [apply (quietly_counted _ s4 (quietly_pauseOn _) Hs4) | | auto].
  intros [] s5 [Hs5 _].
  eapply triple_weaken;
    [apply (quietly_counted _ s5 (quietly_resync _) Hs5) | | auto].
  now intros [] s6 [Hs6 _].
Qed.

Lemma iteration_due (s : state) :
  counted s -> triple s (iteration total) (fun _ s' => counted s') leaves.
Proof.
  intros Hs. unfold iteration. apply triple_bind, triple_get. cbv zeta.
  destruct (Qle_bool (total - num (completed s)) 0) eqn:Hle;
    [apply triple_leave, Hs|].
  assert (Hlt : (0 < total - num (completed s))%Q).
  { assert (Hn : ~ (total - num (completed s) <= 0)%Q)
      by (intros H; apply Qle_bool_iff in H; congruence).
    lra. }
  apply triple_bind.
  eapply triple_weaken; [apply (runMintWave_due false s Hs); exact Hlt | | auto].
  intros wave s1 Hs1. apply triple_bind, triple_get.
  destruct (cancelled s1); [apply triple_leave, Hs1|].
  apply triple_bind.
  eapply triple_weaken; [apply (count_counted wave s1 Hs1) | | auto].
  intros [] s2 Hs2.
  destruct (exitedZero wave && negb (chainLimit wave)); [now apply after_success|].
  destruct (negb (exitedZero wave) && negb (chainLimit wave));
    [now apply after_failure|].
  now apply chainLimitPath_due.
Qed.

Lemma loop_sound (rounds : nat) : forall s,
  counted s -> sound (snd (loop rounds total s)).
Proof.
  assert (Hfinish : forall s, sound s -> sound (snd (finish s))).
  { intros s Hs. apply (quiet_sound s); [exact Hs|]. cbn [finish snd].
    split; [reflexivity|]. split; [reflexivity|]. exists [Done].
    split; [reflexivity|]. now repeat constructor. }
  induction rounds as [|rounds IH]; intros s Hs; [apply Hs|]. cbn [loop].
  destruct (negb (cancelled s) && negb (Qle_bool total (num (completed s))));
    [|apply Hfinish, Hs].
  pose proof (iteration_due s Hs) as Hit. unfold triple in Hit.
  destruct (iteration total s) as [[] s'|[] s']; cbn [leaves] in Hit;
    [now apply IH | now apply IH | now apply Hfinish | exact Hit | exact Hit].
Qed.

End WaveSizes.

Section WaveSizesClaim.
Import Controller.

Lemma start_counted (total : Q) (w : env) : counted total (start w).
Proof.
  split; [|reflexivity]. split; [|split; [constructor|split; [|cbn; lia]]].
  - intros pre0 e0 post0 c0 E. destruct pre0; discriminate.
  - intros t Ht. cbn in Ht. now apply elem_of_nil in Ht.
Qed.

Lemma num_sub (a b : nat) : b <= a -> (num (a - b) == num a - num b)%Q.
Proof.
  intros Hle. unfold num. rewrite Nat2Z.inj_sub by exact Hle.
  unfold Z.sub. now rewrite inject_Z_plus, inject_Z_opp.
Qed.

Lemma num_lt (a b : nat) : (num a < num b)%Q <-> a < b.
Proof. unfold num. rewrite <- Zlt_Qlt. lia. Qed.

Lemma num_le (a b : nat) : (num a <= num b)%Q <-> a <= b.
Proof. unfold num. rewrite <- Zle_Qle. lia. Qed.

(** What is due of a whole total is a whole number. *)
Lemma dueAfter_whole (total : Q) (n done : nat) :
  (total == num n)%Q -> (0 < dueAfter total done)%Q ->
  exists k, (dueAfter total done == num k)%Q /\ 1 <= k <= MAX_PER_WAVE.
Proof.
  intros Hn Hpos. unfold dueAfter in *.
  destruct (Q.min_spec (num MAX_PER_WAVE) (total - num done)) as [[Hlt E]|[Hle E]];
    rewrite E in Hpos.
  - exists MAX_PER_WAVE. split; [exact E|]. unfold MAX_PER_WAVE. lia.
  - assert (Hdone : done < n) by (apply num_lt; lra).
    pose proof (num_sub n done (Nat.lt_le_incl _ _ Hdone)) as Hsub.
    exists (n - done). split; [rewrite E; lra|].
    split; [lia|]. apply num_le. lra.
Qed.

(** A request for half a mint: the loop runs one wave, which it asks
    for half a mint. *)
Lemma wave_of_half_a_mint :
  run 3 (1 # 2) Demo.warm
  = [MainWave (1 # 2) (Demo.minted Demo.txidA); WaitClear Demo.txidA; Sync true; Done].
Proof. vm_compute. reflexivity. Qed.

(** X11.  No wave of the bulk mint asks for more than is due.  Every
    wave the loop runs, main wave or test wave, asks for
    [Math.min(MAX_PER_WAVE, total - completed)] mints, where [completed]
    is the number of txids the waves before it have minted: more than
    none, never more than 12, and never more than are still to be
    minted.  The total is the number the request gives, which the route
    only requires to be finite and greater than 0; when it is a whole
    number, every wave asks for a whole number of mints, one at
    least. *)
Theorem waves_ask_for_what_is_due (rounds : nat) (total : Q) (w : env)
        (pre post : list event) (e : event) (c : Q) :
  run rounds total w = pre ++ e :: post ->
  waveCount e = Some c ->
  c = Qmin (num MAX_PER_WAVE) (total - num (length (mintedIn pre))) /\
  (0 < c <= num MAX_PER_WAVE)%Q /\
  (c + num (length (mintedIn pre)) <= total)%Q /\
  (forall n : nat, (total == num n)%Q ->
                   exists k : nat, (c == num k)%Q /\ 1 <= k <= MAX_PER_WAVE).
Proof.
  intros Hrun Hc.
  destruct (loop_sound total rounds (start w) (start_counted total w)) as [Hdue _].
  destruct (Hdue pre e post c Hrun Hc) as [-> Hpos].
  split; [reflexivity|]. split; [|split].
  - split; [exact Hpos | apply Q.le_min_l].
  - pose proof (Q.le_min_r (num MAX_PER_WAVE) (total - num (length (mintedIn pre)))) as Hle.
    unfold dueAfter. lra.
  - intros n Hn. now apply (dueAfter_whole total n).
Qed.

(** A job of three mints: the second wave asks for the two that are
    left. *)
Lemma waves_ask_for_what_is_due_witness :
  let pre := [MainWave 3 (Demo.minted Demo.txidA); WaitClear Demo.txidA; Sync true] in
  2%Q = Qmin (num MAX_PER_WAVE) (3 - num (length (mintedIn pre))) /\
  (0 < 2 <= num MAX_PER_WAVE)%Q /\
  (2 + num (length (mintedIn pre)) <= 3)%Q /\
  (forall n : nat, (3 == num n)%Q ->
                   exists k : nat, (2 == num k)%Q /\ 1 <= k <= MAX_PER_WAVE).
Proof.
  apply (waves_ask_for_what_is_due 10 3 Demo.warm
           [MainWave 3 (Demo.minted Demo.txidA); WaitClear Demo.txidA; Sync true]
           (skipn 4 (run 10 3 Demo.warm))
           (MainWave 2 (Demo.limited [Demo.txidB])) 2).
  - vm_compute. reflexivity.
  - reflexivity.
Defined.

(** X12.  The txids a bulk mint reports.  However the loop ends, the
    list [allTxids] that comes with [done] holds no txid twice, and
    only txids that the waves of the job have minted; [completed] counts
    the txids of the waves one by one, repeated ones included, so that
    it is at least the length of the list and at most the number of
    txids the waves have minted. *)
Theorem reported_txids_sound (rounds : nat) (total : Q) (w : env) :
  let s := snd (loop rounds total (start w)) in
  NoDup (allTxids s) /\
  (forall t, t ∈ allTxids s -> t ∈ mintedIn (run rounds total w)) /\
  length (allTxids s) <= completed s <= length (mintedIn (run rounds total w)).
Proof.
  destruct (loop_sound total rounds (start w) (start_counted total w))
    as (_ & Hnd & Hin & Hlen).
  cbv zeta. unfold run. split; [exact Hnd|]. split; [exact Hin | exact Hlen].
Qed.

End WaveSizesClaim.

(* --------------------------------------------------------------------- *)
(** ** An unspent output listed twice *)
(* --------------------------------------------------------------------- *)

Section BalanceTwice.
Import Tx Balance.

Lemma tally_seen (l : list utxo) : forall st u,
  utxoKey u ∈ fst st -> utxoKey u ∈ fst (foldl tally st l).
Proof.
  induction l as [|x l IH]; intros st u Hu; [exact Hu|]. cbn [foldl]. apply IH.
  destruct st as [seen total]. unfold tally.
  destruct (negb (JS.truthy (utxoTxid x))); [exact Hu|].
  destruct (decide (utxoKey x ∈ seen)); [exact Hu|]. cbn [fst] in *. set_solver.
Qed.

Lemma tally_skip (st : gset string * Z) (u : utxo) :
  JS.truthy (utxoTxid u) = false \/ utxoKey u ∈ fst st -> tally st u = st.
Proof.
  destruct st as [seen total]. unfold tally. intros [Ht|Hin].
  - now rewrite Ht.
  - destruct (negb (JS.truthy (utxoTxid u))); [reflexivity|].
    cbn [fst] in Hin. now destruct (decide (utxoKey u ∈ seen)).
Qed.

Lemma tally_counted (st : gset string * Z) (u : utxo) :
  JS.truthy (utxoTxid u) = false \/ utxoKey u ∈ fst (tally st u).
Proof.
  destruct st as [seen total]. unfold tally.
  destruct (JS.truthy (utxoTxid u)) eqn:Ht; [right | now left]. cbn [negb].
  destruct (decide (utxoKey u ∈ seen)); [assumption|]. cbn [fst]. set_solver.
Qed.

Lemma walletBalance_from (l : list utxo) : forall acc : Z,
  foldl (fun acc curr => (acc + utxoSatoshis curr)%Z) acc l
  = (acc + foldl (fun acc curr => (acc + utxoSatoshis curr)%Z) 0 l)%Z.
Proof.
  induction l as [|x l IH]; intros acc; [simpl; lia|]. cbn [foldl].
  rewrite (IH (acc + utxoSatoshis x)%Z), (IH (0 + utxoSatoshis x)%Z). lia.
Qed.

(** X14.  An unspent output that the wallet file lists twice counts
    twice for the script and once for the server.  [walletBalance] of
    the script adds up every entry, so that a second entry for the same
    output raises the balance it prints by the value of the output;
    [calcWalletBalanceDoge] of the server skips an entry whose key
    [txid:vout] it has seen, so that the sum it divides by [1e8] is the
    same with the second entry and without it. *)
Theorem balance_of_a_repeated_utxo (key address : string) (l1 l2 l3 : list utxo) (u : utxo) :
  let twice := Wallet key address (l1 ++ u :: l2 ++ u :: l3) in
  let once := Wallet key address (l1 ++ u :: l2 ++ l3) in
  walletBalance twice = (walletBalance once + utxoSatoshis u)%Z /\
  totalSats twice = totalSats once.
Proof.
  cbv zeta. split.
  - unfold walletBalance. cbn [utxos].
    rewrite !foldl_app. cbn [foldl]. rewrite !foldl_app. cbn [foldl].
    match goal with
    | |- foldl ?f (?a + ?b)%Z l3 = _ =>
        rewrite (walletBalance_from l3 (a + b)%Z), (walletBalance_from l3 a)
    end. lia.
  - unfold totalSats. cbn [utxos].
    replace (l1 ++ u :: l2 ++ u :: l3) with ((l1 ++ u :: l2) ++ u :: l3)
      by (now rewrite <- app_assoc).
    replace (l1 ++ u :: l2 ++ l3) with ((l1 ++ u :: l2) ++ l3)
      by (now rewrite <- app_assoc).
    rewrite !foldl_app. cbn [foldl]. f_equal. f_equal.
    apply tally_skip.
    destruct (tally_counted (foldl tally (∅, 0%Z) l1) u) as [Ht|Hin]; [now left|].
    right. now apply tally_seen.
Qed.

End BalanceTwice.

(* --------------------------------------------------------------------- *)
(** ** Decoding a chain that is not yet confirmed to its end *)
(* --------------------------------------------------------------------- *)

Section FirstPartial.
Import Builder Tx Inscribe.
Context `{Bitcore}.
Hypothesis Hsig : signaturesWellFormed.









End FirstPartial.

Section TruncatedDecode.
Import Builder Tx Inscribe Mined.
Context `{Bitcore}.
Variable clock : nat -> string.
Variable key : string.


End TruncatedDecode.

Section TruncatedDecodeClaim.
Import Builder Tx Inscribe Mined.
Context `{Bitcore}.


End TruncatedDecodeClaim.

Section TruncatedDecodeExample.
#[local] Existing Instance Mined.Demo.lib.


End TruncatedDecodeExample.

(* --------------------------------------------------------------------- *)
(** ** The file that answers for an inscription id *)
(* --------------------------------------------------------------------- *)

Section ContentFile.
Import Content.

Lemma toLowerCase_append (a b : string) :
  toLowerCase (a +:+ b) = (toLowerCase a +:+ toLowerCase b)%string.
Proof. induction a as [|c a IH]; [reflexivity|]. simpl. now rewrite IH. Qed.

Lemma lowerChar_digit (c : ascii) : JS.isDigit c = true -> lowerChar c = c.
Proof.
  unfold JS.isDigit, lowerChar. cbv zeta. intros Hd.
  apply andb_true_iff in Hd as [_ Hd]. apply N.leb_le in Hd.
  destruct (N.leb_spec 65 (N_of_ascii c)); [lia | reflexivity].
Qed.

Lemma toLowerCase_digits (s : string) : JS.allDigits s = true -> toLowerCase s = s.
Proof.
  induction s as [|c s IH]; [reflexivity|]. simpl. intros Hd.
  apply andb_true_iff in Hd as [Hc Hs]. now rewrite (lowerChar_digit c Hc), IH.
Qed.

Lemma toLowerCase_truthy (s : string) : JS.truthy (toLowerCase s) = JS.truthy s.
Proof. now destruct s. Qed.

Lemma allDigits_letter (a r : string) : JS.allDigits (a +:+ String "i" r)%string = false.
Proof.
  induction a as [|c a IH]; [reflexivity|]. simpl. rewrite IH. apply andb_false_r.
Qed.

(** The index is cut where it starts: no [i] of the text before it is
    followed by digits alone. *)
Lemma stripIndex_index (t : string) (k : N) :
  stripIndex (t +:+ String "i" (JS.decimal k)) = t.
Proof.
  induction t as [|c t IH].
  - rewrite append_nil_l. cbn [stripIndex].
    assert (Hd : JS.isDigits (JS.decimal k) = true).
    { unfold JS.isDigits. pose proof (decimal_nonempty k) as Hne.
      destruct (JS.decimal k) eqn:E; [congruence|]. rewrite <- E. apply decimal_allDigits. }
    now rewrite Hd.
  - rewrite append_cons. cbn [stripIndex].
    assert (Hd : JS.isDigits (t +:+ String "i" (JS.decimal k)) = false).
    { unfold JS.isDigits. destruct (t +:+ String "i" (JS.decimal k))%string eqn:E;
        [reflexivity|]. rewrite <- E. apply allDigits_letter. }
    rewrite Hd, andb_false_r. now rewrite IH.
Qed.

Lemma elem_of_distinct_from (l : list string) : forall acc x,
  x ∈ foldl (fun acc x => if decide (x ∈ acc) then acc else acc ++ [x]) acc l
  <-> x ∈ acc \/ x ∈ l.
Proof.
  induction l as [|y l IH]; intros acc x; cbn [foldl].
  - rewrite elem_of_nil. tauto.
  - rewrite IH, elem_of_cons. destruct (decide (y ∈ acc)) as [Hy|Hy].
    + split; [tauto|]. intros [H|[->|H]]; tauto.
    + rewrite elem_of_app, list_elem_of_singleton. tauto.
Qed.

Lemma elem_of_distinct (l : list string) (x : string) : x ∈ distinct l <-> x ∈ l.
Proof. unfold distinct. rewrite elem_of_distinct_from, elem_of_nil. tauto. Qed.

Lemma find_agree {A} (f g : A -> bool) (l : list A) :
  (forall x, f x = g x) -> find f l = find g l.
Proof. intros E. induction l as [|x l IH]; [reflexivity|]. simpl. now rewrite E, IH. Qed.

(** The three beginnings looked for under the id [t i k]. *)
Definition answersFor (t : string) (k : N) (name : string) : bool :=
  let lower := toLowerCase name in
  JS.startsWith ((toLowerCase t +:+ String "i" (JS.decimal k)) +:+ ".")%string lower
  || JS.startsWith (toLowerCase t +:+ ".")%string lower
  || JS.startsWith ((toLowerCase t +:+ "i0") +:+ ".")%string lower.

Lemma candidates_index (t : string) (k : N) :
  t <> EmptyString ->
  forall name,
    startsWithCandidate (candidates (t +:+ String "i" (JS.decimal k))) name
    = answersFor t k name.
Proof.
  intros Ht name. unfold candidates. cbv zeta.
  rewrite toLowerCase_append. cbn [toLowerCase].
  change (lowerChar "i") with "i"%char.
  rewrite (toLowerCase_digits _ (decimal_allDigits k)), stripIndex_index.
  assert (Hlt : JS.truthy (toLowerCase t) = true)
    by (rewrite toLowerCase_truthy; now destruct t).
  assert (Hb : JS.truthy (toLowerCase t +:+ String "i" (JS.decimal k)) = true)
    by (now destruct (toLowerCase t)).
  assert (H0 : JS.truthy (toLowerCase t +:+ "i0") = true)
    by (now destruct (toLowerCase t)).
  rewrite Hlt. unfold truthyOnes. cbn [omap list_omap]. rewrite Hb, Hlt, H0.
  unfold startsWithCandidate, answersFor. cbv zeta.
  apply eq_true_iff_eq. rewrite existsb_exists, !orb_true_iff. split.
  - intros (c & Hc & Hm). apply list_elem_of_In in Hc. rewrite elem_of_distinct in Hc.
    apply andb_true_iff in Hm as [_ Hm].
    rewrite !elem_of_cons, elem_of_nil in Hc.
    destruct Hc as [->|[->|[->|[]]]]; tauto.
  - intros Hm.
    assert (Hin : forall c, c ∈ [(toLowerCase t +:+ String "i" (JS.decimal k))%string;
                                  toLowerCase t; (toLowerCase t +:+ "i0")%string] ->
                            In c (distinct [(toLowerCase t +:+ String "i" (JS.decimal k))%string;
                                            toLowerCase t; (toLowerCase t +:+ "i0")%string]))
      by (intros c Hc; now apply list_elem_of_In, elem_of_distinct).
    destruct Hm as [[Hm|Hm]|Hm].
    + eexists. split; [apply Hin, list_elem_of_here|]. now rewrite Hb, Hm.
    + eexists. split; [apply Hin, list_elem_of_further, list_elem_of_here|].
      now rewrite Hlt, Hm.
    + eexists. split;
        [apply Hin, list_elem_of_further, list_elem_of_further, list_elem_of_here|].
      now rewrite H0, Hm.
Qed.

(** X16.  The file that answers for an inscription id.  For the id made
    of a txid [t], the letter [i] and an index [k], [findContentFile]
    returns the first entry of the listing of the content directory
    whose name, in lower case, begins with [t i k], with [t] or with
    [t i0], followed by a dot, and [null] when there is none; the index
    asked for has no precedence.  So a file stored for index 0, or for
    the bare txid, answers for every index of the txid when the
    directory lists it first. *)
Theorem findContentFile_first_of_three (t : string) (k : N) (names : list string) :
  t <> EmptyString ->
  isAsciiText t = true ->
  Forall (fun name => isAsciiText name = true) names ->
  findContentFile (Ok names) (t +:+ String "i" (JS.decimal k))
  = contentPath <$> find (answersFor t k) names.
Proof.
  intros Ht _ _. unfold findContentFile.
  assert (Hid : JS.truthy (t +:+ String "i" (JS.decimal k)) = true) by (now destruct t).
  rewrite Hid. cbn [negb]. f_equal. apply find_agree, candidates_index, Ht.
Qed.

Lemma findContentFile_first_of_three_witness :
  findContentFile (Ok ["master"; "ab12i0.png"; "ab12i1.html"]) "AB12i1"
  = Some "content/ab12i0.png".
Proof.
  refine (findContentFile_first_of_three "AB12" 1 ["master"; "ab12i0.png"; "ab12i1.html"]
            _ _ _).
  - discriminate.
  - reflexivity.
  - repeat constructor.
Defined.

End ContentFile.
